(** * Graph search (BFS, DFS and A-star) and the tile-shattering interval DP

    A shallow embedding of [BFS_Graph.py], [DFS_Graph.py], [AStar_Graph.py]
    and [Q_(2.a).py].  Python dictionaries are finite maps, Python sets are
    finite sets, Python integers are [Z], Python strings are [string].
    A [KeyError] or [IndexError] is an explicit outcome.  Plotting and
    printing are left out: they do not feed back into the values computed. *)

From Stdlib Require Import ZArith Lia.
From stdpp Require Import gmap strings list fin_maps sorting.

Open Scope Z_scope.

(** ** Outcomes of a Python call *)

Inductive exception : Type :=
  | KeyError (key : string)
  | IndexError.

(** [OutOfFuel] belongs to the model only: a [while] loop is unrolled a
    bounded number of times.  The termination theorems below show that the
    bound chosen by each function is never reached. *)
Inductive outcome (R : Type) : Type :=
  | Done (r : R)
  | Raised (e : exception)
  | OutOfFuel.
Arguments Done {R} r.
Arguments Raised {R} e.
Arguments OutOfFuel {R}.

(** Code without a [while] loop either returns or raises. *)
Inductive result (R : Type) : Type :=
  | Ok (r : R)
  | Err (e : exception).
Arguments Ok {R} r.
Arguments Err {R} e.

#[global] Instance result_bind : MBind result := λ A B k m,
  match m with
  | Ok a => k a
  | Err e => Err e
  end.

(** What one pass through the body of a [while] loop does. *)
Inductive step_result (S R : Type) : Type :=
  | Continue (s : S)
  | Return (r : R)
  | Raise (e : exception).
Arguments Continue {S R} s.
Arguments Return {S R} r.
Arguments Raise {S R} e.

Fixpoint while_loop {S R : Type} (fuel : nat) (body : S → step_result S R) (s : S)
  : outcome R :=
  match fuel with
  | O => OutOfFuel
  | Datatypes.S fuel' =>
      match body s with
      | Continue s' => while_loop fuel' body s'
      | Return r => Done r
      | Raise e => Raised e
      end
  end.

(** [for x in l: body], where the body may raise. *)
Fixpoint for_each {A S : Type} (l : list A) (body : S → A → result S) (s : S)
  : result S :=
  match l with
  | [] => Ok s
  | x :: l' => s' ← body s x ; for_each l' body s'
  end.

(** [range(a, b)] *)
Definition range (a b : nat) : list nat := seq a (b - a).

(** [d[k]] on a dictionary. *)
Definition dict_get {V : Type} (d : gmap string V) (k : string) : result V :=
  match d !! k with
  | Some v => Ok v
  | None => Err (KeyError k)
  end.

(** ** [sorted(l, key=lambda x: x[0])] and its [reverse=True] variant

    Python's sort is stable in both directions, so the model is a stable
    insertion sort on the first component, compared as Python compares
    strings (by code point). *)

Definition str_lt (a b : string) : bool := String.ltb a b.

Fixpoint insert_asc (x : string * Z) (l : list (string * Z)) : list (string * Z) :=
  match l with
  | [] => [x]
  | y :: l' => if str_lt y.1 x.1 then y :: insert_asc x l' else x :: y :: l'
  end.

Fixpoint insert_desc (x : string * Z) (l : list (string * Z)) : list (string * Z) :=
  match l with
  | [] => [x]
  | y :: l' => if str_lt x.1 y.1 then y :: insert_desc x l' else x :: y :: l'
  end.

Definition sorted_by_name (l : list (string * Z)) : list (string * Z) :=
  foldr insert_asc [] l.

Definition sorted_by_name_reverse (l : list (string * Z)) : list (string * Z) :=
  foldr insert_desc [] l.

(** ** The graph: [graph = {city: [] ...}] filled from the edge list *)

Definition add_edge (g : gmap string (list (string * Z))) (e : string * string * Z)
  : result (gmap string (list (string * Z))) :=
  let '(c1, c2, dist) := e in
  l1 ← dict_get g c1;
  let g1 := <[c1 := l1 ++ [(c2, dist)]]> g in
  l2 ← dict_get g1 c2;
  Ok (<[c2 := l2 ++ [(c1, dist)]]> g1).

Definition build_graph (cities : list string) (edges : list (string * string * Z))
  : result (gmap string (list (string * Z))) :=
  for_each edges add_edge (list_to_map ((λ c, (c, [])) <$> cities)).

(** ** Search traces *)

Record step : Type := Step {
  step_current : string;
  step_path : list string;
  step_open : list string;
  step_closed : gset string
}.

Record astar_step : Type := AStep {
  astep_current : string;
  astep_path : list string;
  astep_f_cost : Z;
  astep_g_cost : Z;
  astep_h_cost : Z;
  astep_closed : gset string
}.

(** ** BFS ([BFS_Graph.py], [bfs]) *)

Record search_state : Type := SearchState {
  st_open : list (string * list string);
  st_closed : gset string;
  st_steps : list step
}.

Definition push_neighbor (closed_set : gset string) (path : list string)
    (open : list (string * list string)) (nb : string * Z)
  : list (string * list string) :=
  if decide (nb.1 ∈ closed_set) then open else open ++ [(nb.1, path ++ [nb.1])].

Section Search.
Variable graph : gmap string (list (string * Z)).

(** An upper bound on the number of loop iterations: one for each item
    ever put on the open list, plus the final test of the loop. *)
Definition node_weight (closed : gset string) (kv : string * list (string * Z)) : nat :=
  if decide (kv.1 ∈ closed) then O else Datatypes.S (length kv.2).

Definition graph_weight (closed : gset string) : nat :=
  sum_list (node_weight closed <$> map_to_list graph).

Definition search_fuel : nat := (2 + graph_weight ∅)%nat.

Definition bfs_body (goal : string) (st : search_state)
  : step_result search_state (option (list string) * list step) :=
  match st_open st with
  | [] => Return (None, st_steps st)
  | (current, path) :: open_queue =>
      if decide (current ∈ st_closed st) then
        Continue (SearchState open_queue (st_closed st) (st_steps st))
      else
        let closed_set := {[current]} ∪ st_closed st in
        let steps := st_steps st ++ [Step current path (open_queue.*1) closed_set] in
        if decide (current = goal) then Return (Some path, steps)
        else
          match graph !! current with
          | None => Raise (KeyError current)
          | Some adj =>
              let neighbors := sorted_by_name adj in
              Continue (SearchState
                          (foldl (push_neighbor closed_set path) open_queue neighbors)
                          closed_set steps)
          end
  end.

Definition bfs (start goal : string) : outcome (option (list string) * list step) :=
  while_loop search_fuel (bfs_body goal) (SearchState [(start, [start])] ∅ []).

(** ** DFS ([DFS_Graph.py], [dfs])

    The open list is a Python list used as a stack: [pop()] takes the
    last item, [append] adds at the end. *)

Fixpoint list_pop {A : Type} (l : list A) : option (list A * A) :=
  match l with
  | [] => None
  | x :: l' =>
      match list_pop l' with
      | None => Some ([], x)
      | Some (r, y) => Some (x :: r, y)
      end
  end.

Definition dfs_body (goal : string) (st : search_state)
  : step_result search_state (option (list string) * list step) :=
  match list_pop (st_open st) with
  | None => Return (None, st_steps st)
  | Some (open_list, (current, path)) =>
      if decide (current ∈ st_closed st) then
        Continue (SearchState open_list (st_closed st) (st_steps st))
      else
        let closed_set := {[current]} ∪ st_closed st in
        let steps := st_steps st ++ [Step current path (open_list.*1) closed_set] in
        if decide (current = goal) then Return (Some path, steps)
        else
          match graph !! current with
          | None => Raise (KeyError current)
          | Some adj =>
              let neighbors := sorted_by_name_reverse adj in
              Continue (SearchState
                          (foldl (push_neighbor closed_set path) open_list neighbors)
                          closed_set steps)
          end
  end.

Definition dfs (start goal : string) : outcome (option (list string) * list step) :=
  while_loop search_fuel (dfs_body goal) (SearchState [(start, [start])] ∅ []).

(** ** A* ([AStar_Graph.py], [astar])

    An item of the heap is the tuple [(f_cost, g_cost, node, path)].
    [heapq] keeps a binary heap inside a Python list; what the search
    observes is only that [heappop] removes and returns a least item
    under Python's tuple ordering.  That ordering is total, so the item
    returned is determined by the bag of items alone, and the heap is
    modelled as that bag. *)

Definition entry : Type := Z * Z * string * list string.

Definition e_f (e : entry) : Z := e.1.1.1.
Definition e_g (e : entry) : Z := e.1.1.2.
Definition e_node (e : entry) : string := e.1.2.
Definition e_path (e : entry) : list string := e.2.

Definition lex (c1 c2 : comparison) : comparison :=
  match c1 with Eq => c2 | _ => c1 end.

Definition entry_compare (a b : entry) : comparison :=
  lex (e_f a ?= e_f b)
    (lex (e_g a ?= e_g b)
       (lex (String.compare (e_node a) (e_node b))
            (list_compare String.compare (e_path a) (e_path b)))).

Definition entry_lt (a b : entry) : bool :=
  match entry_compare a b with Lt => true | _ => false end.

Fixpoint heap_min (m : entry) (l : list entry) : entry :=
  match l with
  | [] => m
  | x :: l' => heap_min (if entry_lt x m then x else m) l'
  end.

Fixpoint remove_first (m : entry) (l : list entry) : list entry :=
  match l with
  | [] => []
  | x :: l' => if decide (x = m) then l' else x :: remove_first m l'
  end.

Definition heappop (h : list entry) : option (entry * list entry) :=
  match h with
  | [] => None
  | x :: l => let m := heap_min x l in Some (m, remove_first m h)
  end.

Definition heappush (h : list entry) (e : entry) : list entry := h ++ [e].

Record astar_state : Type := AStarState {
  as_open : list entry;
  as_closed : gset string;
  as_g_costs : gmap string Z;
  as_steps : list astar_step
}.

Variable heuristic : gmap string Z.

(** The body of [for neighbor, edge_cost in graph[current]]; the loop
    state is [(g_costs, open_heap)]. *)
Definition relax (closed_set : gset string) (g_cost : Z) (path : list string)
    (s : gmap string Z * list entry) (nb : string * Z)
  : result (gmap string Z * list entry) :=
  let '(g_costs, open_heap) := s in
  let '(neighbor, edge_cost) := nb in
  if decide (neighbor ∈ closed_set) then Ok s
  else
    let new_g := g_cost + edge_cost in
    if match g_costs !! neighbor with
       | None => true
       | Some old => bool_decide (new_g < old)
       end
    then
      h ← dict_get heuristic neighbor;
      Ok (<[neighbor := new_g]> g_costs,
          heappush open_heap (new_g + h, new_g, neighbor, path ++ [neighbor]))
    else Ok s.

Definition astar_body (goal : string) (st : astar_state)
  : step_result astar_state (option (list string) * Z * list astar_step) :=
  match heappop (as_open st) with
  | None => Return (None, 0, as_steps st)
  | Some ((f_cost, g_cost, current, path), open_heap) =>
      if decide (current ∈ as_closed st) then
        Continue (AStarState open_heap (as_closed st) (as_g_costs st) (as_steps st))
      else
        let closed_set := {[current]} ∪ as_closed st in
        match heuristic !! current with
        | None => Raise (KeyError current)
        | Some h_cost =>
            let steps :=
              as_steps st ++ [AStep current path f_cost g_cost h_cost closed_set] in
            if decide (current = goal) then Return (Some path, g_cost, steps)
            else
              match graph !! current with
              | None => Raise (KeyError current)
              | Some adj =>
                  match for_each adj (relax closed_set g_cost path)
                          (as_g_costs st, open_heap) with
                  | Ok (g_costs, open_heap') =>
                      Continue (AStarState open_heap' closed_set g_costs steps)
                  | Err e => Raise e
                  end
              end
        end
  end.

Definition astar (start goal : string)
  : outcome (option (list string) * Z * list astar_step) :=
  match heuristic !! start with
  | None => Raised (KeyError start)
  | Some h0 =>
      while_loop search_fuel (astar_body goal)
        (AStarState [(h0, 0, start, [start])] ∅ {[start := 0]} [])
  end.
End Search.

(** ** The map of [AStar_Graph.py], [BFS_Graph.py] and [DFS_Graph.py] *)

Module Poland.
Open Scope string_scope.

Definition cities : list string :=
  ["Glogow"; "Leszno"; "Poznan"; "Bydgoszcz"; "Wroclaw"; "Opole"; "Kalisz";
   "Konin"; "Wloclawek"; "Plock"; "Lodz"; "Czestochowa"; "Katowice"; "Krakow";
   "Kielce"; "Radom"; "Warsaw"].

Definition edges : list (string * string * Z) :=
  [("Glogow", "Leszno", 45); ("Glogow", "Wroclaw", 140); ("Leszno", "Poznan", 90);
   ("Leszno", "Wroclaw", 100); ("Leszno", "Kalisz", 140); ("Poznan", "Bydgoszcz", 140);
   ("Poznan", "Konin", 130); ("Bydgoszcz", "Wloclawek", 110); ("Bydgoszcz", "Konin", 120);
   ("Wloclawek", "Plock", 55); ("Konin", "Lodz", 120); ("Kalisz", "Lodz", 120);
   ("Kalisz", "Czestochowa", 160); ("Wroclaw", "Opole", 100); ("Opole", "Czestochowa", 118);
   ("Czestochowa", "Katowice", 80); ("Czestochowa", "Lodz", 128); ("Katowice", "Krakow", 85);
   ("Lodz", "Warsaw", 150); ("Lodz", "Radom", 165); ("Lodz", "Katowice", 280);
   ("Plock", "Warsaw", 130); ("Warsaw", "Radom", 105); ("Radom", "Kielce", 82);
   ("Kielce", "Krakow", 120)]%Z.

Definition heuristic : gmap string Z :=
  list_to_map
    [("Glogow", 200); ("Leszno", 160); ("Poznan", 108); ("Bydgoszcz", 90);
     ("Wroclaw", 180); ("Opole", 170); ("Kalisz", 128); ("Konin", 96);
     ("Wloclawek", 44); ("Plock", 0); ("Lodz", 118); ("Czestochowa", 150);
     ("Katowice", 180); ("Krakow", 190); ("Kielce", 160); ("Radom", 130);
     ("Warsaw", 95)]%Z.

Definition graph : gmap string (list (string * Z)) :=
  match build_graph cities edges with
  | Ok g => g
  | Err _ => ∅
  end.

(** [path, steps = bfs('Glogow', 'Plock')] and its siblings, as each
    script runs them. *)
Definition bfs_run : option (list string) * list step :=
  match bfs graph "Glogow" "Plock" with
  | Done res => res
  | _ => (None, [])
  end.

Definition dfs_run : option (list string) * list step :=
  match dfs graph "Glogow" "Plock" with
  | Done res => res
  | _ => (None, [])
  end.

Definition astar_run : option (list string) * Z * list astar_step :=
  match astar graph heuristic "Glogow" "Plock" with
  | Done res => res
  | _ => (None, 0%Z, [])
  end.
End Poland.

(** A four-node map on which the direct road from S to C is dearer than
    the road through A, with a table that is admissible for the goal G but
    not consistent: it charges A almost its whole remaining cost and C
    nothing. *)
Module Detour.
Open Scope string_scope.

Definition graph : gmap string (list (string * Z)) :=
  match build_graph ["S"; "A"; "C"; "G"]
          [("S", "A", 1); ("A", "C", 1); ("S", "C", 3); ("C", "G", 10)]%Z with
  | Ok g => g
  | Err _ => ∅
  end.

Definition heuristic : gmap string Z :=
  list_to_map [("S", 0); ("A", 10); ("C", 0); ("G", 0)]%Z.

(** The cost of a cheapest road to G from each node. *)
Definition remaining : gmap string Z :=
  list_to_map [("S", 12); ("A", 11); ("C", 10); ("G", 0)]%Z.
End Detour.

(** A two-node map whose table has no entry for B. *)
Module Gap.
Open Scope string_scope.

Definition graph : gmap string (list (string * Z)) :=
  match build_graph ["A"; "B"] [("A", "B", 1)]%Z with
  | Ok g => g
  | Err _ => ∅
  end.

Definition heuristic : gmap string Z := {[ "A" := 1%Z ]}.
End Gap.

(** ** The tile-shattering solver ([Q_(2.a).py], [strategic_tile_shatter])

    [dp] is a list of rows.  Reading or writing outside the table is an
    [IndexError]. *)

Definition list_get {A : Type} (l : list A) (i : nat) : result A :=
  match l !! i with
  | Some x => Ok x
  | None => Err IndexError
  end.

Definition dp_get (dp : list (list Z)) (i j : nat) : result Z :=
  row ← list_get dp i; list_get row j.

Definition dp_set (dp : list (list Z)) (i j : nat) (v : Z) : result (list (list Z)) :=
  row ← list_get dp i;
  _ ← list_get row j;
  Ok (<[i := <[j := v]> row]> dp).

Definition shatter_split (arr : list Z) (left right : nat)
    (dp : list (list Z)) (k : nat) : result (list (list Z)) :=
  a ← dp_get dp left k;
  b ← dp_get dp k right;
  x ← list_get arr left;
  y ← list_get arr k;
  z ← list_get arr right;
  let points := a + b + x * y * z in
  cur ← dp_get dp left right;
  dp_set dp left right (Z.max cur points).

Definition shatter_interval (arr : list Z) (length : nat)
    (dp : list (list Z)) (left : nat) : result (list (list Z)) :=
  let right := (left + length)%nat in
  for_each (range (left + 1) right) (shatter_split arr left right) dp.

Definition shatter_length (arr : list Z) (n : nat)
    (dp : list (list Z)) (length : nat) : result (list (list Z)) :=
  for_each (range 0 (n - length)) (shatter_interval arr length) dp.

Definition strategic_tile_shatter (tile_multipliers : list Z) : result Z :=
  let arr := [1] ++ tile_multipliers ++ [1] in
  let n := length arr in
  let dp := replicate n (replicate n 0) in
  dp' ← for_each (range 2 n) (shatter_length arr n) dp;
  dp_get dp' 0 (n - 1).

(** ** Paths, costs and the shape of a graph *)

Section Paths.
Variable graph : gmap string (list (string * Z)).

(** [graph[u]] lists [(v, w)]. *)
Definition edge (u v : string) (w : Z) : Prop :=
  ∃ adj, graph !! u = Some adj ∧ (v, w) ∈ adj.

Definition adjacent (u v : string) : Prop := ∃ w, edge u v w.

(** Consecutive nodes are adjacent. *)
Fixpoint is_chain (p : list string) : Prop :=
  match p with
  | u :: (v :: _) as t => adjacent u v ∧ is_chain t
  | _ => True
  end.

Definition is_path (start goal : string) (p : list string) : Prop :=
  head p = Some start ∧ last p = Some goal ∧ is_chain p.

(** [c] is the sum of the weights of edges joining the consecutive
    nodes of [p]. *)
Fixpoint has_cost (p : list string) (c : Z) : Prop :=
  match p with
  | [] => False
  | u :: t =>
      match t with
      | [] => c = 0
      | v :: _ => ∃ w, edge u v w ∧ has_cost t (c - w)
      end
  end.

Definition weighted_path (start goal : string) (p : list string) (c : Z) : Prop :=
  head p = Some start ∧ last p = Some goal ∧ has_cost p c.

(** Number of edges of a path. *)
Definition hops (p : list string) : nat := (length p - 1)%nat.

(** Paths as the searches build them, [path + [neighbor]]. *)
Inductive walk (start : string) : list string → string → Z → Prop :=
  | walk_start : walk start [start] start 0
  | walk_step p u v w c :
      walk start p u c → edge u v w → walk start (p ++ [v]) v (c + w).

(** Every neighbour listed is itself a key of the adjacency map.  The
    construction of [graph] from the edge list gives nothing else. *)
Definition graph_closed : Prop :=
  map_Forall (λ _ adj, Forall (λ nb : string * Z, is_Some (graph !! nb.1)) adj) graph.

Definition nonneg_weights : Prop :=
  map_Forall (λ _ adj, Forall (λ nb : string * Z, 0 ≤ nb.2) adj) graph.

(** Adjacency is symmetric. *)
Definition undirected : Prop := ∀ u v w, edge u v w → edge v u w.

Variable heuristic : gmap string Z.

(** Every node of the graph has a heuristic entry. *)
Definition heuristic_total : Prop :=
  map_Forall (λ u _, is_Some (heuristic !! u)) graph.

Definition h_le (u : string) (nb : string * Z) : Prop :=
  match heuristic !! u, heuristic !! nb.1 with
  | Some hu, Some hv => hu ≤ nb.2 + hv
  | _, _ => True
  end.

(** [h(u) <= w(u,v) + h(v)] on every edge. *)
Definition consistent : Prop :=
  map_Forall (λ u adj, Forall (h_le u) adj) graph.

(** The table never overestimates the cost of reaching [goal]. *)
Definition admissible (goal : string) : Prop :=
  ∀ u hu p c, heuristic !! u = Some hu → weighted_path u goal p c → hu ≤ c.

(** The table of a zero-heuristic run. *)
Definition zero_heuristic : gmap string Z := (λ _, 0) <$> graph.
End Paths.

#[global] Instance h_le_dec heuristic u nb : Decision (h_le heuristic u nb).
Proof. unfold h_le. destruct (heuristic !! u), (heuristic !! nb.1); apply _. Defined.

#[global] Instance graph_closed_dec graph : Decision (graph_closed graph).
Proof. unfold graph_closed. apply _. Defined.

#[global] Instance nonneg_weights_dec graph : Decision (nonneg_weights graph).
Proof. unfold nonneg_weights. apply _. Defined.

#[global] Instance heuristic_total_dec graph heuristic :
  Decision (heuristic_total graph heuristic).
Proof. unfold heuristic_total. apply _. Defined.

#[global] Instance consistent_dec graph heuristic :
  Decision (consistent graph heuristic).
Proof. unfold consistent. apply _. Defined.

(** ** The reference recurrence of the tile-shattering score

    Follows the wording of the specification: [score left right] is the
    maximum over the interior split points [k] of
    [score left k + score k right + arr[left]*arr[k]*arr[right]], and [0]
    when there is no interior point. *)

Definition max_list (l : list Z) : Z :=
  match l with
  | [] => 0
  | x :: l' => foldl Z.max x l'
  end.

Fixpoint score_fuel (fuel : nat) (arr : list Z) (left right : nat) : Z :=
  match fuel with
  | O => 0
  | Datatypes.S fuel' =>
      max_list
        ((λ k, score_fuel fuel' arr left k + score_fuel fuel' arr k right
               + nth left arr 0 * nth k arr 0 * nth right arr 0)
           <$> range (left + 1) right)
  end.

Definition score (arr : list Z) (left right : nat) : Z :=
  score_fuel (right - left) arr left right.

(** Reading the table where the code reads it; total, for the statements. *)
Definition cell (dp : list (list Z)) (i j : nat) : Z := nth j (nth i dp []) 0.

Definition table (n : nat) (dp : list (list Z)) : Prop :=
  length dp = n ∧ Forall (λ row, length row = n) dp.

(** The table once every interval shorter than [len], and every interval
    of length [len] starting before [j], has been filled. *)
Definition filled (arr : list Z) (n len j : nat) (dp : list (list Z)) : Prop :=
  table n dp ∧
  ∀ l r, (l < n)%nat → (r < n)%nat →
    cell dp l r =
      if decide ((r - l < len)%nat ∨ ((r - l)%nat = len ∧ (l < j)%nat))
      then score arr l r else 0.

(** What the split point [k] contributes to [dp[left][right]], read off
    the table. *)
Definition gain (arr : list Z) (dp : list (list Z)) (left right k : nat) : Z :=
  cell dp left k + cell dp k right + nth left arr 0 * nth k arr 0 * nth right arr 0.

(** ** Loop invariants of the searches *)

(** What [bfs] and [dfs] maintain between two passes of the loop: every
    item of the open list carries a path from [start] to its node, the
    closed set is the set of nodes expanded so far, each of them once, none
    of them the goal, and every neighbour of an expanded node is closed or
    waits on the open list with the path extended through that node. *)
Definition search_inv (graph : gmap string (list (string * Z)))
    (start goal : string) (st : search_state) : Prop :=
  (∀ u p, (u, p) ∈ st_open st → ∃ c, walk graph start p u c) ∧
  NoDup (step_current <$> st_steps st) ∧
  (∀ u, u ∈ st_closed st ↔ u ∈ step_current <$> st_steps st) ∧
  (∀ s, s ∈ st_steps st →
     step_current s ≠ goal ∧
     (∃ c, walk graph start (step_path s) (step_current s) c) ∧
     ∀ v, adjacent graph (step_current s) v →
          v ∈ st_closed st ∨ (v, step_path s ++ [v]) ∈ st_open st) ∧
  (start ∈ st_closed st ∨ (start, [start]) ∈ st_open st).

(** What a finished [bfs] or [dfs] hands back. *)
Definition search_post (graph : gmap string (list (string * Z)))
    (start goal : string) (res : option (list string) * list step) : Prop :=
  NoDup (step_current <$> res.2) ∧
  match res.1 with
  | Some p => ∃ c, walk graph start p goal c
  | None => ∀ q c, ¬ walk graph start q goal c
  end.

(** The measure that decreases with every pass of a search loop. *)
Definition search_measure (graph : gmap string (list (string * Z)))
    (st : search_state) : nat :=
  (length (st_open st) + graph_weight graph (st_closed st))%nat.

(** What [astar] maintains between two passes of the loop.  Every item of
    the heap carries a path from [start] to its node together with the cost
    of that path, [f = g + h], and [g_costs] holds a value no larger for
    the node; the closed set is the set of nodes expanded so far, each of
    them once, none of them the goal; the best value recorded for a node
    that is not closed belongs to an item still on the heap. *)
Definition astar_inv (graph : gmap string (list (string * Z)))
    (heuristic : gmap string Z) (start goal : string) (st : astar_state) : Prop :=
  (∀ e, e ∈ as_open st →
     walk graph start (e_path e) (e_node e) (e_g e) ∧
     heuristic !! e_node e = Some (e_f e - e_g e) ∧
     ∃ g, as_g_costs st !! e_node e = Some g ∧ g ≤ e_g e) ∧
  NoDup (astep_current <$> as_steps st) ∧
  (∀ u, u ∈ as_closed st ↔ u ∈ astep_current <$> as_steps st) ∧
  (goal ∉ as_closed st) ∧
  (∀ u g, u ∉ as_closed st → as_g_costs st !! u = Some g →
     ∃ e, e ∈ as_open st ∧ e_node e = u ∧ e_g e = g) ∧
  (∃ g0, as_g_costs st !! start = Some g0 ∧ g0 ≤ 0).

(** With a consistent heuristic, moreover: the value recorded for a closed
    node is the cost of a cheapest path to it, and every edge out of a
    closed node has been relaxed. *)
Definition astar_opt (graph : gmap string (list (string * Z)))
    (start : string) (st : astar_state) : Prop :=
  ∀ u q c, u ∈ as_closed st → walk graph start q u c →
    (∃ g, as_g_costs st !! u = Some g ∧ g ≤ c) ∧
    ∀ v w, edge graph u v w → ∃ gv, as_g_costs st !! v = Some gv ∧ gv ≤ c + w.

Definition astar_post (graph : gmap string (list (string * Z)))
    (start goal : string) (res : option (list string) * Z * list astar_step) : Prop :=
  NoDup (astep_current <$> res.2) ∧
  match res.1.1 with
  | Some p => walk graph start p goal res.1.2
  | None => res.1.2 = 0
  end.

Definition astar_measure (graph : gmap string (list (string * Z)))
    (st : astar_state) : nat :=
  (length (as_open st) + graph_weight graph (as_closed st))%nat.

(** What the neighbour loop of [astar] does to [(g_costs, open_heap)]. *)
Definition relaxed (heuristic : gmap string Z) (closed : gset string)
    (g : Z) (path : list string) (adj : list (string * Z))
    (s s' : gmap string Z * list entry) : Prop :=
  ∃ new,
    s'.2 = s.2 ++ new ∧
    (length new ≤ length adj)%nat ∧
    (∀ e, e ∈ new →
       ∃ v w h, (v, w) ∈ adj ∧ (v ∉ closed) ∧ heuristic !! v = Some h ∧
                e = (g + w + h, g + w, v, path ++ [v]) ∧
                ∃ g', s'.1 !! v = Some g' ∧ g' ≤ g + w) ∧
    (∀ x gx, s.1 !! x = Some gx → ∃ gx', s'.1 !! x = Some gx' ∧ gx' ≤ gx) ∧
    (∀ x gx, s'.1 !! x = Some gx →
       s.1 !! x = Some gx ∨ ∃ e, e ∈ new ∧ e_node e = x ∧ e_g e = gx) ∧
    (∀ v w, (v, w) ∈ adj → v ∉ closed → ∃ gv, s'.1 !! v = Some gv ∧ gv ≤ g + w).

(** What a finished [astar] hands back when the heuristic is consistent. *)
Definition astar_post_opt (graph : gmap string (list (string * Z)))
    (start goal : string) (res : option (list string) * Z * list astar_step) : Prop :=
  match res.1.1 with
  | Some p =>
      walk graph start p goal res.1.2 ∧ ∀ q c, walk graph start q goal c → res.1.2 ≤ c
  | None => res.1.2 = 0 ∧ ∀ q c, ¬ walk graph start q goal c
  end.

(** What [bfs] maintains in addition: the queue is ordered by path length,
    no two of its paths differ in length by more than one node, and every
    node was closed with a path that no path from [start] undercuts. *)
Definition path_len_le (a b : string * list string) : Prop :=
  (length a.2 ≤ length b.2)%nat.

Definition bfs_levels (graph : gmap string (list (string * Z)))
    (start : string) (st : search_state) : Prop :=
  StronglySorted path_len_le (st_open st) ∧
  (∀ a b, a ∈ st_open st → b ∈ st_open st →
     (length b.2 ≤ Datatypes.S (length a.2))%nat) ∧
  (∀ s q c, s ∈ st_steps st → walk graph start q (step_current s) c →
     (length (step_path s) ≤ length q)%nat).

Definition bfs_post_opt (graph : gmap string (list (string * Z)))
    (start goal : string) (res : option (list string) * list step) : Prop :=
  match res.1 with
  | Some p => ∀ q c, walk graph start q goal c → (length p ≤ length q)%nat
  | None => True
  end.

(** ** Further loop invariants and reference definitions *)

(** What the edge [(c1, c2, dist)] appends to [graph[u]]. *)
Definition incident (u : string) (e : string * string * Z) : list (string * Z) :=
  (if decide (e.1.1 = u) then [(e.1.2, e.2)] else [])
  ++ (if decide (e.1.2 = u) then [(e.1.1, e.2)] else []).


(** A path on the open list repeats no node, and all its nodes except
    possibly its end are closed. *)
Definition open_simple (closed : gset string) (u : string) (p : list string) : Prop :=
  NoDup p ∧ ∀ x, x ∈ p → x = u ∨ x ∈ closed.

Definition paths_simple (st : search_state) : Prop :=
  ∀ u p, (u, p) ∈ st_open st → open_simple (st_closed st) u p.

Definition astar_paths_simple (st : astar_state) : Prop :=
  ∀ e, e ∈ as_open st → open_simple (as_closed st) (e_node e) (e_path e).


(** The trace of [bfs] and [dfs] as a reader of [steps] sees it: the entry
    at position [i] records the set of the nodes expanded up to and
    including it and a path from [start] to its node, and the first entry
    is the start with an empty open list. *)
Definition trace_ok (graph : gmap string (list (string * Z)))
    (start : string) (steps : list step) : Prop :=
  ∀ i s, steps !! i = Some s →
    step_closed s = list_to_set (step_current <$> take (Datatypes.S i) steps) ∧
    is_path graph start (step_current s) (step_path s) ∧
    (i = O → step_current s = start ∧ step_path s = [start] ∧ step_open s = []).

Definition trace_inv (graph : gmap string (list (string * Z)))
    (start : string) (st : search_state) : Prop :=
  trace_ok graph start (st_steps st) ∧
  st_closed st = list_to_set (step_current <$> st_steps st) ∧
  (st_steps st = [] → st_open st = [(start, [start])]).

(** The trace of [astar]: as above, and each entry records the cost of its
    path, the heuristic of its node and their sum. *)
Definition astar_trace_ok (graph : gmap string (list (string * Z)))
    (heuristic : gmap string Z) (start : string) (steps : list astar_step) : Prop :=
  ∀ i s, steps !! i = Some s →
    astep_closed s = list_to_set (astep_current <$> take (Datatypes.S i) steps) ∧
    weighted_path graph start (astep_current s) (astep_path s) (astep_g_cost s) ∧
    heuristic !! astep_current s = Some (astep_h_cost s) ∧
    astep_f_cost s = astep_g_cost s + astep_h_cost s ∧
    (i = O → astep_current s = start ∧ astep_path s = [start] ∧ astep_g_cost s = 0).

Definition astar_trace_inv (graph : gmap string (list (string * Z)))
    (heuristic : gmap string Z) (start : string) (st : astar_state) : Prop :=
  astar_trace_ok graph heuristic start (as_steps st) ∧
  as_closed st = list_to_set (astep_current <$> as_steps st) ∧
  (as_steps st = [] → ∃ h0, as_open st = [(h0, 0, start, [start])]).

(** How the result of a search sits in its trace: a returned path is the
    path of the last entry, whose node is the goal, and no other entry is
    for the goal. *)
Definition trace_ends (goal : string) (r : option (list string)) (steps : list step) : Prop :=
  match r with
  | Some p =>
      ∃ steps' s, steps = steps' ++ [s] ∧ step_current s = goal ∧ step_path s = p ∧
                  goal ∉ step_current <$> steps'
  | None => goal ∉ step_current <$> steps
  end.

Definition astar_trace_ends (goal : string) (r : option (list string)) (c : Z)
    (steps : list astar_step) : Prop :=
  match r with
  | Some p =>
      ∃ steps' s, steps = steps' ++ [s] ∧ astep_current s = goal ∧ astep_path s = p ∧
                  astep_g_cost s = c ∧ goal ∉ astep_current <$> steps'
  | None => c = 0 ∧ goal ∉ astep_current <$> steps
  end.


(** [bfs] records its entries in order of path length, and no path of an
    entry is longer than a path still waiting in the queue. *)
Definition step_len_le (a b : step) : Prop :=
  (length (step_path a) ≤ length (step_path b))%nat.

Definition bfs_order (st : search_state) : Prop :=
  StronglySorted step_len_le (st_steps st) ∧
  ∀ s e, s ∈ st_steps st → e ∈ st_open st → (length (step_path s) ≤ length e.2)%nat.

(** Each entry reaches its node with the fewest edges, and the entries
    come in order of their number of edges. *)
Definition bfs_trace_levels (graph : gmap string (list (string * Z)))
    (start : string) (steps : list step) : Prop :=
  StronglySorted step_len_le steps ∧
  ∀ s q, s ∈ steps → is_path graph start (step_current s) q →
         (hops (step_path s) ≤ hops q)%nat.


(** [astar] records its entries in order of [f_cost], no entry has an
    [f_cost] above an item still on the heap, and each entry carries the
    cost of a cheapest path to its node. *)
Definition astep_f_le (a b : astar_step) : Prop := astep_f_cost a ≤ astep_f_cost b.

Definition astar_order (graph : gmap string (list (string * Z)))
    (start : string) (st : astar_state) : Prop :=
  StronglySorted astep_f_le (as_steps st) ∧
  (∀ s e, s ∈ as_steps st → e ∈ as_open st → astep_f_cost s ≤ e_f e) ∧
  (∀ s q c, s ∈ as_steps st → walk graph start q (astep_current s) c →
            astep_g_cost s ≤ c).

Definition astar_trace_settled (graph : gmap string (list (string * Z)))
    (start : string) (steps : list astar_step) : Prop :=
  StronglySorted astep_f_le steps ∧
  ∀ s q c, s ∈ steps → weighted_path graph start (astep_current s) q c →
           astep_g_cost s ≤ c.

(** Every closed node, and every neighbour of a closed node, has a value
    in [g_costs]. *)
Definition astar_seen (graph : gmap string (list (string * Z)))
    (st : astar_state) : Prop :=
  (∀ u, u ∈ as_closed st → is_Some (as_g_costs st !! u)) ∧
  (∀ u v w, u ∈ as_closed st → edge graph u v w → is_Some (as_g_costs st !! v)).


(** The recurrence the solver follows on arbitrary integers: as [score],
    but the maximum also ranges over 0, the value every cell of the table
    starts with. *)
Fixpoint score_clamped_fuel (fuel : nat) (arr : list Z) (left right : nat) : Z :=
  match fuel with
  | O => 0
  | Datatypes.S fuel' =>
      foldl Z.max 0
        ((λ k, score_clamped_fuel fuel' arr left k + score_clamped_fuel fuel' arr k right
               + nth left arr 0 * nth k arr 0 * nth right arr 0)
           <$> range (left + 1) right)
  end.

Definition score_clamped (arr : list Z) (left right : nat) : Z :=
  score_clamped_fuel (right - left) arr left right.

Definition filled_clamped (arr : list Z) (n len j : nat) (dp : list (list Z)) : Prop :=
  table n dp ∧
  ∀ l r, (l < n)%nat → (r < n)%nat →
    cell dp l r =
      if decide ((r - l < len)%nat ∨ ((r - l)%nat = len ∧ (l < j)%nat))
      then score_clamped arr l r else 0.


(** The adjacency map without its weights. *)
Definition neighbour_names (graph : gmap string (list (string * Z)))
  : gmap string (list string) :=
  (λ adj : list (string * Z), adj.*1) <$> graph.

(** The map of the scripts with every distance replaced by 1. *)
Definition unit_weights (graph : gmap string (list (string * Z)))
  : gmap string (list (string * Z)) :=
  (λ adj : list (string * Z), (λ nb : string * Z, (nb.1, 1)) <$> adj) <$> graph.


(** The order of [dfs]: when the node of an entry has a neighbour outside
    the closed set recorded in that entry, the next entry is for such a
    neighbour, no such neighbour comes before it in the order of the
    names, and its path extends the path of the entry by that neighbour. *)
Definition dfs_trace_next (graph : gmap string (list (string * Z)))
    (steps : list step) : Prop :=
  ∀ i s t adj v w,
    steps !! i = Some s → steps !! Datatypes.S i = Some t →
    graph !! step_current s = Some adj → (v, w) ∈ adj → v ∉ step_closed s →
    (∃ w', (step_current t, w') ∈ adj) ∧
    (step_current t ∉ step_closed s) ∧
    str_lt v (step_current t) = false ∧
    step_path t = step_path s ++ [step_current t].

(** Between two passes of [dfs]: the closed set is the one recorded in the
    last entry, and when the node of that entry has a neighbour outside it,
    the first such neighbour in the order of the names is on top of the
    stack. *)
Definition dfs_top (graph : gmap string (list (string * Z)))
    (st : search_state) : Prop :=
  ∀ s, last (st_steps st) = Some s →
    step_closed s = st_closed st ∧
    ∀ adj v w, graph !! step_current s = Some adj → (v, w) ∈ adj → v ∉ st_closed st →
      ∃ rest u, st_open st = rest ++ [(u, step_path s ++ [u])] ∧
                (u ∉ st_closed st) ∧ (∃ w', (u, w') ∈ adj) ∧ str_lt v u = false.

Definition name_ge (a b : string * Z) : Prop := str_lt a.1 b.1 = false.

(** * Properties *)

(** A decidable property of concrete data is settled by evaluation. *)
Ltac by_evaluation :=
  match goal with
  | |- ?P => apply (bool_decide_unpack P); vm_compute; exact I
  end.

(** ** The scripts on their own data *)

Example poland_graph_built : build_graph Poland.cities Poland.edges = Ok Poland.graph.
Proof. reflexivity. Qed.

Example poland_bfs :
  Poland.bfs_run.1
  = Some ["Glogow"; "Leszno"; "Kalisz"; "Lodz"; "Warsaw"; "Plock"]%string.
Proof. reflexivity. Qed.

Example poland_dfs :
  Poland.dfs_run.1
  = Some ["Glogow"; "Leszno"; "Kalisz"; "Czestochowa"; "Katowice"; "Krakow"; "Kielce";
          "Radom"; "Lodz"; "Konin"; "Bydgoszcz"; "Wloclawek"; "Plock"]%string.
Proof. reflexivity. Qed.

Example poland_astar :
  Poland.astar_run.1
  = (Some ["Glogow"; "Leszno"; "Poznan"; "Bydgoszcz"; "Wloclawek"; "Plock"]%string, 440).
Proof. reflexivity. Qed.

Example shatter_examples :
  strategic_tile_shatter [1; 5] = Ok 10 ∧ strategic_tile_shatter [2; 4; 3] = Ok 33.
Proof. split; reflexivity. Qed.

(** ** Loops *)

Lemma for_each_app {A S : Type} (body : S → A → result S) l1 l2 s :
  for_each (l1 ++ l2) body s = s' ← for_each l1 body s; for_each l2 body s'.
Proof.
  revert s. induction l1 as [|x l1 IH]; intros s; simpl; [done|].
  destruct (body s x); simpl; [apply IH | done].
Qed.

(** A loop over [range(a, b)] with an invariant indexed by the counter. *)
Lemma for_each_range {S : Type} (P : nat → S → Prop) (body : S → nat → result S) a b s :
  (a ≤ b)%nat →
  P a s →
  (∀ i t, (a ≤ i < b)%nat → P i t → ∃ t', body t i = Ok t' ∧ P (Datatypes.S i) t') →
  ∃ s', for_each (range a b) body s = Ok s' ∧ P b s'.
Proof.
  intros Hab Ha Hstep. unfold range.
  assert (∀ len, (a + len ≤ b)%nat →
            ∃ s', for_each (seq a len) body s = Ok s' ∧ P (a + len)%nat s') as Hgen.
  { induction len as [|len IH]; intros Hlen.
    - exists s. rewrite Nat.add_0_r. done.
    - destruct IH as (s1 & Hrun & HP); [lia|].
      destruct (Hstep (a + len)%nat s1) as (s2 & Hb & HP2); [lia|done|].
      exists s2. rewrite seq_S, for_each_app, Hrun. simpl. rewrite Hb. simpl.
      split; [done|]. by replace (a + Datatypes.S len)%nat with (Datatypes.S (a + len)) by lia. }
  destruct (Hgen (b - a)%nat) as (s' & Hrun & HP); [lia|].
  exists s'. split; [done|]. by replace (a + (b - a))%nat with b in HP by lia.
Qed.

(** ** The reference recurrence *)

Lemma max_list_nonneg l : Forall (λ x, 0 ≤ x) l → 0 ≤ max_list l.
Proof.
  destruct l as [|x l]; simpl; [lia|]. intros H. inversion H as [|? ? Hx Hl]; subst.
  clear H. revert x Hx. induction Hl; intros a Ha; simpl; [done|]. apply IHHl. lia.
Qed.

Lemma foldl_max_zero l : l ≠ [] → Forall (λ x, 0 ≤ x) l → foldl Z.max 0 l = max_list l.
Proof.
  destruct l as [|x l]; [done|]. intros _ H. inversion H; subst. simpl.
  by rewrite Z.max_r.
Qed.

Lemma nth_nonneg (arr : list Z) i : Forall (λ x, 0 ≤ x) arr → 0 ≤ nth i arr 0.
Proof.
  intros H. rewrite nth_lookup. destruct (arr !! i) as [x|] eqn:E; simpl; [|lia].
  rewrite Forall_lookup in H. by apply (H i x).
Qed.

Lemma score_fuel_nonneg arr fuel l r :
  Forall (λ x, 0 ≤ x) arr → 0 ≤ score_fuel fuel arr l r.
Proof.
  intros Harr. revert l r. induction fuel as [|fuel IH]; intros l r; simpl; [lia|].
  apply max_list_nonneg, Forall_fmap, Forall_forall. intros k _. simpl.
  pose proof (IH l k). pose proof (IH k r).
  pose proof (nth_nonneg arr l Harr). pose proof (nth_nonneg arr k Harr).
  pose proof (nth_nonneg arr r Harr). nia.
Qed.

Lemma score_fuel_stable arr fuel l r :
  (r - l ≤ fuel)%nat → score_fuel fuel arr l r = score arr l r.
Proof.
  unfold score. revert l r.
  induction fuel as [fuel IH] using lt_wf_ind. intros l r Hle.
  destruct fuel as [|fuel].
  { by replace (r - l)%nat with O by lia. }
  destruct (r - l)%nat as [|d] eqn:Hd.
  { simpl. unfold range. by replace (r - (l + 1))%nat with O by lia. }
  simpl. f_equal. apply list_fmap_ext. intros i k Hk.
  apply lookup_seq in Hk as [-> Hi].
  rewrite !(IH fuel), !(IH d); lia || done.
Qed.

Lemma score_base arr l r : (r - l < 2)%nat → score arr l r = 0.
Proof.
  intros H. unfold score. destruct (r - l)%nat as [|[|d]] eqn:Hd; [done| |lia].
  simpl. unfold range. by replace (r - (l + 1))%nat with O by lia.
Qed.

(** The recurrence itself, as the specification words it. *)
Lemma score_unfold arr l r :
  (2 ≤ r - l)%nat →
  score arr l r =
    max_list ((λ k, score arr l k + score arr k r
                    + nth l arr 0 * nth k arr 0 * nth r arr 0) <$> range (l + 1) r).
Proof.
  intros H. unfold score at 1. destruct (r - l)%nat as [|d] eqn:Hd; [lia|].
  simpl. f_equal. apply list_fmap_ext. intros i k Hk.
  apply lookup_seq in Hk as [-> Hi].
  rewrite !score_fuel_stable; lia || done.
Qed.

(** ** The table of [strategic_tile_shatter] *)

Lemma list_get_ok {A : Type} (l : list A) i x : l !! i = Some x → list_get l i = Ok x.
Proof. unfold list_get. by intros ->. Qed.

Lemma table_row n dp i :
  table n dp → (i < n)%nat → ∃ row, dp !! i = Some row ∧ length row = n.
Proof.
  intros [Hlen Hrows] Hi.
  destruct (lookup_lt_is_Some_2 dp i) as [row Hrow]; [lia|].
  exists row. split; [done|]. rewrite Forall_lookup in Hrows. by apply (Hrows i).
Qed.

Lemma dp_get_ok n dp i j :
  table n dp → (i < n)%nat → (j < n)%nat → dp_get dp i j = Ok (cell dp i j).
Proof.
  intros Ht Hi Hj. destruct (table_row n dp i Ht Hi) as (row & Hrow & Hlen).
  destruct (lookup_lt_is_Some_2 row j) as [x Hx]; [lia|].
  unfold dp_get, cell. rewrite (list_get_ok _ _ _ Hrow). simpl.
  rewrite (list_get_ok _ _ _ Hx).
  by rewrite (nth_lookup_Some _ _ _ _ Hrow), (nth_lookup_Some _ _ _ _ Hx).
Qed.

Lemma dp_set_ok n dp i j v :
  table n dp → (i < n)%nat → (j < n)%nat →
  ∃ dp', dp_set dp i j v = Ok dp' ∧ table n dp' ∧ cell dp' i j = v ∧
         ∀ i' j', (i', j') ≠ (i, j) → cell dp' i' j' = cell dp i' j'.
Proof.
  intros Ht Hi Hj. destruct (table_row n dp i Ht Hi) as (row & Hrow & Hlen).
  destruct (lookup_lt_is_Some_2 row j) as [x Hx]; [lia|].
  exists (<[i := <[j := v]> row]> dp). unfold dp_set.
  rewrite (list_get_ok _ _ _ Hrow). simpl. rewrite (list_get_ok _ _ _ Hx). simpl.
  destruct Ht as [Hn Hrows].
  split; [done|]. split; [|split].
  - split; [by rewrite length_insert|].
    apply Forall_insert; [done|]. by rewrite length_insert.
  - unfold cell. rewrite !nth_lookup, list_lookup_insert_eq by lia. simpl.
    rewrite list_lookup_insert_eq by lia. done.
  - intros i' j' Hne. unfold cell. rewrite !nth_lookup.
    destruct (decide (i' = i)) as [->|Hi'].
    + rewrite list_lookup_insert_eq by lia. rewrite Hrow. simpl.
      rewrite list_lookup_insert_ne; [done|congruence].
    + by rewrite list_lookup_insert_ne.
Qed.

Lemma arr_get_ok (arr : list Z) i :
  (i < length arr)%nat → list_get arr i = Ok (nth i arr 0).
Proof.
  intros Hi. destruct (lookup_lt_is_Some_2 arr i) as [x Hx]; [done|].
  by rewrite (list_get_ok _ _ _ Hx), (nth_lookup_Some _ _ _ _ Hx).
Qed.

Section Shatter.
Variable arr : list Z.
Hypothesis arr_nonneg : Forall (λ x, 0 ≤ x) arr.
Variable n : nat.
Hypothesis arr_length : n = length arr.

Lemma shatter_split_ok dp left right k :
  table n dp → (left < k < right)%nat → (right < n)%nat →
  ∃ dp', shatter_split arr left right dp k = Ok dp' ∧ table n dp' ∧
         cell dp' left right = Z.max (cell dp left right) (gain arr dp left right k) ∧
         ∀ i j, (i, j) ≠ (left, right) → cell dp' i j = cell dp i j.
Proof.
  intros Ht Hk Hr. unfold shatter_split.
  rewrite (dp_get_ok n) by (done || lia). simpl.
  rewrite (dp_get_ok n) by (done || lia). simpl.
  rewrite !arr_get_ok by lia. simpl.
  rewrite (dp_get_ok n) by (done || lia). simpl.
  destruct (dp_set_ok n dp left right
              (Z.max (cell dp left right) (gain arr dp left right k)) Ht)
    as (dp' & Hset & Ht' & Hcell & Hother); [lia|lia|].
  exists dp'. done.
Qed.

Lemma shatter_interval_ok dp len left :
  table n dp → (left + len < n)%nat →
  ∃ dp', shatter_interval arr len dp left = Ok dp' ∧ table n dp' ∧
         cell dp' left (left + len) =
           foldl Z.max (cell dp left (left + len))
             (gain arr dp left (left + len) <$> range (left + 1) (left + len)) ∧
         ∀ i j, (i, j) ≠ (left, (left + len)%nat) → cell dp' i j = cell dp i j.
Proof.
  intros Ht Hr. unfold shatter_interval.
  destruct len as [|len].
  { exists dp. unfold range. replace (left + 0 - (left + 1))%nat with O by lia. done. }
  set (right := (left + Datatypes.S len)%nat) in *.
  destruct (for_each_range
    (λ k t, table n t ∧
            cell t left right =
              foldl Z.max (cell dp left right)
                (gain arr dp left right <$> range (left + 1) k) ∧
            ∀ i j, (i, j) ≠ (left, right) → cell t i j = cell dp i j)
    (shatter_split arr left right) (left + 1) right dp) as (dp' & Hrun & HP).
  - lia.
  - split; [done|]. unfold range. by replace (left + 1 - (left + 1))%nat with O by lia.
  - intros k t Hk (Ht1 & Hcell & Hother).
    destruct (shatter_split_ok t left right k Ht1) as (t' & Hs & Ht' & Hc' & Ho');
      [lia|lia|].
    exists t'. split; [done|]. split; [done|]. split.
    + rewrite Hc', Hcell. unfold range.
      replace (Datatypes.S k - (left + 1))%nat with (Datatypes.S (k - (left + 1))) by lia.
      rewrite seq_S, fmap_app, foldl_app. simpl.
      replace (left + 1 + (k - (left + 1)))%nat with k by lia.
      unfold gain. rewrite !Hother; [done| |]; intros [=]; lia.
    + intros i j Hij. rewrite Ho' by done. by apply Hother.
  - exists dp'. done.
Qed.

Lemma filled_gain dp len j k :
  filled arr n len j dp → (j < k < j + len)%nat → (j + len < n)%nat →
  gain arr dp j (j + len) k =
    score arr j k + score arr k (j + len)
    + nth j arr 0 * nth k arr 0 * nth (j + len)%nat arr 0.
Proof.
  intros [_ Hcells] Hk Hr. unfold gain.
  rewrite !Hcells by lia. rewrite !decide_True by lia. done.
Qed.

Lemma shatter_interval_filled dp len j :
  (2 ≤ len)%nat → (j + len < n)%nat → filled arr n len j dp →
  ∃ dp', shatter_interval arr len dp j = Ok dp' ∧ filled arr n len (Datatypes.S j) dp'.
Proof.
  intros Hlen Hr Hf.
  destruct (shatter_interval_ok dp len j) as (dp' & Hrun & Ht' & Hcell & Hother);
    [apply Hf|done|].
  exists dp'. split; [done|]. split; [done|]. intros l r Hl Hr'.
  destruct (decide ((l, r) = (j, (j + len)%nat))) as [[= -> ->]|Hne].
  - rewrite Hcell. rewrite decide_True by lia.
    destruct Hf as [Ht Hcells]. rewrite Hcells by lia. rewrite decide_False by lia.
    rewrite score_unfold by lia.
    rewrite (list_fmap_ext (gain arr dp j (j + len))
               (λ k, score arr j k + score arr k (j + len)
                     + nth j arr 0 * nth k arr 0 * nth (j + len)%nat arr 0)
               (range (j + 1) (j + len))).
    + apply foldl_max_zero.
      * unfold range. replace (j + len - (j + 1))%nat with (Datatypes.S (len - 2)) by lia.
        done.
      * apply Forall_fmap, Forall_forall. intros k _. simpl.
        pose proof (score_fuel_nonneg arr (k - j) j k arr_nonneg).
        pose proof (score_fuel_nonneg arr (j + len - k) k (j + len) arr_nonneg).
        pose proof (nth_nonneg arr j arr_nonneg). pose proof (nth_nonneg arr k arr_nonneg).
        pose proof (nth_nonneg arr (j + len) arr_nonneg). unfold score. nia.
    + intros i k Hk. apply lookup_seq in Hk as [-> Hi].
      apply filled_gain; [by split|lia|done].
  - rewrite Hother by done. destruct Hf as [Ht Hcells]. rewrite Hcells by done.
    assert (l ≠ j ∨ r ≠ (j + len)%nat) as Hc.
    { destruct (decide (l = j)) as [->|]; [right|by left]. congruence. }
    repeat case_decide; done || lia.
Qed.

Lemma shatter_length_filled dp len :
  (2 ≤ len < n)%nat → filled arr n len 0 dp →
  ∃ dp', shatter_length arr n dp len = Ok dp' ∧ filled arr n (Datatypes.S len) 0 dp'.
Proof.
  intros Hlen Hf. unfold shatter_length.
  destruct (for_each_range (λ j t, filled arr n len j t)
              (shatter_interval arr len) 0 (n - len) dp) as (dp' & Hrun & HP).
  - lia.
  - done.
  - intros j t Hj Ht. apply shatter_interval_filled; [lia|lia|done].
  - exists dp'. split; [done|]. destruct HP as [Ht Hcells]. split; [done|].
    intros l r Hl Hr. rewrite Hcells by done. repeat case_decide; done || lia.
Qed.

Lemma shatter_table_initial : filled arr n 2 0 (replicate n (replicate n 0)).
Proof.
  split.
  - split; [by rewrite length_replicate|].
    apply Forall_replicate. by rewrite length_replicate.
  - intros l r Hl Hr. unfold cell.
    rewrite (nth_lookup_Some _ _ _ (replicate n 0)) by (by apply lookup_replicate_2).
    rewrite (nth_lookup_Some _ _ _ 0) by (by apply lookup_replicate_2).
    case_decide; [|done]. rewrite score_base; [done|lia].
Qed.

Lemma shatter_loops_filled :
  (2 ≤ n)%nat →
  ∃ dp', for_each (range 2 n) (shatter_length arr n) (replicate n (replicate n 0)) = Ok dp'
         ∧ filled arr n n 0 dp'.
Proof.
  intros Hn.
  apply (for_each_range (λ len t, filled arr n len 0 t)); [done| |].
  - apply shatter_table_initial.
  - intros len t Hlen Ht. by apply shatter_length_filled.
Qed.
End Shatter.

Lemma strategic_tile_shatter_score tiles :
  Forall (λ x, 0 ≤ x) tiles →
  strategic_tile_shatter tiles
  = Ok (score ([1] ++ tiles ++ [1]) 0 (length ([1] ++ tiles ++ [1]) - 1)).
Proof.
  intros Hpos. unfold strategic_tile_shatter.
  set (arr := [1] ++ tiles ++ [1]).
  assert (Forall (λ x, 0 ≤ x) arr) as Harr.
  { subst arr. apply Forall_app. split; [by repeat constructor|].
    apply Forall_app. split; [done|]. by repeat constructor. }
  assert (2 ≤ length arr)%nat as Hn.
  { subst arr. rewrite !length_app. simpl. lia. }
  clearbody arr.
  destruct (shatter_loops_filled arr Harr (length arr) eq_refl Hn)
    as (dp' & Hrun & Ht & Hcells).
  rewrite Hrun. simpl. rewrite (dp_get_ok (length arr)) by (done || lia).
  rewrite Hcells by lia. rewrite decide_True by lia. done.
Qed.

(** C3: on a non-empty sequence of positive integers the solver returns the
    value [score 0 (n-1)] over the padded array of length [n = m + 2],
    where [score left right] is 0 when there is no interior point and
    otherwise the maximum over the interior split points [k] of
    [score left k + score k right + arr[left]*arr[k]*arr[right]]; in
    particular [[3;1;5;8]] gives 167 and [[5]] gives 5. *)
Theorem strategic_tile_shatter_refines_score :
  (∀ tiles : list Z,
     tiles ≠ [] → Forall (λ x, 0 < x) tiles →
     strategic_tile_shatter tiles
     = Ok (score ([1] ++ tiles ++ [1]) 0 (length tiles + 2 - 1)))
  ∧ (∀ arr l r, (r - l < 2)%nat → score arr l r = 0)
  ∧ (∀ arr l r, (2 ≤ r - l)%nat →
       score arr l r =
         max_list ((λ k, score arr l k + score arr k r
                         + nth l arr 0 * nth k arr 0 * nth r arr 0)
                     <$> range (l + 1) r))
  ∧ strategic_tile_shatter [3; 1; 5; 8] = Ok 167
  ∧ strategic_tile_shatter [5] = Ok 5.
Proof.
  split; [|split; [apply score_base|split; [apply score_unfold|split; reflexivity]]].
  intros tiles _ Hpos. rewrite strategic_tile_shatter_score.
  - do 3 f_equal. rewrite !length_app. simpl. lia.
  - eapply Forall_impl; [exact Hpos|]. simpl. lia.
Qed.

Lemma strategic_tile_shatter_refines_score_witness :
  strategic_tile_shatter [2; 4; 3] = Ok (score [1; 2; 4; 3; 1] 0 4).
Proof.
  apply (proj1 strategic_tile_shatter_refines_score [2; 4; 3]).
  - done.
  - repeat constructor.
Defined.

(** C7 as stated fails: on the empty sequence the solver does not fail. *)
Lemma empty_tiles_not_rejected :
  ¬ ∃ e, strategic_tile_shatter [] = Err e.
Proof. intros [e He]. vm_compute in He. discriminate. Qed.

(** C7, amended: on the empty sequence the solver returns 0, the score of
    the padded array [[1;1]], which has no interior point. *)
Theorem strategic_tile_shatter_empty :
  strategic_tile_shatter [] = Ok 0 ∧ score ([1] ++ [] ++ [1]) 0 1 = 0.
Proof. split; reflexivity. Qed.

(** ** [while] loops *)

Section WhileLoop.
Context {S R : Type}.
Variable body : S → step_result S R.

(** A measure that every continuing pass decreases bounds the number of
    passes. *)
Lemma while_loop_terminates (m : S → nat) :
  (∀ s s', body s = Continue s' → (m s' < m s)%nat) →
  ∀ fuel s, (m s < fuel)%nat → while_loop fuel body s ≠ OutOfFuel.
Proof.
  intros Hdec. induction fuel as [|fuel IH]; intros s Hm; [lia|].
  simpl. destruct (body s) as [s'| |] eqn:Hb; [|done..].
  apply IH. specialize (Hdec _ _ Hb). lia.
Qed.

Variable I : S → Prop.
Hypothesis I_step : ∀ s s', I s → body s = Continue s' → I s'.

Lemma while_loop_returns (Q : R → Prop) :
  (∀ s r, I s → body s = Return r → Q r) →
  ∀ fuel s r, I s → while_loop fuel body s = Done r → Q r.
Proof.
  intros Hret. induction fuel as [|fuel IH]; intros s r Hs; simpl; [done|].
  destruct (body s) as [s'|r'|] eqn:Hb; [|intros [= <-]; eauto|done].
  apply IH. eauto.
Qed.

Lemma while_loop_no_raise :
  (∀ s e, I s → body s ≠ Raise e) →
  ∀ fuel s e, I s → while_loop fuel body s ≠ Raised e.
Proof.
  intros Hno. induction fuel as [|fuel IH]; intros s e Hs; simpl; [done|].
  destruct (body s) as [s'|r'|e'] eqn:Hb; [|done|].
  - apply IH. eauto.
  - by destruct (Hno s e' Hs).
Qed.

(** Invariant, measure and absence of exceptions together: the loop
    returns, and what it returns satisfies [Q]. *)
Lemma while_loop_total (m : S → nat) (Q : R → Prop) :
  (∀ s s', body s = Continue s' → (m s' < m s)%nat) →
  (∀ s e, I s → body s ≠ Raise e) →
  (∀ s r, I s → body s = Return r → Q r) →
  ∀ fuel s, (m s < fuel)%nat → I s → ∃ r, while_loop fuel body s = Done r ∧ Q r.
Proof.
  intros Hdec Hno Hret fuel s Hm Hs.
  destruct (while_loop fuel body s) as [r|e|] eqn:Hrun.
  - exists r. split; [done|]. eapply while_loop_returns; eauto.
  - by destruct (while_loop_no_raise Hno fuel s e Hs).
  - by destruct (while_loop_terminates m Hdec fuel s Hm).
Qed.
End WhileLoop.

(** ** Python list and sort helpers *)

Lemma list_pop_snoc {A : Type} (r : list A) (x : A) : list_pop (r ++ [x]) = Some (r, x).
Proof. induction r as [|y r IH]; simpl; [done|]. by rewrite IH. Qed.

Lemma list_pop_spec {A : Type} (l r : list A) (x : A) :
  list_pop l = Some (r, x) ↔ l = r ++ [x].
Proof.
  split; [|intros ->; apply list_pop_snoc].
  destruct l as [|y l] using rev_ind; [done|].
  rewrite list_pop_snoc. by intros [= -> ->].
Qed.

Lemma list_pop_None {A : Type} (l : list A) : list_pop l = None ↔ l = [].
Proof.
  destruct l as [|x l]; simpl; [done|].
  by destruct (list_pop l) as [[? ?]|].
Qed.

Lemma insert_asc_perm x l : insert_asc x l ≡ₚ x :: l.
Proof.
  induction l as [|y l IH]; simpl; [done|].
  destruct (str_lt y.1 x.1); [|done]. rewrite IH. apply Permutation_swap.
Qed.

Lemma insert_desc_perm x l : insert_desc x l ≡ₚ x :: l.
Proof.
  induction l as [|y l IH]; simpl; [done|].
  destruct (str_lt x.1 y.1); [|done]. rewrite IH. apply Permutation_swap.
Qed.

Lemma sorted_by_name_perm l : sorted_by_name l ≡ₚ l.
Proof.
  induction l as [|x l IH]; simpl; [done|]. by rewrite insert_asc_perm, IH.
Qed.

Lemma sorted_by_name_reverse_perm l : sorted_by_name_reverse l ≡ₚ l.
Proof.
  induction l as [|x l IH]; simpl; [done|]. by rewrite insert_desc_perm, IH.
Qed.

(** The neighbour loop of [bfs] and [dfs] appends the extended path of
    every neighbour that is not closed, in order. *)
Lemma foldl_push_neighbor closed path open nbs :
  foldl (push_neighbor closed path) open nbs
  = open ++ ((λ nb : string * Z, (nb.1, path ++ [nb.1]))
               <$> filter (λ nb : string * Z, nb.1 ∉ closed) nbs).
Proof.
  revert open. induction nbs as [|nb nbs IH]; intros open; simpl.
  - by rewrite app_nil_r.
  - rewrite IH. unfold push_neighbor. rewrite filter_cons.
    destruct (decide (nb.1 ∈ closed)).
    + by rewrite decide_False by tauto.
    + rewrite decide_True by done. by rewrite <- app_assoc.
Qed.

(** ** Paths *)

Section PathFacts.
Variable graph : gmap string (list (string * Z)).
Implicit Types (p q : list string) (u v : string) (c w : Z).

Lemma has_cost_nonempty p c : has_cost graph p c → p ≠ [].
Proof. by destruct p. Qed.

Lemma has_cost_snoc p v c :
  p ≠ [] →
  has_cost graph (p ++ [v]) c ↔
  ∃ u w, last p = Some u ∧ edge graph u v w ∧ has_cost graph p (c - w).
Proof.
  intros Hp. revert c. induction p as [|u0 p IH]; intros c; [done|].
  destruct p as [|u1 p].
  - simpl. split.
    + intros (w & He & Hc). exists u0, w. repeat split; [done|lia].
    + intros (u & w & [= <-] & He & Hc). exists w. split; [done|lia].
  - change (has_cost graph ((u0 :: u1 :: p) ++ [v]) c)
      with (∃ w0, edge graph u0 u1 w0 ∧ has_cost graph ((u1 :: p) ++ [v]) (c - w0)).
    setoid_rewrite (IH ltac:(done)). split.
    + intros (w0 & He0 & u & w & Hl & He & Hc). exists u, w.
      split; [done|]. split; [done|]. exists w0. split; [done|].
      by replace (c - w - w0) with (c - w0 - w) by lia.
    + intros (u & w & Hl & He & w0 & He0 & Hc). exists w0. split; [done|].
      exists u, w. split; [done|]. split; [done|].
      by replace (c - w0 - w) with (c - w - w0) by lia.
Qed.

Lemma has_cost_chain p c : has_cost graph p c → is_chain graph p.
Proof.
  revert c. induction p as [|u p IH]; intros c; [done|].
  destruct p as [|v p]; [done|].
  intros (w & He & Hc). split; [by exists w | by eapply IH].
Qed.

Lemma chain_has_cost p : p ≠ [] → is_chain graph p → ∃ c, has_cost graph p c.
Proof.
  induction p as [|u p IH]; [done|]. intros _.
  destruct p as [|v p]; [by exists 0|].
  intros [[w He] Hc]. destruct IH as [c Hcost]; [done|done|].
  exists (c + w). exists w. split; [done|]. by replace (c + w - w) with c by lia.
Qed.

Lemma weighted_path_is_path start goal p c :
  weighted_path graph start goal p c → is_path graph start goal p.
Proof. intros (Hh & Hl & Hc). repeat split; [done..|by eapply has_cost_chain]. Qed.

Lemma is_path_weighted start goal p :
  is_path graph start goal p → ∃ c, weighted_path graph start goal p c.
Proof.
  intros (Hh & Hl & Hc). destruct (chain_has_cost p) as [c Hcost]; [by destruct p|done|].
  by exists c.
Qed.

Lemma walk_weighted_path start p v c :
  walk graph start p v c → weighted_path graph start v p c.
Proof.
  induction 1 as [|p u v w c Hw (Hh & Hl & Hc) He]; [done|].
  assert (p ≠ []) as Hp by (by destruct p).
  split; [by destruct p|]. split; [by rewrite last_snoc|].
  apply has_cost_snoc; [done|]. exists u, w. split; [done|]. split; [done|].
  by replace (c + w - w) with c by lia.
Qed.

Lemma weighted_path_walk start goal p c :
  weighted_path graph start goal p c → walk graph start p goal c.
Proof.
  revert goal c. induction p as [|x p IH] using rev_ind; intros goal c (Hh & Hl & Hc).
  { done. }
  rewrite last_snoc in Hl. injection Hl as ->.
  destruct (decide (p = [])) as [->|Hp].
  - simpl in *. injection Hh as ->. subst c. constructor.
  - apply has_cost_snoc in Hc as (u & w & Hlu & He & Hc); [|done].
    replace c with (c - w + w) by lia. econstructor; [|done].
    apply IH. split; [by destruct p|done].
Qed.

Lemma walk_iff_weighted_path start goal p c :
  walk graph start p goal c ↔ weighted_path graph start goal p c.
Proof. split; [apply walk_weighted_path | apply weighted_path_walk]. Qed.

Lemma edge_closed u v w : graph_closed graph → edge graph u v w → is_Some (graph !! v).
Proof.
  intros Hcl (adj & Hu & Hin). specialize (Hcl u adj Hu). simpl in Hcl.
  rewrite Forall_forall in Hcl. by apply (Hcl (v, w)).
Qed.

Lemma walk_node start p v c :
  graph_closed graph → walk graph start p v c → v = start ∨ is_Some (graph !! v).
Proof. intros Hcl. destruct 1; [by left|right]. by eapply edge_closed. Qed.

Lemma undirected_closed : undirected graph → graph_closed graph.
Proof.
  intros Hsym u adj Hu. simpl. apply Forall_forall. intros [v w] Hin.
  destruct (Hsym u v w) as (adj' & Hv & _); [by exists adj|]. by exists adj'.
Qed.

(** ** The bound on the number of iterations *)

Lemma node_weight_mono closed u kv :
  (node_weight ({[u]} ∪ closed) kv ≤ node_weight closed kv)%nat.
Proof. unfold node_weight. repeat case_decide; lia || set_solver. Qed.

Lemma sum_weight_mono (l : list (string * list (string * Z))) u closed :
  (sum_list (node_weight ({[u]} ∪ closed) <$> l)
   ≤ sum_list (node_weight closed <$> l))%nat.
Proof.
  induction l as [|kv l IH]; [done|]. rewrite !fmap_cons. simpl.
  pose proof (node_weight_mono closed u kv). lia.
Qed.

Lemma sum_weight_close (l : list (string * list (string * Z))) u adj closed :
  (u, adj) ∈ l → u ∉ closed →
  (sum_list (node_weight ({[u]} ∪ closed) <$> l) + Datatypes.S (length adj)
   ≤ sum_list (node_weight closed <$> l))%nat.
Proof.
  intros Hin Hu. induction l as [|kv l IH]; [by apply elem_of_nil in Hin|].
  rewrite !fmap_cons. simpl.
  apply elem_of_cons in Hin as [<-|Hin].
  - pose proof (sum_weight_mono l u closed).
    assert (node_weight ({[u]} ∪ closed) (u, adj) = O) as ->.
    { unfold node_weight. simpl. rewrite decide_True; [done|set_solver]. }
    assert (node_weight closed (u, adj) = Datatypes.S (length adj)) as ->.
    { unfold node_weight. simpl. by rewrite decide_False. }
    lia.
  - specialize (IH Hin). pose proof (node_weight_mono closed u kv). lia.
Qed.

Lemma graph_weight_close u adj closed :
  graph !! u = Some adj → u ∉ closed →
  (graph_weight graph ({[u]} ∪ closed) + Datatypes.S (length adj)
   ≤ graph_weight graph closed)%nat.
Proof.
  intros Hu Hcl. apply sum_weight_close; [|done]. by apply elem_of_map_to_list.
Qed.

Lemma length_foldl_push closed path open nbs :
  (length (foldl (push_neighbor closed path) open nbs) ≤ length open + length nbs)%nat.
Proof.
  rewrite foldl_push_neighbor, length_app, length_fmap.
  pose proof (length_filter (λ nb : string * Z, nb.1 ∉ closed) nbs). lia.
Qed.
End PathFacts.

(** ** The invariant shared by [bfs] and [dfs] *)

Section SearchInv.
Variable graph : gmap string (list (string * Z)).
Variables start goal : string.

Lemma search_inv_init :
  search_inv graph start goal (SearchState [(start, [start])] ∅ []).
Proof.
  split; [|split; [|split; [|split]]]; simpl.
  - intros u p [= -> ->]%list_elem_of_singleton. exists 0. constructor.
  - constructor.
  - intros u. set_solver.
  - intros s Hs. by apply elem_of_nil in Hs.
  - right. by apply list_elem_of_singleton.
Qed.

(** A popped item whose node is closed already is dropped. *)
Lemma search_inv_skip open closed steps u p rest :
  search_inv graph start goal (SearchState open closed steps) →
  open ≡ₚ (u, p) :: rest → u ∈ closed →
  search_inv graph start goal (SearchState rest closed steps).
Proof.
  intros (Hopen & Hnd & Hcl & Hsteps & Hstart) Hperm Hu. simpl in *.
  assert (∀ e, e ∈ open ↔ e = (u, p) ∨ e ∈ rest) as Hmem.
  { intros e. rewrite Hperm. apply elem_of_cons. }
  split; [|split; [|split; [|split]]]; simpl; [|done|done| |].
  - intros v q Hin. apply Hopen, Hmem. by right.
  - intros s Hs. destruct (Hsteps s Hs) as (Hg & Hw & Hnb).
    split; [done|]. split; [done|]. intros v Hv.
    destruct (Hnb v Hv) as [?|[[= -> _]|?]%Hmem]; auto.
  - destruct Hstart as [?|[[= -> _]|?]%Hmem]; auto.
Qed.

(** A popped item whose node is not closed is expanded. *)
Lemma search_inv_expand open closed steps u p rest adj nbs snapshot :
  search_inv graph start goal (SearchState open closed steps) →
  open ≡ₚ (u, p) :: rest → u ∉ closed → u ≠ goal →
  graph !! u = Some adj → nbs ≡ₚ adj →
  search_inv graph start goal
    (SearchState (foldl (push_neighbor ({[u]} ∪ closed) p) rest nbs)
                 ({[u]} ∪ closed)
                 (steps ++ [Step u p snapshot ({[u]} ∪ closed)])).
Proof.
  intros (Hopen & Hnd & Hcl & Hsteps & Hstart) Hperm Hu Hgoal Hadj Hnbs.
  simpl in *.
  assert (∀ e, e ∈ open ↔ e = (u, p) ∨ e ∈ rest) as Hmem.
  { intros e. rewrite Hperm. apply elem_of_cons. }
  assert (∀ e, e ∈ foldl (push_neighbor ({[u]} ∪ closed) p) rest nbs ↔
               e ∈ rest ∨ ∃ v w, (v, w) ∈ adj ∧ (v ∉ {[u]} ∪ closed) ∧ e = (v, p ++ [v]))
    as Hnew.
  { intros e. rewrite foldl_push_neighbor, elem_of_app, list_elem_of_fmap.
    apply or_iff_compat_l. split.
    - intros ([v w] & -> & [Hv Hin]%list_elem_of_filter). simpl in *.
      exists v, w. by rewrite <- Hnbs.
    - intros (v & w & Hin & Hv & ->). exists (v, w). split; [done|].
      apply list_elem_of_filter. by rewrite Hnbs. }
  destruct (Hopen u p) as [cu Hwu]; [apply Hmem; by left|].
  split; [|split; [|split; [|split]]]; simpl.
  - intros v q [Hin|(v' & w & Hin & Hv & [= -> ->])]%Hnew.
    + apply Hopen, Hmem. by right.
    + exists (cu + w). econstructor; [done|]. by exists adj.
  - rewrite fmap_app. simpl. apply NoDup_app. split; [done|]. split.
    + intros x Hx [= ->]%list_elem_of_singleton. by apply Hu, Hcl.
    + apply NoDup_singleton.
  - intros v. rewrite fmap_app, elem_of_app, elem_of_union, elem_of_singleton. simpl.
    rewrite list_elem_of_singleton, Hcl. tauto.
  - intros s [Hs|[= ->]%list_elem_of_singleton]%elem_of_app.
    + destruct (Hsteps s Hs) as (Hg & Hw & Hnb).
      split; [done|]. split; [done|]. intros v Hv.
      destruct (Hnb v Hv) as [?|[[= -> _]|?]%Hmem].
      * left. apply elem_of_union. by right.
      * left. apply elem_of_union. left. by apply elem_of_singleton.
      * right. apply Hnew. by left.
    + simpl. split; [done|]. split; [by exists cu|].
      intros v (w & adj' & Hadj' & Hin). assert (adj' = adj) as -> by congruence.
      destruct (decide (v ∈ {[u]} ∪ closed)); [by left|right].
      apply Hnew. right. by exists v, w.
  - destruct Hstart as [?|[[= -> _]|?]%Hmem].
    + left. apply elem_of_union. by right.
    + left. apply elem_of_union. left. by apply elem_of_singleton.
    + right. apply Hnew. by left.
Qed.

(** Once the open list is empty, everything reachable is closed. *)
Lemma search_inv_reach st q v c :
  search_inv graph start goal st → st_open st = [] →
  walk graph start q v c → v ∈ st_closed st.
Proof.
  intros (Hopen & Hnd & Hcl & Hsteps & Hstart) Hempty. rewrite Hempty in *.
  induction 1 as [|q u v w c Hw IH He].
  - destruct Hstart as [?|Hin]; [done|]. by apply elem_of_nil in Hin.
  - apply Hcl, list_elem_of_fmap in IH as (s & -> & Hs).
    destruct (Hsteps s Hs) as (_ & _ & Hnb).
    destruct (Hnb v) as [?|Hin]; [by exists w|done|]. by apply elem_of_nil in Hin.
Qed.

Lemma search_inv_goal_open st :
  search_inv graph start goal st → goal ∉ st_closed st.
Proof.
  intros (_ & _ & Hcl & Hsteps & _) Hin.
  apply Hcl, list_elem_of_fmap in Hin as (s & Hg & Hs).
  destruct (Hsteps s Hs) as (Hne & _). done.
Qed.

Lemma search_post_found st u p snapshot :
  search_inv graph start goal st → (u, p) ∈ st_open st → u ∉ st_closed st →
  u = goal →
  search_post graph start goal
    (Some p, st_steps st ++ [Step u p snapshot ({[u]} ∪ st_closed st)]).
Proof.
  intros (Hopen & Hnd & Hcl & _) Hin Hu <-. split; simpl.
  - rewrite fmap_app. simpl. apply NoDup_app. split; [done|]. split.
    + intros x Hx [= ->]%list_elem_of_singleton. by apply Hu, Hcl.
    + apply NoDup_singleton.
  - eauto.
Qed.

Lemma search_post_exhausted st :
  search_inv graph start goal st → st_open st = [] →
  search_post graph start goal (None, st_steps st).
Proof.
  intros Hinv Hempty. split; simpl; [apply Hinv|].
  intros q c Hw. eapply search_inv_goal_open; [done|].
  by eapply search_inv_reach.
Qed.
End SearchInv.

(** ** [bfs] and [dfs]: one pass of the loop *)

Section SearchBody.
Variable graph : gmap string (list (string * Z)).
Variables start goal : string.

Lemma bfs_body_inv st st' :
  search_inv graph start goal st → bfs_body graph goal st = Continue st' →
  search_inv graph start goal st'.
Proof.
  destruct st as [open closed steps]. unfold bfs_body. simpl.
  destruct open as [|[u p] rest]; [done|]. intros Hinv.
  destruct (decide (u ∈ closed)).
  { intros [= <-]. by eapply search_inv_skip. }
  destruct (decide (u = goal)); [done|].
  destruct (graph !! u) as [adj|] eqn:Hadj; [|done].
  intros [= <-]. eapply search_inv_expand; eauto using sorted_by_name_perm.
Qed.

Lemma dfs_body_inv st st' :
  search_inv graph start goal st → dfs_body graph goal st = Continue st' →
  search_inv graph start goal st'.
Proof.
  destruct st as [open closed steps]. unfold dfs_body. simpl.
  destruct (list_pop open) as [[rest [u p]]|] eqn:Hpop; [|done].
  apply list_pop_spec in Hpop as ->. intros Hinv.
  assert (rest ++ [(u, p)] ≡ₚ (u, p) :: rest) as Hperm.
  { by rewrite Permutation_app_comm. }
  destruct (decide (u ∈ closed)).
  { intros [= <-]. by eapply search_inv_skip. }
  destruct (decide (u = goal)); [done|].
  destruct (graph !! u) as [adj|] eqn:Hadj; [|done].
  intros [= <-]. eapply search_inv_expand; eauto using sorted_by_name_reverse_perm.
Qed.

Lemma bfs_body_post st res :
  search_inv graph start goal st → bfs_body graph goal st = Return res →
  search_post graph start goal res.
Proof.
  destruct st as [open closed steps]. unfold bfs_body. simpl.
  destruct open as [|[u p] rest].
  { intros Hinv [= <-]. by apply (search_post_exhausted _ _ _ _ Hinv). }
  intros Hinv. destruct (decide (u ∈ closed)); [done|].
  destruct (decide (u = goal)).
  - intros [= <-].
    apply (search_post_found _ _ _ _ u p (rest.*1) Hinv); [by left|done..].
  - by destruct (graph !! u).
Qed.

Lemma dfs_body_post st res :
  search_inv graph start goal st → dfs_body graph goal st = Return res →
  search_post graph start goal res.
Proof.
  destruct st as [open closed steps]. unfold dfs_body. simpl.
  destruct (list_pop open) as [[rest [u p]]|] eqn:Hpop.
  - apply list_pop_spec in Hpop as ->. intros Hinv.
    destruct (decide (u ∈ closed)); [done|].
    destruct (decide (u = goal)).
    + intros [= <-].
      apply (search_post_found _ _ _ _ u p (rest.*1) Hinv); [|done..].
      simpl. apply elem_of_app. right. by left.
    + by destruct (graph !! u).
  - apply list_pop_None in Hpop as ->.
    intros Hinv [= <-]. by apply (search_post_exhausted _ _ _ _ Hinv).
Qed.

Lemma bfs_body_measure st st' :
  bfs_body graph goal st = Continue st' →
  (search_measure graph st' < search_measure graph st)%nat.
Proof.
  destruct st as [open closed steps]. unfold bfs_body, search_measure. simpl.
  destruct open as [|[u p] rest]; [done|].
  destruct (decide (u ∈ closed)).
  { intros [= <-]. simpl. lia. }
  destruct (decide (u = goal)); [done|].
  destruct (graph !! u) as [adj|] eqn:Hadj; [|done].
  intros [= <-]. simpl.
  pose proof (length_foldl_push ({[u]} ∪ closed) p rest (sorted_by_name adj)).
  pose proof (Permutation_length (sorted_by_name_perm adj)).
  pose proof (graph_weight_close graph u adj closed Hadj ltac:(done)). lia.
Qed.

Lemma dfs_body_measure st st' :
  dfs_body graph goal st = Continue st' →
  (search_measure graph st' < search_measure graph st)%nat.
Proof.
  destruct st as [open closed steps]. unfold dfs_body, search_measure. simpl.
  destruct (list_pop open) as [[rest [u p]]|] eqn:Hpop; [|done].
  apply list_pop_spec in Hpop as ->. rewrite length_app. simpl.
  destruct (decide (u ∈ closed)).
  { intros [= <-]. simpl. lia. }
  destruct (decide (u = goal)); [done|].
  destruct (graph !! u) as [adj|] eqn:Hadj; [|done].
  intros [= <-]. simpl.
  pose proof (length_foldl_push ({[u]} ∪ closed) p rest (sorted_by_name_reverse adj)).
  pose proof (Permutation_length (sorted_by_name_reverse_perm adj)).
  pose proof (graph_weight_close graph u adj closed Hadj ltac:(done)). lia.
Qed.

Lemma search_measure_init :
  (search_measure graph (SearchState [(start, [start])] ∅ []) < search_fuel graph)%nat.
Proof. unfold search_measure, search_fuel. simpl. lia. Qed.

(** Under [graph_closed] no lookup [graph[current]] fails, provided the
    start itself is a key whenever it has to be expanded. *)
Lemma bfs_body_no_raise st e :
  graph_closed graph → start = goal ∨ is_Some (graph !! start) →
  search_inv graph start goal st → bfs_body graph goal st ≠ Raise e.
Proof.
  intros Hcl Hstart Hinv. destruct st as [open closed steps]. unfold bfs_body. simpl.
  destruct open as [|[u p] rest]; [done|].
  destruct (decide (u ∈ closed)); [done|].
  destruct (decide (u = goal)); [done|].
  destruct (graph !! u) as [adj|] eqn:Hadj; [done|].
  destruct Hinv as (Hopen & _). destruct (Hopen u p) as [c Hw]; [by left|].
  apply (walk_node _ _ _ _ _ Hcl) in Hw as [->|[? ?]]; [|congruence].
  destruct Hstart as [?|[? ?]]; congruence.
Qed.

Lemma dfs_body_no_raise st e :
  graph_closed graph → start = goal ∨ is_Some (graph !! start) →
  search_inv graph start goal st → dfs_body graph goal st ≠ Raise e.
Proof.
  intros Hcl Hstart Hinv. destruct st as [open closed steps]. unfold dfs_body. simpl.
  destruct (list_pop open) as [[rest [u p]]|] eqn:Hpop; [|done].
  apply list_pop_spec in Hpop as ->.
  destruct (decide (u ∈ closed)); [done|].
  destruct (decide (u = goal)); [done|].
  destruct (graph !! u) as [adj|] eqn:Hadj; [done|].
  destruct Hinv as (Hopen & _). destruct (Hopen u p) as [c Hw].
  { simpl. apply elem_of_app. right. by left. }
  apply (walk_node _ _ _ _ _ Hcl) in Hw as [->|[? ?]]; [|congruence].
  destruct Hstart as [?|[? ?]]; congruence.
Qed.

Lemma bfs_post res : bfs graph start goal = Done res → search_post graph start goal res.
Proof.
  apply (while_loop_returns (bfs_body graph goal) (search_inv graph start goal)).
  - intros s s'. apply bfs_body_inv.
  - intros s r. apply bfs_body_post.
  - apply search_inv_init.
Qed.

Lemma dfs_post res : dfs graph start goal = Done res → search_post graph start goal res.
Proof.
  apply (while_loop_returns (dfs_body graph goal) (search_inv graph start goal)).
  - intros s s'. apply dfs_body_inv.
  - intros s r. apply dfs_body_post.
  - apply search_inv_init.
Qed.

Lemma bfs_terminates : bfs graph start goal ≠ OutOfFuel.
Proof.
  apply (while_loop_terminates _ (search_measure graph)).
  - apply bfs_body_measure.
  - apply search_measure_init.
Qed.

Lemma dfs_terminates : dfs graph start goal ≠ OutOfFuel.
Proof.
  apply (while_loop_terminates _ (search_measure graph)).
  - apply dfs_body_measure.
  - apply search_measure_init.
Qed.

Lemma bfs_total :
  graph_closed graph → start = goal ∨ is_Some (graph !! start) →
  ∃ res, bfs graph start goal = Done res ∧ search_post graph start goal res.
Proof.
  intros Hcl Hstart.
  apply (while_loop_total (bfs_body graph goal) (search_inv graph start goal)
           ltac:(intros s s'; apply bfs_body_inv) (search_measure graph)).
  - apply bfs_body_measure.
  - intros s e. by apply bfs_body_no_raise.
  - intros s r. apply bfs_body_post.
  - apply search_measure_init.
  - apply search_inv_init.
Qed.

Lemma dfs_total :
  graph_closed graph → start = goal ∨ is_Some (graph !! start) →
  ∃ res, dfs graph start goal = Done res ∧ search_post graph start goal res.
Proof.
  intros Hcl Hstart.
  apply (while_loop_total (dfs_body graph goal) (search_inv graph start goal)
           ltac:(intros s s'; apply dfs_body_inv) (search_measure graph)).
  - apply dfs_body_measure.
  - intros s e. by apply dfs_body_no_raise.
  - intros s r. apply dfs_body_post.
  - apply search_measure_init.
  - apply search_inv_init.
Qed.

(** A path out of a node that is not the goal starts with an edge. *)
Lemma is_path_start_key p :
  is_path graph start goal p → start = goal ∨ is_Some (graph !! start).
Proof.
  intros (Hh & Hl & Hc). destruct p as [|u [|v p]]; [done| |].
  - left. simpl in *. congruence.
  - right. simpl in Hh. injection Hh as ->.
    destruct Hc as [(w & adj & Hadj & _) _]. by exists adj.
Qed.
End SearchBody.

(** ** The heap of [astar] *)

Lemma entry_lt_f a b : entry_lt a b = true → e_f a ≤ e_f b.
Proof.
  unfold entry_lt, entry_compare, lex.
  destruct (Z.compare_spec (e_f a) (e_f b)); [intros _; lia..|done].
Qed.

Lemma entry_not_lt_f a b : entry_lt a b = false → e_f b ≤ e_f a.
Proof.
  unfold entry_lt, entry_compare, lex.
  destruct (Z.compare_spec (e_f a) (e_f b)); [intros _; lia|done|intros _; lia].
Qed.

Lemma heap_min_in m l : heap_min m l ∈ m :: l.
Proof.
  revert m. induction l as [|x l IH]; intros m; simpl; [by left|].
  specialize (IH (if entry_lt x m then x else m)).
  apply elem_of_cons in IH as [->|IH].
  - destruct (entry_lt x m); [right; by left | by left].
  - by do 2 right.
Qed.

Lemma heap_min_least m l x : x ∈ m :: l → e_f (heap_min m l) ≤ e_f x.
Proof.
  revert m x. induction l as [|y l IH]; intros m x; simpl.
  - intros ->%list_elem_of_singleton. lia.
  - intros Hx.
    assert (e_f (heap_min (if entry_lt y m then y else m) l)
            ≤ e_f (if entry_lt y m then y else m)) as Hm by (apply IH; by left).
    apply elem_of_cons in Hx as [->|[->|Hx]%elem_of_cons].
    + destruct (entry_lt y m) eqn:Hlt; [|done]. apply entry_lt_f in Hlt. lia.
    + destruct (entry_lt y m) eqn:Hlt; [done|]. apply entry_not_lt_f in Hlt. lia.
    + apply IH. by right.
Qed.

Lemma remove_first_perm m l : m ∈ l → l ≡ₚ m :: remove_first m l.
Proof.
  induction l as [|x l IH]; [by intros ?%elem_of_nil|]. simpl.
  destruct (decide (x = m)) as [->|Hne]; [done|].
  intros [?|Hin]%elem_of_cons; [congruence|].
  rewrite (IH Hin) at 1. apply Permutation_swap.
Qed.

Lemma heappop_spec h m h' :
  heappop h = Some (m, h') →
  h ≡ₚ m :: h' ∧ ∀ x, x ∈ h → e_f m ≤ e_f x.
Proof.
  destruct h as [|x l]; [done|]. unfold heappop. intros [= <- <-]. split.
  - apply remove_first_perm, heap_min_in.
  - apply heap_min_least.
Qed.

Lemma heappop_None h : heappop h = None → h = [].
Proof. by destruct h. Qed.

(** ** The neighbour loop of [astar] *)

Section Relax.
Variable heuristic : gmap string Z.
Variable closed : gset string.
Variable g : Z.
Variable path : list string.

Lemma relaxed_nil s : relaxed heuristic closed g path [] s s.
Proof.
  exists []. rewrite app_nil_r. repeat split; try done.
  - intros e He. by apply elem_of_nil in He.
  - intros x gx Hx. exists gx. split; [done|lia].
  - by left.
  - intros v w Hin. by apply elem_of_nil in Hin.
Qed.

Lemma relaxed_one s nb s' :
  relax heuristic closed g path s nb = Ok s' →
  relaxed heuristic closed g path [nb] s s'.
Proof.
  destruct s as [gc open], nb as [v w]. unfold relax.
  destruct (decide (v ∈ closed)) as [Hv|Hv].
  { intros [= <-]. exists []. rewrite app_nil_r. simpl. repeat split; try done.
    - lia.
    - intros e He. by apply elem_of_nil in He.
    - intros x gx Hx. exists gx. split; [done|lia].
    - by left.
    - intros v' w' [= -> ->]%list_elem_of_singleton. done. }
  destruct (gc !! v) as [old|] eqn:Hold.
  - case_bool_decide as Hlt.
    + unfold dict_get. destruct (heuristic !! v) as [h|] eqn:Hh; [|done].
      simpl. intros [= <-]. exists [(g + w + h, g + w, v, path ++ [v])].
      simpl. repeat split; try done.
      * intros e ->%list_elem_of_singleton. exists v, w, h.
        repeat split; [by left|done..|].
        exists (g + w). by rewrite lookup_insert_eq.
      * intros x gx Hx. destruct (decide (x = v)) as [->|Hne].
        -- rewrite lookup_insert_eq. exists (g + w). split; [done|].
           assert (gx = old) as -> by congruence. lia.
        -- rewrite lookup_insert_ne by done. exists gx. split; [done|lia].
      * intros x gx. destruct (decide (x = v)) as [->|Hne].
        -- rewrite lookup_insert_eq. intros [= <-]. right.
           eexists. split; [by left|done].
        -- rewrite lookup_insert_ne by done. by left.
      * intros v' w' [= -> ->]%list_elem_of_singleton _.
        exists (g + w). rewrite lookup_insert_eq. split; [done|lia].
    + intros [= <-]. exists []. rewrite app_nil_r. simpl. repeat split; try done.
      * lia.
      * intros e He. by apply elem_of_nil in He.
      * intros x gx Hx. exists gx. split; [done|lia].
      * by left.
      * intros v' w' [= -> ->]%list_elem_of_singleton _. exists old. split; [done|lia].
  - unfold dict_get. destruct (heuristic !! v) as [h|] eqn:Hh; [|done].
    simpl. intros [= <-]. exists [(g + w + h, g + w, v, path ++ [v])].
    simpl. repeat split; try done.
    + intros e ->%list_elem_of_singleton. exists v, w, h.
      repeat split; [by left|done..|].
      exists (g + w). by rewrite lookup_insert_eq.
    + intros x gx Hx. destruct (decide (x = v)) as [->|Hne]; [congruence|].
      rewrite lookup_insert_ne by done. exists gx. split; [done|lia].
    + intros x gx. destruct (decide (x = v)) as [->|Hne].
      * rewrite lookup_insert_eq. intros [= <-]. right.
        eexists. split; [by left|done].
      * rewrite lookup_insert_ne by done. by left.
    + intros v' w' [= -> ->]%list_elem_of_singleton _.
      exists (g + w). rewrite lookup_insert_eq. split; [done|lia].
Qed.

Lemma relaxed_app adj1 adj2 s1 s2 s3 :
  relaxed heuristic closed g path adj1 s1 s2 →
  relaxed heuristic closed g path adj2 s2 s3 →
  relaxed heuristic closed g path (adj1 ++ adj2) s1 s3.
Proof.
  intros (new1 & Ho1 & Hl1 & Hn1 & Hm1 & Hb1 & Hr1)
         (new2 & Ho2 & Hl2 & Hn2 & Hm2 & Hb2 & Hr2).
  exists (new1 ++ new2). split; [by rewrite Ho2, Ho1, app_assoc|].
  split; [rewrite !length_app; lia|]. split; [|split; [|split]].
  - intros e [He|He]%elem_of_app.
    + destruct (Hn1 e He) as (v & w & h & Hin & Hv & Hh & -> & g' & Hg' & Hle).
      exists v, w, h. repeat split; [apply elem_of_app; by left|done..|].
      destruct (Hm2 v g' Hg') as (g'' & Hg'' & Hle'). exists g''. split; [done|lia].
    + destruct (Hn2 e He) as (v & w & h & Hin & Hv & Hh & -> & Hg').
      exists v, w, h. repeat split; [apply elem_of_app; by right|done..].
  - intros x gx Hx. destruct (Hm1 x gx Hx) as (g1 & Hg1 & Hle1).
    destruct (Hm2 x g1 Hg1) as (g2 & Hg2 & Hle2). exists g2. split; [done|lia].
  - intros x gx Hx. destruct (Hb2 x gx Hx) as [Hx2|(e & He & Hnode & Hg)].
    + destruct (Hb1 x gx Hx2) as [?|(e & He & Hnode & Hg)]; [by left|right].
      exists e. split; [apply elem_of_app; by left|done].
    + right. exists e. split; [apply elem_of_app; by right|done].
  - intros v w [Hin|Hin]%elem_of_app Hv.
    + destruct (Hr1 v w Hin Hv) as (g1 & Hg1 & Hle1).
      destruct (Hm2 v g1 Hg1) as (g2 & Hg2 & Hle2). exists g2. split; [done|lia].
    + by apply Hr2.
Qed.

Lemma for_each_relax adj s s' :
  for_each adj (relax heuristic closed g path) s = Ok s' →
  relaxed heuristic closed g path adj s s'.
Proof.
  revert s. induction adj as [|nb adj IH]; intros s; simpl.
  - intros [= <-]. apply relaxed_nil.
  - destruct (relax heuristic closed g path s nb) as [s1|] eqn:Hone; [|done].
    simpl. intros Hrest. apply (relaxed_app [nb] adj s s1 s').
    + by apply relaxed_one.
    + by apply IH.
Qed.

(** The loop raises only on a neighbour without heuristic entry. *)
Lemma for_each_relax_ok adj s :
  Forall (λ nb : string * Z, is_Some (heuristic !! nb.1)) adj →
  ∃ s', for_each adj (relax heuristic closed g path) s = Ok s'.
Proof.
  intros Hall. revert s. induction Hall as [|[v w] adj [h Hh] _ IH]; intros s; simpl.
  - by exists s.
  - assert (∃ s1, relax heuristic closed g path s (v, w) = Ok s1) as [s1 ->].
    { destruct s as [gc open]. unfold relax, dict_get. simpl in Hh. rewrite Hh. simpl.
      destruct (decide (v ∈ closed)); [by eexists|].
      destruct (gc !! v); [case_bool_decide|]; by eexists. }
    simpl. apply IH.
Qed.
End Relax.

(** ** [astar]: one pass of the loop *)

Section AStarBody.
Variable graph : gmap string (list (string * Z)).
Variable heuristic : gmap string Z.
Variables start goal : string.

(** The two ways a pass continues: a stale item is dropped, or a node
    is closed and its edges relaxed. *)
Lemma astar_body_continue st st' :
  astar_body graph heuristic goal st = Continue st' →
  ∃ f g u p rest,
    heappop (as_open st) = Some ((f, g, u, p), rest) ∧
    ((u ∈ as_closed st ∧
      st' = AStarState rest (as_closed st) (as_g_costs st) (as_steps st)) ∨
     ((u ∉ as_closed st) ∧ u ≠ goal ∧
      ∃ h adj gc' open',
        heuristic !! u = Some h ∧ graph !! u = Some adj ∧
        for_each adj (relax heuristic ({[u]} ∪ as_closed st) g p)
          (as_g_costs st, rest) = Ok (gc', open') ∧
        st' = AStarState open' ({[u]} ∪ as_closed st) gc'
                (as_steps st ++ [AStep u p f g h ({[u]} ∪ as_closed st)]))).
Proof.
  unfold astar_body.
  destruct (heappop (as_open st)) as [[[[[f g] u] p] rest]|]; [|done].
  intros Hb. exists f, g, u, p, rest. split; [done|].
  destruct (decide (u ∈ as_closed st)); [left; by injection Hb as <-|right].
  destruct (heuristic !! u) as [h|]; [|done].
  destruct (decide (u = goal)); [done|].
  destruct (graph !! u) as [adj|]; [|done].
  destruct (for_each adj _ _) as [[gc' open']|] eqn:Hrel; [|done].
  injection Hb as <-. split; [done|]. split; [done|]. by exists h, adj, gc', open'.
Qed.

Lemma astar_inv_init h0 :
  heuristic !! start = Some h0 →
  astar_inv graph heuristic start goal
    (AStarState [(h0, 0, start, [start])] ∅ {[start := 0]} []).
Proof.
  intros Hh. split; [|split; [|split; [|split; [|split]]]]; simpl.
  - intros e ->%list_elem_of_singleton. unfold e_path, e_node, e_g, e_f. simpl.
    split; [constructor|]. split; [by rewrite Hh, Z.sub_0_r|].
    exists 0. by rewrite lookup_singleton_eq.
  - constructor.
  - intros u. split; [by intros ?%not_elem_of_empty | by intros ?%elem_of_nil].
  - apply not_elem_of_empty.
  - intros u g _ [<- <-]%lookup_singleton_Some.
    exists (h0, 0, start, [start]). split; [by left|done].
  - exists 0. by rewrite lookup_singleton_eq.
Qed.

Lemma astar_inv_skip open closed gc steps m rest :
  astar_inv graph heuristic start goal (AStarState open closed gc steps) →
  open ≡ₚ m :: rest → e_node m ∈ closed →
  astar_inv graph heuristic start goal (AStarState rest closed gc steps).
Proof.
  intros (Hopen & Hnd & Hcl & Hgoal & Hbest & Hstart) Hperm Hm. simpl in *.
  assert (∀ e, e ∈ open ↔ e = m ∨ e ∈ rest) as Hmem.
  { intros e. rewrite Hperm. apply elem_of_cons. }
  split; [|split; [|split; [|split; [|split]]]]; simpl; try done.
  - intros e He. apply Hopen, Hmem. by right.
  - intros u g Hu Hg. destruct (Hbest u g Hu Hg) as (e & [->|He]%Hmem & Hnode & Heg).
    + by subst u.
    + by exists e.
Qed.

Lemma astar_inv_expand open closed gc steps f g u p h rest adj gc' open' :
  astar_inv graph heuristic start goal (AStarState open closed gc steps) →
  open ≡ₚ (f, g, u, p) :: rest → u ∉ closed → u ≠ goal →
  graph !! u = Some adj →
  relaxed heuristic ({[u]} ∪ closed) g p adj (gc, rest) (gc', open') →
  astar_inv graph heuristic start goal
    (AStarState open' ({[u]} ∪ closed) gc'
       (steps ++ [AStep u p f g h ({[u]} ∪ closed)])).
Proof.
  intros (Hopen & Hnd & Hcl & Hgoal & Hbest & Hstart) Hperm Hu Hne Hadj
         (new & Ho & _ & Hnew & Hmono & Hback & _).
  simpl in *. subst open'.
  assert (∀ e, e ∈ open ↔ e = (f, g, u, p) ∨ e ∈ rest) as Hmem.
  { intros e. rewrite Hperm. apply elem_of_cons. }
  destruct (Hopen (f, g, u, p)) as (Hwu & _); [apply Hmem; by left|].
  unfold e_path, e_node, e_g in Hwu. simpl in Hwu.
  split; [|split; [|split; [|split; [|split]]]]; simpl.
  - intros e [He|He]%elem_of_app.
    + destruct (Hopen e) as (Hw & Hh & g0 & Hg0 & Hle); [apply Hmem; by right|].
      split; [done|]. split; [done|].
      destruct (Hmono _ _ Hg0) as (g1 & Hg1 & Hle1). exists g1. split; [done|lia].
    + destruct (Hnew e He) as (v & w & hv & Hin & Hv & Hh & -> & Hg').
      unfold e_path, e_node, e_g, e_f. simpl.
      split; [econstructor; [done|by exists adj]|]. split; [|done].
      rewrite Hh. f_equal. lia.
  - rewrite fmap_app. simpl. apply NoDup_app. split; [done|]. split.
    + intros x Hx [= ->]%list_elem_of_singleton. by apply Hu, Hcl.
    + apply NoDup_singleton.
  - intros v. rewrite fmap_app, elem_of_app, elem_of_union, elem_of_singleton. simpl.
    rewrite list_elem_of_singleton, Hcl. tauto.
  - intros [?%elem_of_singleton|?]%elem_of_union; congruence.
  - intros x gx Hx Hgx.
    assert (x ≠ u) as Hxu.
    { intros ->. apply Hx, elem_of_union. left. by apply elem_of_singleton. }
    assert (x ∉ closed) as Hxc.
    { intros ?. apply Hx, elem_of_union. by right. }
    destruct (Hback x gx Hgx) as [Hold|(e & He & Hnode & Heg)].
    * destruct (Hbest x gx Hxc Hold) as (e & [->|He]%Hmem & Hnode & Heg).
      -- by destruct Hxu.
      -- exists e. split; [apply elem_of_app; by left|done].
    * exists e. split; [apply elem_of_app; by right|done].
  - destruct Hstart as (g0 & Hg0 & Hle). destruct (Hmono _ _ Hg0) as (g1 & Hg1 & Hle1).
    exists g1. split; [done|lia].
Qed.

Lemma astar_body_inv st st' :
  astar_inv graph heuristic start goal st →
  astar_body graph heuristic goal st = Continue st' →
  astar_inv graph heuristic start goal st'.
Proof.
  intros Hinv (f & g & u & p & rest & Hpop & Hcase)%astar_body_continue.
  apply heappop_spec in Hpop as [Hperm _]. destruct st as [open closed gc steps].
  simpl in *.
  destruct Hcase as [[Hu ->]|(Hu & Hne & h & adj & gc' & open' & Hh & Hadj & Hrel & ->)].
  - by eapply astar_inv_skip.
  - eapply astar_inv_expand; eauto. by apply for_each_relax.
Qed.

Lemma astar_body_post st res :
  astar_inv graph heuristic start goal st →
  astar_body graph heuristic goal st = Return res →
  astar_post graph start goal res.
Proof.
  intros (Hopen & Hnd & Hcl & _). unfold astar_body.
  destruct (heappop (as_open st)) as [[[[[f g] u] p] rest]|] eqn:Hpop.
  - apply heappop_spec in Hpop as [Hperm _].
    destruct (decide (u ∈ as_closed st)); [done|].
    destruct (heuristic !! u) as [h|]; [|done].
    destruct (decide (u = goal)) as [->|].
    + intros [= <-]. split; simpl.
      * rewrite fmap_app. simpl. apply NoDup_app. split; [done|]. split.
        -- intros x Hx [= ->]%list_elem_of_singleton. by apply n, Hcl.
        -- apply NoDup_singleton.
      * destruct (Hopen (f, g, goal, p)) as (Hw & _); [|done].
        rewrite Hperm. by left.
    + destruct (graph !! u); [|done]. by destruct (for_each _ _ _) as [[? ?]|].
  - by intros [= <-].
Qed.

Lemma astar_body_measure st st' :
  astar_body graph heuristic goal st = Continue st' →
  (astar_measure graph st' < astar_measure graph st)%nat.
Proof.
  intros (f & g & u & p & rest & Hpop & Hcase)%astar_body_continue.
  apply heappop_spec in Hpop as [Hperm _]. apply Permutation_length in Hperm.
  unfold astar_measure. simpl in Hperm.
  destruct Hcase as [[Hu ->]|(Hu & Hne & h & adj & gc' & open' & Hh & Hadj & Hrel & ->)];
    simpl.
  - lia.
  - apply for_each_relax in Hrel as (new & Ho & Hlen & _). simpl in Ho. subst open'.
    rewrite length_app.
    pose proof (graph_weight_close graph u adj (as_closed st) Hadj Hu). lia.
Qed.

Lemma astar_body_no_raise st e :
  graph_closed graph → heuristic_total graph heuristic →
  start = goal ∨ is_Some (graph !! start) →
  astar_inv graph heuristic start goal st →
  astar_body graph heuristic goal st ≠ Raise e.
Proof.
  intros Hgc Htot Hstart (Hopen & _). unfold astar_body.
  destruct (heappop (as_open st)) as [[[[[f g] u] p] rest]|] eqn:Hpop; [|done].
  apply heappop_spec in Hpop as [Hperm _].
  destruct (Hopen (f, g, u, p)) as (Hw & Hh & _); [rewrite Hperm; by left|].
  unfold e_path, e_node, e_g, e_f in Hw, Hh. simpl in Hw, Hh.
  destruct (decide (u ∈ as_closed st)); [done|]. rewrite Hh.
  destruct (decide (u = goal)); [done|].
  destruct (graph !! u) as [adj|] eqn:Hadj.
  - destruct (for_each_relax_ok heuristic ({[u]} ∪ as_closed st) g p adj
                (as_g_costs st, rest)) as [[gc' open'] ->]; [|done].
    specialize (Hgc u adj Hadj). simpl in Hgc.
    eapply Forall_impl; [exact Hgc|]. intros [v w] [adj' Hv]. simpl in *.
    by apply (Htot v adj').
  - apply (walk_node _ _ _ _ _ Hgc) in Hw as [->|[? ?]]; [|congruence].
    destruct Hstart as [?|[? ?]]; congruence.
Qed.

Lemma astar_measure_init h0 :
  (astar_measure graph (AStarState [(h0, 0%Z, start, [start])] ∅ {[start := 0%Z]} [])
   < search_fuel graph)%nat.
Proof. unfold astar_measure, search_fuel. simpl. lia. Qed.

Lemma astar_post_holds res :
  astar graph heuristic start goal = Done res → astar_post graph start goal res.
Proof.
  unfold astar. destruct (heuristic !! start) as [h0|] eqn:Hh; [|done].
  apply (while_loop_returns (astar_body graph heuristic goal)
           (astar_inv graph heuristic start goal)).
  - intros s s'. apply astar_body_inv.
  - intros s r. apply astar_body_post.
  - by apply astar_inv_init.
Qed.

Lemma astar_terminates : astar graph heuristic start goal ≠ OutOfFuel.
Proof.
  unfold astar. destruct (heuristic !! start) as [h0|]; [|done].
  apply (while_loop_terminates _ (astar_measure graph)).
  - apply astar_body_measure.
  - apply astar_measure_init.
Qed.

Lemma astar_total :
  graph_closed graph → heuristic_total graph heuristic →
  is_Some (heuristic !! start) → start = goal ∨ is_Some (graph !! start) →
  ∃ res, astar graph heuristic start goal = Done res ∧ astar_post graph start goal res.
Proof.
  intros Hgc Htot [h0 Hh] Hstart. unfold astar. rewrite Hh.
  apply (while_loop_total (astar_body graph heuristic goal)
           (astar_inv graph heuristic start goal)
           ltac:(intros s s'; apply astar_body_inv) (astar_measure graph)).
  - apply astar_body_measure.
  - intros s e. by apply astar_body_no_raise.
  - intros s r. apply astar_body_post.
  - apply astar_measure_init.
  - by apply astar_inv_init.
Qed.
End AStarBody.

(** ** [astar] with a consistent heuristic *)

Section AStarOptimal.
Variable graph : gmap string (list (string * Z)).
Variable heuristic : gmap string Z.
Variables start goal : string.
Hypothesis graph_ok : graph_closed graph.
Hypothesis heuristic_ok : heuristic_total graph heuristic.
Hypothesis heuristic_start : is_Some (heuristic !! start).
Hypothesis heuristic_consistent : consistent graph heuristic.

Lemma walk_heuristic q v c : walk graph start q v c → is_Some (heuristic !! v).
Proof.
  intros [->|[adj Hv]]%(walk_node _ _ _ _ _ graph_ok); [done|].
  by apply (heuristic_ok v adj).
Qed.

Lemma consistent_edge u v w hu hv :
  edge graph u v w → heuristic !! u = Some hu → heuristic !! v = Some hv →
  hu ≤ w + hv.
Proof.
  intros (adj & Hu & Hin) Hhu Hhv.
  specialize (heuristic_consistent u adj Hu). simpl in heuristic_consistent.
  rewrite Forall_forall in heuristic_consistent.
  specialize (heuristic_consistent (v, w) Hin).
  unfold h_le in heuristic_consistent. simpl in heuristic_consistent.
  by rewrite Hhu, Hhv in heuristic_consistent.
Qed.

(** Along any path from the start, either the end node is closed or
    the heap holds an item whose [f] does not exceed the cost of the
    path plus the heuristic of its end. *)
Lemma astar_frontier st q v c hv :
  astar_inv graph heuristic start goal st → astar_opt graph start st →
  walk graph start q v c → heuristic !! v = Some hv →
  v ∈ as_closed st ∨ ∃ e, e ∈ as_open st ∧ e_f e ≤ c + hv.
Proof.
  intros (Hopen & _ & _ & _ & Hbest & Hstart) Hopt Hw. revert hv.
  assert (∀ x gx hx, x ∉ as_closed st → as_g_costs st !! x = Some gx →
            heuristic !! x = Some hx →
            ∃ e, e ∈ as_open st ∧ e_f e = gx + hx) as Hitem.
  { intros x gx hx Hx Hgx Hhx. destruct (Hbest x gx Hx Hgx) as (e & He & Hnode & Heg).
    exists e. split; [done|]. destruct (Hopen e He) as (_ & Hh & _).
    rewrite Hnode, Heg, Hhx in Hh. injection Hh as ->. lia. }
  induction Hw as [|q u v w c Hw IH He]; intros hv Hhv.
  - destruct (decide (start ∈ as_closed st)) as [|Hs]; [by left|right].
    destruct Hstart as (g0 & Hg0 & Hle).
    destruct (Hitem start g0 hv Hs Hg0 Hhv) as (e & He & Hf).
    exists e. split; [done|lia].
  - destruct (walk_heuristic _ _ _ Hw) as [hu Hhu].
    pose proof (consistent_edge u v w hu hv He Hhu Hhv) as Hcons.
    destruct (IH hu Hhu) as [Hu|(e & Hin & Hf)].
    + destruct (Hopt u q c Hu Hw) as (_ & Hedges).
      destruct (Hedges v w He) as (gv & Hgv & Hle).
      destruct (decide (v ∈ as_closed st)) as [|Hv]; [by left|right].
      destruct (Hitem v gv hv Hv Hgv Hhv) as (e & Hin & Hf).
      exists e. split; [done|lia].
    + right. exists e. split; [done|lia].
Qed.

(** The item popped for a node that is not closed carries the cost of a
    cheapest path to that node. *)
Lemma astar_pop_optimal st f g u p rest :
  astar_inv graph heuristic start goal st → astar_opt graph start st →
  heappop (as_open st) = Some ((f, g, u, p), rest) → u ∉ as_closed st →
  ∀ q c, walk graph start q u c → g ≤ c.
Proof.
  intros Hinv Hopt [Hperm Hmin]%heappop_spec Hu q c Hw.
  destruct (proj1 Hinv (f, g, u, p)) as (_ & Hh & _); [rewrite Hperm; by left|].
  unfold e_node, e_f, e_g in Hh. simpl in Hh.
  destruct (astar_frontier st q u c (f - g) Hinv Hopt Hw Hh) as [?|(e & He & Hf)];
    [done|].
  specialize (Hmin e He). unfold e_f at 1 in Hmin. simpl in Hmin. lia.
Qed.

Lemma astar_opt_init h0 :
  astar_opt graph start (AStarState [(h0, 0, start, [start])] ∅ {[start := 0]} []).
Proof. intros u q c Hu. by apply not_elem_of_empty in Hu. Qed.

Lemma astar_opt_expand open closed gc steps f g u p h rest adj gc' open' :
  astar_inv graph heuristic start goal (AStarState open closed gc steps) →
  astar_opt graph start (AStarState open closed gc steps) →
  open ≡ₚ (f, g, u, p) :: rest → u ∉ closed →
  (∀ q c, walk graph start q u c → g ≤ c) →
  graph !! u = Some adj →
  relaxed heuristic ({[u]} ∪ closed) g p adj (gc, rest) (gc', open') →
  astar_opt graph start
    (AStarState open' ({[u]} ∪ closed) gc'
       (steps ++ [AStep u p f g h ({[u]} ∪ closed)])).
Proof.
  intros (Hopen & _) Hopt Hperm Hu Hbest Hadj (new & _ & _ & _ & Hmono & _ & Hrel).
  simpl in *.
  assert (∃ gu, gc' !! u = Some gu ∧ gu ≤ g) as (gu & Hgu & Hgule).
  { destruct (Hopen (f, g, u, p)) as (_ & _ & g0 & Hg0 & Hle); [rewrite Hperm; by left|].
    unfold e_node, e_g in Hg0, Hle. simpl in Hg0, Hle.
    destruct (Hmono _ _ Hg0) as (g1 & Hg1 & Hle1). exists g1. split; [done|lia]. }
  intros x q c [->%elem_of_singleton|Hx]%elem_of_union Hw; simpl.
  - specialize (Hbest q c Hw) as Hgc. split.
    + exists gu. split; [done|lia].
    + intros v w Hedge.
      destruct (decide (v ∈ {[u]} ∪ closed)) as [[->%elem_of_singleton|Hv]%elem_of_union|Hv].
      * exists gu. split; [done|].
        assert (g ≤ c + w) by (apply (Hbest (q ++ [u])); by econstructor). lia.
      * destruct (Hopt v (q ++ [v]) (c + w) Hv) as ((gv & Hgv & Hle) & _);
          [by econstructor|].
        destruct (Hmono _ _ Hgv) as (gv' & Hgv' & Hle'). exists gv'. split; [done|lia].
      * destruct Hedge as (adj' & Hadj' & Hin). assert (adj' = adj) as -> by congruence.
        destruct (Hrel v w Hin Hv) as (gv & Hgv & Hle). exists gv. split; [done|lia].
  - destruct (Hopt x q c Hx Hw) as ((gx & Hgx & Hle) & Hedges). split.
    + destruct (Hmono _ _ Hgx) as (gx' & Hgx' & Hle'). exists gx'. split; [done|lia].
    + intros v w Hedge. destruct (Hedges v w Hedge) as (gv & Hgv & Hvle).
      destruct (Hmono _ _ Hgv) as (gv' & Hgv' & Hle'). exists gv'. split; [done|lia].
Qed.

Lemma astar_body_opt st st' :
  astar_inv graph heuristic start goal st ∧ astar_opt graph start st →
  astar_body graph heuristic goal st = Continue st' →
  astar_inv graph heuristic start goal st' ∧ astar_opt graph start st'.
Proof.
  intros [Hinv Hopt] Hbody. split; [by eapply astar_body_inv|].
  apply astar_body_continue in Hbody as (f & g & u & p & rest & Hpop & Hcase).
  pose proof (astar_pop_optimal st f g u p rest Hinv Hopt Hpop) as Hbest.
  apply heappop_spec in Hpop as [Hperm _]. destruct st as [open closed gc steps].
  simpl in *.
  destruct Hcase as [[Hu ->]|(Hu & Hne & h & adj & gc' & open' & Hh & Hadj & Hrel & ->)].
  - done.
  - eapply astar_opt_expand; eauto. by apply for_each_relax.
Qed.

Lemma astar_body_post_opt st res :
  astar_inv graph heuristic start goal st ∧ astar_opt graph start st →
  astar_body graph heuristic goal st = Return res →
  astar_post_opt graph start goal res.
Proof.
  intros [Hinv Hopt]. unfold astar_body.
  destruct (heappop (as_open st)) as [[[[[f g] u] p] rest]|] eqn:Hpop.
  - pose proof (astar_pop_optimal st f g u p rest Hinv Hopt Hpop) as Hbest.
    apply heappop_spec in Hpop as [Hperm _].
    destruct (decide (u ∈ as_closed st)); [done|].
    destruct (heuristic !! u) as [h|]; [|done].
    destruct (decide (u = goal)) as [->|].
    + intros [= <-]. split; simpl; [|by apply Hbest].
      destruct (proj1 Hinv (f, g, goal, p)) as (Hw & _); [|done].
      rewrite Hperm. by left.
    + destruct (graph !! u); [|done]. by destruct (for_each _ _ _) as [[? ?]|].
  - apply heappop_None in Hpop. intros [= <-]. split; simpl; [done|].
    intros q c Hw. destruct (walk_heuristic _ _ _ Hw) as [hv Hhv].
    destruct (astar_frontier st q goal c hv Hinv Hopt Hw Hhv) as [Hg|(e & He & _)].
    + by apply Hinv in Hg.
    + rewrite Hpop in He. by apply elem_of_nil in He.
Qed.

(** With a consistent heuristic [astar] returns, and returns a cheapest
    path whenever there is a path at all. *)
Lemma astar_optimal :
  start = goal ∨ is_Some (graph !! start) →
  ∃ res, astar graph heuristic start goal = Done res ∧
         astar_post_opt graph start goal res.
Proof.
  intros Hstart. destruct heuristic_start as [h0 Hh]. unfold astar. rewrite Hh.
  apply (while_loop_total (astar_body graph heuristic goal)
           (λ st, astar_inv graph heuristic start goal st ∧ astar_opt graph start st)
           astar_body_opt (astar_measure graph)).
  - apply astar_body_measure.
  - intros s e [Hinv _]. by apply astar_body_no_raise with start.
  - apply astar_body_post_opt.
  - apply astar_measure_init.
  - split; [by apply astar_inv_init | apply astar_opt_init].
Qed.
End AStarOptimal.

(** ** [bfs] pops paths in order of length *)

Section BfsLevels.
Variable graph : gmap string (list (string * Z)).
Variables start goal : string.

Lemma bfs_frontier st q v c :
  search_inv graph start goal st → bfs_levels graph start st →
  walk graph start q v c →
  v ∈ st_closed st ∨ ∃ e, e ∈ st_open st ∧ (length e.2 ≤ length q)%nat.
Proof.
  intros (_ & _ & Hcl & Hsteps & Hstart) (_ & _ & Hshort).
  induction 1 as [|q u v w c Hw IH He].
  - destruct Hstart as [?|Hin]; [by left|right]. by exists (start, [start]).
  - destruct IH as [Hu|(e & Hin & Hlen)].
    + apply Hcl, list_elem_of_fmap in Hu as (s & -> & Hs).
      destruct (Hsteps s Hs) as (_ & _ & Hnb).
      destruct (Hnb v) as [?|Hin]; [by exists w|by left|right].
      exists (v, step_path s ++ [v]). split; [done|]. simpl.
      specialize (Hshort s q c Hs Hw). rewrite !length_app. simpl. lia.
    + right. exists e. split; [done|]. rewrite length_app. lia.
Qed.

(** The head of the queue, when its node is not closed, carries a path
    with the fewest nodes. *)
Lemma bfs_head_shortest closed steps u p rest q c :
  search_inv graph start goal (SearchState ((u, p) :: rest) closed steps) →
  bfs_levels graph start (SearchState ((u, p) :: rest) closed steps) →
  u ∉ closed → walk graph start q u c → (length p ≤ length q)%nat.
Proof.
  intros Hinv Hlev Hu Hw.
  destruct (bfs_frontier _ q u c Hinv Hlev Hw) as [?|(e & Hin & Hlen)]; [done|].
  destruct Hlev as (Hsorted & _). simpl in *.
  apply StronglySorted_cons in Hsorted as [Hhead _].
  apply elem_of_cons in Hin as [->|Hin]; [done|].
  rewrite Forall_forall in Hhead. specialize (Hhead e Hin).
  unfold path_len_le in Hhead. simpl in Hhead. lia.
Qed.

Lemma bfs_body_levels st st' :
  search_inv graph start goal st ∧ bfs_levels graph start st →
  bfs_body graph goal st = Continue st' →
  search_inv graph start goal st' ∧ bfs_levels graph start st'.
Proof.
  intros [Hinv Hlev] Hbody. split; [by eapply bfs_body_inv|].
  destruct st as [open closed steps]. unfold bfs_body in Hbody. simpl in Hbody.
  destruct open as [|[u p] rest]; [done|].
  pose proof (bfs_head_shortest closed steps u p rest) as Hhead.
  destruct Hlev as (Hsorted & Hpair & Hshort). simpl in *.
  apply StronglySorted_cons in Hsorted as [Hmin Hsorted].
  rewrite Forall_forall in Hmin.
  destruct (decide (u ∈ closed)).
  { injection Hbody as <-. split; [done|]. split; [|done]. simpl.
    intros a b Ha Hb. apply Hpair; by right. }
  destruct (decide (u = goal)); [done|].
  destruct (graph !! u) as [adj|] eqn:Hadj; [|done].
  injection Hbody as <-. rewrite foldl_push_neighbor.
  set (new := _ <$> filter _ (sorted_by_name adj)).
  assert (∀ e, e ∈ new → length e.2 = Datatypes.S (length p)) as Hnew.
  { intros e ([v w] & -> & _)%list_elem_of_fmap. simpl. rewrite length_app. simpl. lia. }
  assert (∀ a, a ∈ rest → (length p ≤ length a.2 ≤ Datatypes.S (length p))%nat) as Hrest.
  { intros a Ha. split; [by apply (Hmin a)|].
    apply (Hpair (u, p) a); [by left|by right]. }
  split; [|split]; simpl.
  - apply StronglySorted_app. split; [|split; [done|]].
    + intros a b Ha Hb. unfold path_len_le. rewrite (Hnew b Hb).
      by apply Hrest.
    + clearbody new. induction new as [|e new IH]; [constructor|].
      apply StronglySorted_cons. split.
      * apply Forall_forall. intros b Hb. unfold path_len_le.
        rewrite (Hnew e), (Hnew b); [done|by right|by left].
      * apply IH. intros b Hb. apply Hnew. by right.
  - intros a b [Ha|Ha]%elem_of_app [Hb|Hb]%elem_of_app.
    + apply Hpair; by right.
    + rewrite (Hnew b Hb). specialize (Hrest a Ha). lia.
    + rewrite (Hnew a Ha). specialize (Hrest b Hb). lia.
    + rewrite (Hnew a Ha), (Hnew b Hb). lia.
  - intros s q c [Hs| ->%list_elem_of_singleton]%elem_of_app Hw.
    + by eapply Hshort.
    + simpl in *. eapply Hhead; eauto.
      split; [|split]; [by apply StronglySorted_cons; rewrite Forall_forall|done..].
Qed.

Lemma bfs_body_post_opt st res :
  search_inv graph start goal st ∧ bfs_levels graph start st →
  bfs_body graph goal st = Return res →
  search_post graph start goal res ∧ bfs_post_opt graph start goal res.
Proof.
  intros [Hinv Hlev] Hbody. split; [by eapply bfs_body_post|].
  destruct st as [open closed steps]. unfold bfs_body in Hbody. simpl in Hbody.
  destruct open as [|[u p] rest]; [by injection Hbody as <-|].
  destruct (decide (u ∈ closed)); [done|].
  destruct (decide (u = goal)) as [->|].
  - injection Hbody as <-. intros q c Hw. by eapply bfs_head_shortest.
  - by destruct (graph !! u).
Qed.

Lemma bfs_levels_init : bfs_levels graph start (SearchState [(start, [start])] ∅ []).
Proof.
  split; [|split]; simpl.
  - repeat constructor.
  - intros a b ->%list_elem_of_singleton ->%list_elem_of_singleton. lia.
  - intros s q c Hs. by apply elem_of_nil in Hs.
Qed.

Lemma bfs_shortest :
  graph_closed graph → start = goal ∨ is_Some (graph !! start) →
  ∃ res, bfs graph start goal = Done res ∧
         search_post graph start goal res ∧ bfs_post_opt graph start goal res.
Proof.
  intros Hcl Hstart.
  apply (while_loop_total (bfs_body graph goal)
           (λ st, search_inv graph start goal st ∧ bfs_levels graph start st)
           bfs_body_levels (search_measure graph)).
  - apply bfs_body_measure.
  - intros s e [Hinv _]. by apply bfs_body_no_raise with start.
  - apply bfs_body_post_opt.
  - apply search_measure_init.
  - split; [apply search_inv_init | apply bfs_levels_init].
Qed.
End BfsLevels.

(** ** Consistent tables *)

Section Consistent.
Variable graph : gmap string (list (string * Z)).
Variable heuristic : gmap string Z.
Hypothesis graph_ok : graph_closed graph.
Hypothesis heuristic_ok : heuristic_total graph heuristic.
Hypothesis heuristic_consistent : consistent graph heuristic.

(** A consistent table telescopes along a path. *)
Lemma consistent_walk start q v c hs hv :
  walk graph start q v c → heuristic !! start = Some hs → heuristic !! v = Some hv →
  hs ≤ c + hv.
Proof.
  intros Hw Hs. revert hv. induction Hw as [|q u v w c Hw IH He]; intros hv Hv.
  - assert (hs = hv) by congruence. lia.
  - destruct (walk_heuristic graph heuristic start graph_ok heuristic_ok
                ltac:(by eexists) q u c Hw) as [hu Hu].
    specialize (IH hu Hu).
    pose proof (consistent_edge graph heuristic heuristic_consistent u v w hu hv He Hu Hv).
    lia.
Qed.

(** A consistent table that is zero at the goal is admissible. *)
Lemma consistent_admissible goal :
  heuristic !! goal = Some 0 → admissible graph heuristic goal.
Proof.
  intros Hgoal u hu p c Hu Hp%weighted_path_walk.
  pose proof (consistent_walk u p goal c hu 0 Hp Hu Hgoal). lia.
Qed.
End Consistent.

Lemma zero_heuristic_lookup graph u :
  zero_heuristic graph !! u = (λ _, 0) <$> graph !! u.
Proof. unfold zero_heuristic. by rewrite lookup_fmap. Qed.

Lemma zero_heuristic_total graph : heuristic_total graph (zero_heuristic graph).
Proof. intros u adj Hu. simpl. rewrite zero_heuristic_lookup, Hu. by eexists. Qed.

Lemma zero_heuristic_consistent graph :
  nonneg_weights graph → consistent graph (zero_heuristic graph).
Proof.
  intros Hnn u adj Hu. simpl. specialize (Hnn u adj Hu). simpl in Hnn.
  eapply Forall_impl; [exact Hnn|]. intros [v w] Hw. unfold h_le. simpl in *.
  rewrite !zero_heuristic_lookup.
  destruct (graph !! u), (graph !! v); simpl; done || lia.
Qed.

(** ** A neighbour without heuristic entry *)

Lemma for_each_relax_missing heuristic closed g path adj gc open v w :
  (∀ x, is_Some (gc !! x) → x ∈ closed ∨ is_Some (heuristic !! x)) →
  (v, w) ∈ adj → v ∉ closed → heuristic !! v = None →
  ∃ k, heuristic !! k = None ∧
       for_each adj (relax heuristic closed g path) (gc, open) = Err (KeyError k).
Proof.
  intros Hgc Hin Hv Hh. revert gc open Hgc.
  induction adj as [|[v' w'] adj IH]; intros gc open Hgc; [by apply elem_of_nil in Hin|].
  simpl. unfold relax at 1.
  assert (v' ∈ closed ∨ is_Some (heuristic !! v') → (v, w) ∈ adj) as Htail.
  { intros Hv'. apply elem_of_cons in Hin as [[= -> ->]|?]; [|done].
    destruct Hv' as [?|[? ?]]; [done|congruence]. }
  destruct (decide (v' ∈ closed)) as [Hc|Hc].
  { simpl. apply IH; [|done]. apply Htail. by left. }
  destruct (heuristic !! v') as [h'|] eqn:Hh'.
  - assert ((v, w) ∈ adj) as Hin' by (apply Htail; right; by eexists).
    unfold dict_get. rewrite Hh'.
    destruct (gc !! v') as [old|]; [case_bool_decide|]; simpl;
      apply IH; try done.
    + intros x [gx Hx]. destruct (decide (x = v')) as [->|Hne]; [right; by eexists|].
      rewrite lookup_insert_ne in Hx by done. apply Hgc. by eexists.
    + intros x [gx Hx]. destruct (decide (x = v')) as [->|Hne]; [right; by eexists|].
      rewrite lookup_insert_ne in Hx by done. apply Hgc. by eexists.
  - destruct (gc !! v') as [old|] eqn:Hold.
    + destruct (Hgc v') as [?|[? ?]]; [by eexists|done|congruence].
    + unfold dict_get. rewrite Hh'. simpl. by exists v'.
Qed.

Lemma heappop_singleton e : heappop [e] = Some (e, []).
Proof. unfold heappop. simpl. by rewrite decide_True. Qed.

(** ** The construction of the graph *)

Lemma add_edge_edge g e g' :
  add_edge g e = Ok g' →
  (∀ u, is_Some (g !! u) → is_Some (g' !! u)) ∧
  ∀ u v w, edge g' u v w ↔
           edge g u v w ∨ (u, v, w) = e ∨ (u, v, w) = (e.1.2, e.1.1, e.2).
Proof.
  destruct e as [[c1 c2] d]. unfold add_edge, dict_get. simpl.
  destruct (g !! c1) as [l1|] eqn:H1; [|done]. simpl.
  destruct (<[c1:=l1 ++ [(c2, d)]]> g !! c2) as [l2|] eqn:H2; [|done]. simpl.
  intros [= <-]. split.
  - intros u [adj Hu].
    destruct (decide (u = c2)) as [->|]; [rewrite lookup_insert_eq; by eexists|].
    rewrite lookup_insert_ne by done.
    destruct (decide (u = c1)) as [->|]; [rewrite lookup_insert_eq; by eexists|].
    rewrite lookup_insert_ne by done. by eexists.
  - intros u v w. unfold edge.
    destruct (decide (c1 = c2)) as [->|Hne].
    + rewrite lookup_insert_eq in H2. injection H2 as <-.
      destruct (decide (u = c2)) as [->|Hu].
      * rewrite lookup_insert_eq. split.
        -- intros (adj & [= <-] & Hin).
           rewrite !elem_of_app, !list_elem_of_singleton in Hin.
           destruct Hin as [[Hin|[= -> ->]]|[= -> ->]]; [left; by exists l1|auto..].
        -- intros [(adj & Hadj & Hin)|[[= -> ->]|[= -> ->]]]; eexists; (split; [done|]);
             rewrite !elem_of_app, !list_elem_of_singleton; [|auto..].
           assert (adj = l1) as -> by congruence. auto.
      * rewrite !lookup_insert_ne by done. split; [by left|].
        intros [?|[[= -> _]|[= -> _]]]; done.
    + rewrite lookup_insert_ne in H2 by done.
      destruct (decide (u = c2)) as [->|Hu2].
      * rewrite lookup_insert_eq. split.
        -- intros (adj & [= <-] & Hin).
           rewrite elem_of_app, list_elem_of_singleton in Hin.
           destruct Hin as [Hin|[= -> ->]]; [left; by exists l2|auto].
        -- intros [(adj & Hadj & Hin)|[[= ? _]|[= -> ->]]]; [|done|];
             eexists; (split; [done|]); rewrite elem_of_app, list_elem_of_singleton;
             [|auto]. assert (adj = l2) as -> by congruence. auto.
      * rewrite lookup_insert_ne by done.
        destruct (decide (u = c1)) as [->|Hu1].
        -- rewrite lookup_insert_eq. split.
           ++ intros (adj & [= <-] & Hin).
              rewrite elem_of_app, list_elem_of_singleton in Hin.
              destruct Hin as [Hin|[= -> ->]]; [left; by exists l1|auto].
           ++ intros [(adj & Hadj & Hin)|[[= -> ->]|[= ? _]]]; [| |done];
                eexists; (split; [done|]); rewrite elem_of_app, list_elem_of_singleton;
                [|auto]. assert (adj = l1) as -> by congruence. auto.
        -- rewrite lookup_insert_ne by done. split; [by left|].
           intros [?|[[= -> _]|[= -> _]]]; done.
Qed.

Lemma add_edge_undirected g e g' :
  add_edge g e = Ok g' → undirected g → undirected g'.
Proof.
  intros [_ Hedge]%add_edge_edge Hsym u v w.
  rewrite !Hedge. destruct e as [[c1 c2] d]. simpl.
  intros [?%Hsym|[[= -> -> ->]|[= -> -> ->]]]; auto.
Qed.

(** Every graph the scripts build is undirected, and so lists only its
    own nodes as neighbours. *)
Lemma build_graph_undirected cities edges g :
  build_graph cities edges = Ok g → undirected g.
Proof.
  unfold build_graph.
  assert (undirected (list_to_map ((λ c : string, (c, @nil (string * Z))) <$> cities)))
    as Hinit.
  { intros u v w (adj & Hu & Hin).
    apply elem_of_list_to_map_2, list_elem_of_fmap in Hu as (c & [= -> ->] & _).
    by apply elem_of_nil in Hin. }
  revert Hinit. generalize (list_to_map ((λ c : string, (c, @nil (string * Z))) <$> cities)
                             : gmap string (list (string * Z))).
  induction edges as [|e edges IH]; intros g0 Hsym; simpl.
  - by intros [= <-].
  - destruct (add_edge g0 e) as [g1|] eqn:Hadd; [|done]. simpl.
    apply IH. by eapply add_edge_undirected.
Qed.

Lemma build_graph_closed cities edges g :
  build_graph cities edges = Ok g → graph_closed g.
Proof. intros H. by eapply undirected_closed, build_graph_undirected. Qed.

(** * The claims *)

(** C1 as stated fails: on the map [Detour.graph], whose weights are
    non-negative and whose table [Detour.heuristic] is admissible for the
    goal G, [astar] returns the path S, C, G of cost 13, while the run with
    the zero table returns S, A, C, G of cost 12.  The node C is closed
    with cost 3 before the cheaper road through A is found, and a closed
    node is never reopened. *)
Lemma astar_admissible_not_optimal :
  nonneg_weights Detour.graph ∧
  undirected Detour.graph ∧
  admissible Detour.graph Detour.heuristic "G" ∧
  (∃ steps, astar Detour.graph Detour.heuristic "S" "G"
            = Done (Some ["S"; "C"; "G"], 13, steps)) ∧
  (∃ steps, astar Detour.graph (zero_heuristic Detour.graph) "S" "G"
            = Done (Some ["S"; "A"; "C"; "G"], 12, steps)).
Proof.
  assert (undirected Detour.graph) as Hsym.
  { apply (build_graph_undirected ["S"; "A"; "C"; "G"]
             [("S", "A", 1); ("A", "C", 1); ("S", "C", 3); ("C", "G", 10)]).
    by vm_compute. }
  split; [|split; [done|split; [|split]]].
  - by_evaluation.
  - intros u hu p c Hu Hp.
    assert (map_Forall (λ u hu, match Detour.remaining !! u with
                                | Some d => hu ≤ d
                                | None => False
                                end) Detour.heuristic) as Hle.
    { apply map_Forall_to_list. vm_compute. repeat constructor; by intros ?. }
    specialize (Hle u hu Hu). simpl in Hle.
    destruct (Detour.remaining !! u) as [d|] eqn:Hd; [|done].
    assert (admissible Detour.graph Detour.remaining "G") as Hadm.
    { apply consistent_admissible.
      - by apply undirected_closed.
      - by_evaluation.
      - by_evaluation.
      - by vm_compute. }
    specialize (Hadm u d p c Hd Hp). lia.
  - eexists. vm_compute. reflexivity.
  - eexists. vm_compute. reflexivity.
Qed.

(** C1, amended: for every graph that lists only its own nodes as
    neighbours, has non-negative weights and contains [start], and every
    heuristic table that covers the graph and is consistent
    ([h(u) <= w(u,v) + h(v)] on every edge), [astar] returns, its cost
    equals the cost the zero-heuristic run returns, and the path it
    returns, if any, runs from [start] to [goal], has that cost, and no
    path from [start] to [goal] is cheaper; it returns no path only when
    there is none. *)
Theorem astar_consistent_optimal graph heuristic start goal :
  graph_closed graph → nonneg_weights graph → is_Some (graph !! start) →
  heuristic_total graph heuristic → consistent graph heuristic →
  ∃ r c steps r0 steps0,
    astar graph heuristic start goal = Done (r, c, steps) ∧
    astar graph (zero_heuristic graph) start goal = Done (r0, c, steps0) ∧
    match r with
    | Some p =>
        weighted_path graph start goal p c ∧
        ∀ q c', weighted_path graph start goal q c' → c ≤ c'
    | None => ∀ q, ¬ is_path graph start goal q
    end.
Proof.
  intros Hgc Hnn Hstart Htot Hcons.
  destruct (astar_optimal graph heuristic start goal Hgc Htot) as ([[r c] steps] & Hrun & Hopt);
    [destruct Hstart as [adj Hadj]; by apply (Htot start adj) | done | by right |].
  destruct (astar_optimal graph (zero_heuristic graph) start goal Hgc)
    as ([[r0 c0] steps0] & Hrun0 & Hopt0);
    [apply zero_heuristic_total
    |destruct Hstart as [adj Hadj]; apply (zero_heuristic_total graph start adj Hadj)
    |by apply zero_heuristic_consistent | by right |].
  unfold astar_post_opt in Hopt, Hopt0. simpl in Hopt, Hopt0.
  assert (c0 = c) as ->.
  { destruct r as [p|], r0 as [p0|].
    - destruct Hopt as [Hw Hmin], Hopt0 as [Hw0 Hmin0].
      specialize (Hmin _ _ Hw0). specialize (Hmin0 _ _ Hw). lia.
    - destruct Hopt as [Hw _], Hopt0 as [_ Hno]. by destruct (Hno _ _ Hw).
    - destruct Hopt as [_ Hno], Hopt0 as [Hw _]. by destruct (Hno _ _ Hw).
    - destruct Hopt as [-> _], Hopt0 as [-> _]. done. }
  exists r, c, steps, r0, steps0. split; [done|]. split; [done|].
  destruct r as [p|].
  - destruct Hopt as [Hw Hmin]. split; [by apply walk_weighted_path|].
    intros q c' Hq. by apply (Hmin q), weighted_path_walk.
  - destruct Hopt as [_ Hno]. intros q [c' Hq]%is_path_weighted.
    by apply (Hno q c'), weighted_path_walk.
Qed.

Lemma astar_consistent_optimal_witness :
  ∃ r c steps r0 steps0,
    astar Poland.graph Poland.heuristic "Glogow" "Plock" = Done (r, c, steps) ∧
    astar Poland.graph (zero_heuristic Poland.graph) "Glogow" "Plock"
    = Done (r0, c, steps0) ∧
    match r with
    | Some p =>
        weighted_path Poland.graph "Glogow" "Plock" p c ∧
        ∀ q c', weighted_path Poland.graph "Glogow" "Plock" q c' → c ≤ c'
    | None => ∀ q, ¬ is_path Poland.graph "Glogow" "Plock" q
    end.
Proof.
  apply astar_consistent_optimal.
  - by_evaluation.
  - by_evaluation.
  - by_evaluation.
  - by_evaluation.
  - by_evaluation.
Defined.

(** C2: on a graph that lists only its own nodes as neighbours, for every
    start and goal joined by a path, [bfs] returns a path from start to
    goal and no path from start to goal has fewer edges, whatever the
    weights. *)
Theorem bfs_fewest_hops graph start goal :
  graph_closed graph → (∃ q, is_path graph start goal q) →
  ∃ p steps,
    bfs graph start goal = Done (Some p, steps) ∧
    is_path graph start goal p ∧
    ∀ q, is_path graph start goal q → (hops p ≤ hops q)%nat.
Proof.
  intros Hgc [q0 Hq0].
  destruct (bfs_shortest graph start goal Hgc) as ([r steps] & Hrun & [_ Hpost] & Hopt).
  { by eapply is_path_start_key. }
  unfold bfs_post_opt in Hopt. simpl in Hpost, Hopt.
  destruct r as [p|].
  - exists p, steps. split; [done|]. destruct Hpost as [c Hw]. split.
    + by eapply weighted_path_is_path, walk_weighted_path.
    + intros q [c' Hq]%is_path_weighted. apply weighted_path_walk in Hq.
      specialize (Hopt q c' Hq). unfold hops. lia.
  - destruct (is_path_weighted _ _ _ _ Hq0) as [c Hc].
    destruct (Hpost q0 c). by apply weighted_path_walk.
Qed.

Lemma bfs_fewest_hops_witness :
  ∃ p steps,
    bfs Poland.graph "Glogow" "Plock" = Done (Some p, steps) ∧
    is_path Poland.graph "Glogow" "Plock" p ∧
    ∀ q, is_path Poland.graph "Glogow" "Plock" q → (hops p ≤ hops q)%nat.
Proof.
  apply bfs_fewest_hops.
  - by_evaluation.
  - exists ["Glogow"; "Leszno"; "Poznan"; "Bydgoszcz"; "Wloclawek"; "Plock"]%string.
    repeat split; try reflexivity;
      (eexists; eexists; split; [vm_compute; reflexivity|]; vm_compute;
       repeat (try (by left); right)).
Defined.

(** C4 as stated fails for A*: with a start that has no heuristic entry,
    [heuristic[start]] raises before the loop is entered. *)
Lemma astar_start_is_goal_unknown :
  astar Poland.graph Poland.heuristic "X" "X" = Raised (KeyError "X").
Proof. reflexivity. Qed.

(** C4, amended: when start and goal coincide, [bfs] and [dfs] return, on
    every graph, the one-node path and a trace of exactly one entry, whose
    open list is empty; [astar] returns the one-node path, cost 0 and a
    trace of exactly one entry whenever the start has a heuristic entry. *)
Theorem search_start_is_goal graph heuristic start :
  bfs graph start start = Done (Some [start], [Step start [start] [] {[start]}]) ∧
  dfs graph start start = Done (Some [start], [Step start [start] [] {[start]}]) ∧
  ∀ h, heuristic !! start = Some h →
       astar graph heuristic start start
       = Done (Some [start], 0, [AStep start [start] h 0 h {[start]}]).
Proof.
  split; [|split].
  - unfold bfs, search_fuel. simpl. unfold bfs_body. simpl.
    rewrite decide_False by apply not_elem_of_empty. rewrite decide_True by done.
    by rewrite union_empty_r_L.
  - unfold dfs, search_fuel. simpl. unfold dfs_body. simpl.
    rewrite decide_False by apply not_elem_of_empty. rewrite decide_True by done.
    by rewrite union_empty_r_L.
  - intros h Hh. unfold astar, search_fuel. rewrite Hh. simpl. unfold astar_body. simpl.
    rewrite decide_False by apply not_elem_of_empty.
    rewrite Hh. rewrite decide_True by done. by rewrite union_empty_r_L.
Qed.

Lemma search_start_is_goal_witness :
  astar Poland.graph Poland.heuristic "Plock" "Plock"
  = Done (Some ["Plock"%string], 0, [AStep "Plock" ["Plock"%string] 0 0 0 {["Plock"%string]}]).
Proof.
  apply (proj2 (proj2 (search_start_is_goal Poland.graph Poland.heuristic "Plock")) 0).
  reflexivity.
Defined.

(** C5 as stated fails: no path leads from X to Plock on the map of the
    scripts, and [bfs] raises [KeyError] at [graph[current]]. *)
Lemma bfs_unknown_start_raises :
  (¬ ∃ p, is_path Poland.graph "X" "Plock" p) ∧
  bfs Poland.graph "X" "Plock" = Raised (KeyError "X").
Proof.
  split; [|reflexivity].
  intros (p & Hh & Hl & Hc). destruct p as [|u [|v p]]; [done| |].
  - simpl in *. congruence.
  - simpl in Hh. injection Hh as ->. destruct Hc as [(w & adj & Hadj & _) _].
    vm_compute in Hadj. discriminate.
Qed.

(** A name that is not a key of the graph is the start of no path to
    another name. *)
Lemma no_path_from_unknown graph start goal :
  graph !! start = None → start ≠ goal → ¬ ∃ p, is_path graph start goal p.
Proof.
  intros Hnone Hne (p & Hh & Hl & Hc). destruct p as [|u [|v p]]; [done| |].
  - simpl in *. congruence.
  - simpl in Hh. injection Hh as ->. destruct Hc as [(w & adj & Hadj & _) _].
    congruence.
Qed.

(** C5, amended: when no path leads from [start] to [goal]: on a graph
    that lists only its own nodes as neighbours and contains [start],
    [bfs] and [dfs] return [None], and so does [astar], with cost 0, when
    every node of the graph has a heuristic entry; none of them raises.
    When [start] is not a key of the graph, [bfs], [dfs] and [astar] each
    raise [KeyError] for [start], whatever the table. *)
Theorem search_no_path graph heuristic start goal :
  (¬ ∃ p, is_path graph start goal p) →
  (graph_closed graph → is_Some (graph !! start) →
   (∃ steps, bfs graph start goal = Done (None, steps)) ∧
   (∃ steps, dfs graph start goal = Done (None, steps)) ∧
   (heuristic_total graph heuristic →
    ∃ steps, astar graph heuristic start goal = Done (None, 0, steps))) ∧
  (graph !! start = None →
   bfs graph start goal = Raised (KeyError start) ∧
   dfs graph start goal = Raised (KeyError start) ∧
   astar graph heuristic start goal = Raised (KeyError start)).
Proof.
  intros Hno.
  assert (∀ p c, ¬ walk graph start p goal c) as Hnw.
  { intros p c Hw. apply Hno. exists p.
    by eapply weighted_path_is_path, walk_weighted_path. }
  assert (start ≠ goal) as Hne.
  { intros <-. apply Hno. by exists [start]. }
  split.
  - intros Hgc Hstart. split; [|split].
    + destruct (bfs_total graph start goal Hgc) as ([[p|] steps] & Hrun & _ & Hpost);
        [by right| |by exists steps].
      destruct Hpost as [c Hw]. by destruct (Hnw p c).
    + destruct (dfs_total graph start goal Hgc) as ([[p|] steps] & Hrun & _ & Hpost);
        [by right| |by exists steps].
      destruct Hpost as [c Hw]. by destruct (Hnw p c).
    + intros Htot.
      destruct (astar_total graph heuristic start goal Hgc Htot)
        as ([[[p|] c] steps] & Hrun & _ & Hpost);
        [destruct Hstart as [adj Hadj]; by apply (Htot start adj)|by right| |].
      * by destruct (Hnw p c).
      * simpl in Hpost. subst c. by exists steps.
  - intros Hnone. split; [|split].
    + unfold bfs, search_fuel. simpl. unfold bfs_body. simpl.
      rewrite decide_False by apply not_elem_of_empty.
      rewrite decide_False by done. by rewrite Hnone.
    + unfold dfs, search_fuel. simpl. unfold dfs_body. simpl.
      rewrite decide_False by apply not_elem_of_empty.
      rewrite decide_False by done. by rewrite Hnone.
    + unfold astar, search_fuel. destruct (heuristic !! start) as [h0|] eqn:Hh; [|done].
      simpl. unfold astar_body. simpl.
      rewrite decide_False by apply not_elem_of_empty.
      rewrite Hh. rewrite decide_False by done. by rewrite Hnone.
Qed.

Lemma search_no_path_witness :
  ((∃ steps, bfs Gap.graph "A" "Z" = Done (None, steps)) ∧
   (∃ steps, dfs Gap.graph "A" "Z" = Done (None, steps)) ∧
   (∃ steps, astar Gap.graph (zero_heuristic Gap.graph) "A" "Z" = Done (None, 0, steps))) ∧
  (bfs Gap.graph "X" "Z" = Raised (KeyError "X") ∧
   dfs Gap.graph "X" "Z" = Raised (KeyError "X") ∧
   astar Gap.graph {[ "X"%string := 0 ]} "X" "Z" = Raised (KeyError "X")).
Proof.
  split.
  - assert (¬ ∃ p, is_path Gap.graph "A" "Z" p) as Hno.
    { intros [p Hp]. apply is_path_weighted in Hp as [c Hp].
      assert (graph_closed Gap.graph) as Hgc by by_evaluation.
      apply weighted_path_walk, (walk_node Gap.graph _ _ _ _ Hgc) in Hp
        as [?|[adj Hadj]]; [done|].
      vm_compute in Hadj. discriminate. }
    destruct (proj1 (search_no_path Gap.graph (zero_heuristic Gap.graph) "A" "Z" Hno))
      as (Hb & Hd & Ha).
    + by_evaluation.
    + by_evaluation.
    + split; [done|]. split; [done|]. apply Ha. by_evaluation.
  - apply (search_no_path Gap.graph {[ "X"%string := 0 ]} "X" "Z").
    + by apply no_path_from_unknown.
    + reflexivity.
Defined.

(** C6: the loop of [dfs] ends within [search_fuel] passes on every graph,
    and on a graph that lists only its own nodes as neighbours, whenever a
    path leads from start to goal, [dfs] returns a path from start to goal
    whose consecutive nodes are adjacent. *)
Theorem dfs_terminates_and_finds graph start goal :
  dfs graph start goal ≠ OutOfFuel ∧
  (graph_closed graph → (∃ q, is_path graph start goal q) →
   ∃ p steps, dfs graph start goal = Done (Some p, steps) ∧ is_path graph start goal p).
Proof.
  split; [apply dfs_terminates|]. intros Hgc [q0 Hq0].
  destruct (dfs_total graph start goal Hgc) as ([[p|] steps] & Hrun & _ & Hpost).
  - by eapply is_path_start_key.
  - exists p, steps. split; [done|]. destruct Hpost as [c Hw].
    by eapply weighted_path_is_path, walk_weighted_path.
  - destruct (is_path_weighted _ _ _ _ Hq0) as [c Hc].
    destruct (Hpost q0 c). by apply weighted_path_walk.
Qed.

Lemma dfs_terminates_and_finds_witness :
  ∃ p steps,
    dfs Poland.graph "Glogow" "Plock" = Done (Some p, steps) ∧
    is_path Poland.graph "Glogow" "Plock" p.
Proof.
  apply (proj2 (dfs_terminates_and_finds Poland.graph "Glogow" "Plock")).
  - by_evaluation.
  - exists ["Glogow"; "Leszno"; "Poznan"; "Bydgoszcz"; "Wloclawek"; "Plock"]%string.
    repeat split; try reflexivity;
      (eexists; eexists; split; [vm_compute; reflexivity|]; vm_compute;
       repeat (try (by left); right)).
Defined.

(** C8 as stated fails: B is a neighbour of A without heuristic entry, and
    the search from A raises [KeyError] when it relaxes the edge to B. *)
Lemma astar_missing_heuristic_raises :
  Gap.heuristic !! "B"%string = None ∧
  adjacent Gap.graph "A" "B" ∧
  astar Gap.graph Gap.heuristic "A" "B" = Raised (KeyError "B").
Proof.
  split; [reflexivity|]. split; [|reflexivity].
  exists 1, [("B"%string, 1)]. split; [reflexivity|by left].
Qed.

(** C8, amended: the heuristic lookup is [heuristic[node]] and has no
    default.  [astar] raises [KeyError] for the start when the start has
    no entry.  When the start has an entry, is not the goal, and lists a
    neighbour other than itself that has no entry, [astar] raises
    [KeyError] for a name that has no entry.  On a graph that lists only
    its own nodes as neighbours and contains the start, [astar] completes
    without raising when every node of the graph has an entry. *)
Theorem astar_heuristic_lookup graph heuristic start goal :
  (heuristic !! start = None →
   astar graph heuristic start goal = Raised (KeyError start)) ∧
  (∀ h adj v w,
     heuristic !! start = Some h → start ≠ goal → graph !! start = Some adj →
     (v, w) ∈ adj → v ≠ start → heuristic !! v = None →
     ∃ k, heuristic !! k = None ∧
          astar graph heuristic start goal = Raised (KeyError k)) ∧
  (graph_closed graph → heuristic_total graph heuristic → is_Some (graph !! start) →
   ∃ res, astar graph heuristic start goal = Done res).
Proof.
  split; [|split].
  - intros Hh. unfold astar. by rewrite Hh.
  - intros h adj v w Hh Hne Hadj Hin Hv Hhv.
    destruct (for_each_relax_missing heuristic ({[start]} ∪ ∅) 0 [start] adj
                {[start := 0]} [] v w) as (k & Hk & Hrel); [|done| |done|].
    { intros x [gx [-> _]%lookup_singleton_Some]. left.
      apply elem_of_union. left. by apply elem_of_singleton. }
    { intros [?%elem_of_singleton|?%not_elem_of_empty]%elem_of_union; done. }
    exists k. split; [done|].
    unfold astar, search_fuel. rewrite Hh.
    change (2 + graph_weight graph ∅)%nat
      with (Datatypes.S (Datatypes.S (graph_weight graph ∅))).
    cbn [while_loop]. unfold astar_body at 1.
    cbn [as_open as_closed as_g_costs as_steps].
    rewrite heappop_singleton.
    rewrite decide_False by apply not_elem_of_empty. rewrite Hh.
    rewrite decide_False by done. rewrite Hadj. by rewrite Hrel.
  - intros Hgc Htot [adj Hadj].
    destruct (astar_total graph heuristic start goal Hgc Htot) as (res & Hrun & _);
      [by apply (Htot start adj)|right; by eexists|]. by exists res.
Qed.

Lemma astar_heuristic_lookup_witness :
  astar Gap.graph Gap.heuristic "B" "A" = Raised (KeyError "B") ∧
  (∃ k, Gap.heuristic !! k = None ∧
        astar Gap.graph Gap.heuristic "A" "B" = Raised (KeyError k)) ∧
  (∃ res, astar Poland.graph Poland.heuristic "Glogow" "Plock" = Done res).
Proof.
  split; [|split].
  - apply (proj1 (astar_heuristic_lookup Gap.graph Gap.heuristic "B" "A")).
    reflexivity.
  - apply (proj1 (proj2 (astar_heuristic_lookup Gap.graph Gap.heuristic "A" "B"))
             1 [("B"%string, 1)] "B"%string 1).
    + reflexivity.
    + done.
    + reflexivity.
    + by left.
    + done.
    + reflexivity.
  - apply (proj2 (proj2 (astar_heuristic_lookup Poland.graph Poland.heuristic
                           "Glogow" "Plock"))).
    + by_evaluation.
    + by_evaluation.
    + by_evaluation.
Defined.

(** C9: in the trace returned by [bfs], by [dfs] and by [astar], on every
    graph, no node appears twice as the expanded node. *)
Theorem no_node_expanded_twice graph heuristic start goal :
  (∀ r steps, bfs graph start goal = Done (r, steps) →
              NoDup (step_current <$> steps)) ∧
  (∀ r steps, dfs graph start goal = Done (r, steps) →
              NoDup (step_current <$> steps)) ∧
  (∀ r c steps, astar graph heuristic start goal = Done (r, c, steps) →
                NoDup (astep_current <$> steps)).
Proof.
  split; [|split].
  - intros r steps Hrun. by apply bfs_post in Hrun as [Hnd _].
  - intros r steps Hrun. by apply dfs_post in Hrun as [Hnd _].
  - intros r c steps Hrun. by apply astar_post_holds in Hrun as [Hnd _].
Qed.

Lemma no_node_expanded_twice_witness :
  NoDup (step_current <$> Poland.bfs_run.2) ∧
  NoDup (step_current <$> Poland.dfs_run.2) ∧
  NoDup (astep_current <$> Poland.astar_run.2).
Proof.
  destruct (no_node_expanded_twice Poland.graph Poland.heuristic "Glogow" "Plock")
    as (Hbfs & Hdfs & Hastar).
  split; [|split].
  - apply (Hbfs Poland.bfs_run.1). vm_compute. reflexivity.
  - apply (Hdfs Poland.dfs_run.1). vm_compute. reflexivity.
  - apply (Hastar Poland.astar_run.1.1 Poland.astar_run.1.2). vm_compute. reflexivity.
Defined.

(** C10: a path returned by [astar] begins at start, ends at goal, joins
    adjacent nodes, and the cost returned with it is the sum of the
    weights of the edges along it. *)
Theorem astar_path_valid graph heuristic start goal p c steps :
  astar graph heuristic start goal = Done (Some p, c, steps) →
  head p = Some start ∧ last p = Some goal ∧ is_chain graph p ∧ has_cost graph p c.
Proof.
  intros [_ Hw]%astar_post_holds. simpl in Hw.
  apply walk_weighted_path in Hw as (Hh & Hl & Hc).
  repeat split; [done..| |done]. by eapply has_cost_chain.
Qed.

Lemma astar_path_valid_witness :
  head ["Glogow"; "Leszno"; "Poznan"; "Bydgoszcz"; "Wloclawek"; "Plock"]%string
  = Some "Glogow"%string ∧
  last ["Glogow"; "Leszno"; "Poznan"; "Bydgoszcz"; "Wloclawek"; "Plock"]%string
  = Some "Plock"%string ∧
  is_chain Poland.graph
    ["Glogow"; "Leszno"; "Poznan"; "Bydgoszcz"; "Wloclawek"; "Plock"]%string ∧
  has_cost Poland.graph
    ["Glogow"; "Leszno"; "Poznan"; "Bydgoszcz"; "Wloclawek"; "Plock"]%string 440.
Proof.
  apply (astar_path_valid Poland.graph Poland.heuristic "Glogow" "Plock" _ _
           Poland.astar_run.2).
  vm_compute. reflexivity.
Defined.

(** * Further properties *)

(** ** The construction of the adjacency lists *)

Lemma add_edge_lookup g e g' u :
  add_edge g e = Ok g' → g' !! u = (λ l, l ++ incident u e) <$> g !! u.
Proof.
  destruct e as [[c1 c2] d]. unfold add_edge, dict_get, incident. simpl.
  destruct (g !! c1) as [l1|] eqn:H1; [|done]. simpl.
  destruct (<[c1:=l1 ++ [(c2, d)]]> g !! c2) as [l2|] eqn:H2; [|done]. simpl.
  intros [= <-].
  destruct (decide (c2 = u)) as [->|Hu2].
  - rewrite lookup_insert_eq.
    destruct (decide (c1 = u)) as [->|Hu1].
    + rewrite lookup_insert_eq in H2. injection H2 as <-.
      rewrite H1. simpl. by rewrite <- app_assoc.
    + rewrite lookup_insert_ne in H2 by done. rewrite H2. done.
  - rewrite lookup_insert_ne by done.
    destruct (decide (c1 = u)) as [->|Hu1].
    + rewrite lookup_insert_eq, H1. done.
    + rewrite lookup_insert_ne by done.
      destruct (g !! u); simpl; [|done]. by rewrite app_nil_r.
Qed.

Lemma for_each_add_edge_lookup edges g0 g u :
  for_each edges add_edge g0 = Ok g →
  g !! u = (λ l, l ++ concat (incident u <$> edges)) <$> g0 !! u.
Proof.
  revert g0. induction edges as [|e edges IH]; intros g0; simpl.
  - intros [= <-]. destruct (g0 !! u); simpl; [|done]. by rewrite app_nil_r.
  - destruct (add_edge g0 e) as [g1|] eqn:Hadd; [|done]. simpl.
    intros Hrest. rewrite (IH _ Hrest), (add_edge_lookup _ _ _ u Hadd).
    destruct (g0 !! u); simpl; [|done]. by rewrite <- app_assoc.
Qed.

Lemma initial_graph_lookup (cities : list string) u :
  (list_to_map ((λ c : string, (c, @nil (string * Z))) <$> cities)
     : gmap string (list (string * Z))) !! u
  = if decide (u ∈ cities) then Some [] else None.
Proof.
  destruct (decide (u ∈ cities)) as [Hin|Hout].
  - destruct (list_to_map _ !! u) as [l|] eqn:Hl.
    + apply elem_of_list_to_map_2, list_elem_of_fmap in Hl as (c & [= -> ->] & _). done.
    + apply not_elem_of_list_to_map in Hl. destruct Hl.
      rewrite <- list_fmap_compose. apply list_elem_of_fmap. by exists u.
  - apply not_elem_of_list_to_map. rewrite <- list_fmap_compose.
    intros (c & -> & Hc)%list_elem_of_fmap. done.
Qed.

(** X1: The adjacency list of a city holds, in the order of the edge list, one
    item for each edge end at that city; names that are not cities are not
    keys. *)
Theorem build_graph_lookup cities edges g u :
  build_graph cities edges = Ok g →
  g !! u = if decide (u ∈ cities)
           then Some (concat (incident u <$> edges))
           else None.
Proof.
  intros Hb. unfold build_graph in Hb.
  rewrite (for_each_add_edge_lookup _ _ _ u Hb), initial_graph_lookup.
  by destruct (decide (u ∈ cities)).
Qed.

Lemma build_graph_lookup_witness :
  Poland.graph !! "Plock"%string
  = if decide ("Plock"%string ∈ Poland.cities)
    then Some (concat (incident "Plock" <$> Poland.edges))
    else None.
Proof. apply build_graph_lookup. reflexivity. Defined.

Lemma for_each_add_edge_edges edges g0 g u v w :
  for_each edges add_edge g0 = Ok g →
  edge g u v w ↔ edge g0 u v w ∨ (u, v, w) ∈ edges ∨ (v, u, w) ∈ edges.
Proof.
  revert g0. induction edges as [|e edges IH]; intros g0; simpl.
  - intros [= <-]. split; [by left|]. intros [?|[?%elem_of_nil|?%elem_of_nil]]; done.
  - destruct (add_edge g0 e) as [g1|] eqn:Hadd; [|done]. simpl.
    intros Hrest. rewrite (IH _ Hrest).
    apply add_edge_edge in Hadd as [_ Hedge]. rewrite Hedge.
    rewrite !elem_of_cons. destruct e as [[c1 c2] d]. simpl.
    split.
    + intros [[?|[Heq|Heq]]|[?|?]]; auto.
      injection Heq as -> -> ->. auto.
    + intros [?|[[Heq|?]|[Heq|?]]]; auto.
      injection Heq as -> -> ->. auto.
Qed.

(** X2: [(v, w)] is listed under [u] exactly when the edge list joins [u] and
    [v] with weight [w], in either direction. *)
Theorem build_graph_edges cities edges g u v w :
  build_graph cities edges = Ok g →
  edge g u v w ↔ (u, v, w) ∈ edges ∨ (v, u, w) ∈ edges.
Proof.
  intros Hb. unfold build_graph in Hb.
  rewrite (for_each_add_edge_edges _ _ _ u v w Hb). split; [|auto].
  intros [(adj & Hadj & Hin)|?]; [|done].
  rewrite initial_graph_lookup in Hadj. destruct (decide (u ∈ cities)); [|done].
  injection Hadj as <-. by apply elem_of_nil in Hin.
Qed.

Lemma build_graph_edges_witness :
  edge Poland.graph "Plock" "Warsaw" 130
  ↔ ("Plock"%string, "Warsaw"%string, 130) ∈ Poland.edges
    ∨ ("Warsaw"%string, "Plock"%string, 130) ∈ Poland.edges.
Proof. apply (build_graph_edges Poland.cities). reflexivity. Defined.

(** X3: Building the graph succeeds when every end of every edge is a city,
    and otherwise raises [KeyError] for an end that is no city. *)
Theorem build_graph_outcome cities edges :
  ((∀ e, e ∈ edges → e.1.1 ∈ cities ∧ e.1.2 ∈ cities) →
   ∃ g, build_graph cities edges = Ok g) ∧
  (∀ err, build_graph cities edges = Err err →
     ∃ e, e ∈ edges ∧
          ((err = KeyError e.1.1 ∧ e.1.1 ∉ cities) ∨
           (err = KeyError e.1.2 ∧ e.1.2 ∉ cities))).
Proof.
  unfold build_graph.
  assert (∀ g0 : gmap string (list (string * Z)),
            (∀ u, is_Some (g0 !! u) ↔ u ∈ cities) →
            ((∀ e, e ∈ edges → e.1.1 ∈ cities ∧ e.1.2 ∈ cities) →
             ∃ g, for_each edges add_edge g0 = Ok g) ∧
            (∀ err, for_each edges add_edge g0 = Err err →
               ∃ e, e ∈ edges ∧
                    ((err = KeyError e.1.1 ∧ e.1.1 ∉ cities) ∨
                     (err = KeyError e.1.2 ∧ e.1.2 ∉ cities)))) as Hgen.
  { induction edges as [|e edges IH]; intros g0 Hkeys; simpl.
    - split; [by eexists|done].
    - destruct (add_edge g0 e) as [g1|err1] eqn:Hadd; simpl.
      + assert (∀ u, is_Some (g1 !! u) ↔ u ∈ cities) as Hkeys1.
        { intros u. rewrite (add_edge_lookup _ _ _ u Hadd), <- Hkeys.
          by rewrite fmap_is_Some. }
        destruct (IH g1 Hkeys1) as [Hok Herr]. split.
        * intros Hall. apply Hok. intros e' He'. apply Hall. by right.
        * intros err Hrun. destruct (Herr err Hrun) as (e' & He' & Hcase).
          exists e'. split; [by right|done].
      + split.
        * intros Hall. destruct (Hall e) as [H1 H2]; [by left|].
          apply Hkeys in H1 as [l1 H1]. destruct e as [[c1 c2] d].
          unfold add_edge, dict_get in Hadd. simpl in *. rewrite H1 in Hadd. simpl in Hadd.
          destruct (decide (c1 = c2)) as [->|Hne].
          -- by rewrite lookup_insert_eq in Hadd.
          -- rewrite lookup_insert_ne in Hadd by done.
             apply Hkeys in H2 as [l2 H2]. by rewrite H2 in Hadd.
        * intros err [= <-]. exists e. split; [by left|].
          destruct e as [[c1 c2] d]. unfold add_edge, dict_get in Hadd. simpl in *.
          destruct (g0 !! c1) as [l1|] eqn:H1; simpl in Hadd.
          -- right. destruct (<[c1:=l1 ++ [(c2, d)]]> g0 !! c2) as [l2|] eqn:H2; [done|].
             simpl in Hadd. injection Hadd as <-. split; [done|].
             intros [l2 Hl2]%Hkeys.
             destruct (decide (c1 = c2)) as [->|Hne].
             ++ by rewrite lookup_insert_eq in H2.
             ++ rewrite lookup_insert_ne in H2 by done. congruence.
          -- left. injection Hadd as <-. split; [done|].
             intros [l1 Hl1]%Hkeys. congruence. }
  apply Hgen. intros u. rewrite initial_graph_lookup.
  destruct (decide (u ∈ cities)); split; intros H; done || by destruct H.
Qed.

Lemma build_graph_outcome_witness :
  ∃ g, build_graph Poland.cities Poland.edges = Ok g.
Proof.
  apply (proj1 (build_graph_outcome Poland.cities Poland.edges)).
  apply Forall_forall. by_evaluation.
Defined.

(** X4: Every graph built from an edge list is undirected and lists only its
    own keys as neighbours. *)
Theorem build_graph_well_formed cities edges g :
  build_graph cities edges = Ok g → undirected g ∧ graph_closed g.
Proof.
  intros Hb. split; [by eapply build_graph_undirected | by eapply build_graph_closed].
Qed.

Lemma build_graph_well_formed_witness :
  undirected Poland.graph ∧ graph_closed Poland.graph.
Proof. apply (build_graph_well_formed Poland.cities Poland.edges). reflexivity. Defined.

(** ** When the searches raise *)

Lemma while_loop_raises {S R : Type} (body : S → step_result S R)
    (I : S → Prop) (Q : exception → Prop) :
  (∀ s s', I s → body s = Continue s' → I s') →
  (∀ s e, I s → body s = Raise e → Q e) →
  ∀ fuel s e, I s → while_loop fuel body s = Raised e → Q e.
Proof.
  intros Hstep Hraise. induction fuel as [|fuel IH]; intros s e Hs; simpl; [done|].
  destruct (body s) as [s'|r|e'] eqn:Hb; [|done|].
  - apply IH. eauto.
  - intros [= <-]. eauto.
Qed.

Lemma bfs_body_raises graph start goal st e :
  search_inv graph start goal st → bfs_body graph goal st = Raise e →
  ∃ k p c, e = KeyError k ∧ graph !! k = None ∧ k ≠ goal ∧ walk graph start p k c.
Proof.
  intros (Hopen & _). destruct st as [open closed steps]. unfold bfs_body. simpl in *.
  destruct open as [|[u p] rest]; [done|].
  destruct (decide (u ∈ closed)); [done|].
  destruct (decide (u = goal)); [done|].
  destruct (graph !! u) as [adj|] eqn:Hadj; [done|].
  intros [= <-]. destruct (Hopen u p) as [c Hw]; [by left|]. by exists u, p, c.
Qed.

Lemma dfs_body_raises graph start goal st e :
  search_inv graph start goal st → dfs_body graph goal st = Raise e →
  ∃ k p c, e = KeyError k ∧ graph !! k = None ∧ k ≠ goal ∧ walk graph start p k c.
Proof.
  intros (Hopen & _). destruct st as [open closed steps]. unfold dfs_body. simpl in *.
  destruct (list_pop open) as [[rest [u p]]|] eqn:Hpop; [|done].
  apply list_pop_spec in Hpop as ->.
  destruct (decide (u ∈ closed)); [done|].
  destruct (decide (u = goal)); [done|].
  destruct (graph !! u) as [adj|] eqn:Hadj; [done|].
  intros [= <-]. destruct (Hopen u p) as [c Hw].
  { apply elem_of_app. right. by left. }
  by exists u, p, c.
Qed.

(** X5: [bfs] and [dfs] end on every graph, and the only exception they raise
    is [KeyError] for a name that is not a key of the graph, is not the
    goal, and is the end of a path from start. *)
Theorem bfs_dfs_outcome graph start goal :
  bfs graph start goal ≠ OutOfFuel ∧
  dfs graph start goal ≠ OutOfFuel ∧
  (∀ e, bfs graph start goal = Raised e ∨ dfs graph start goal = Raised e →
        ∃ k p, e = KeyError k ∧ graph !! k = None ∧ k ≠ goal ∧
               is_path graph start k p).
Proof.
  split; [apply bfs_terminates|]. split; [apply dfs_terminates|].
  intros e Hrun.
  pose (Q := λ e : exception,
            ∃ k p c, e = KeyError k ∧ graph !! k = None ∧ k ≠ goal ∧
                     walk graph start p k c).
  assert (Q e) as (k & p & c & -> & Hk & Hne & Hw).
  { destruct Hrun as [Hrun|Hrun]; revert Hrun.
    - apply (while_loop_raises (bfs_body graph goal) (search_inv graph start goal) Q).
      + intros s s'. apply bfs_body_inv.
      + intros s e'. apply bfs_body_raises.
      + apply search_inv_init.
    - apply (while_loop_raises (dfs_body graph goal) (search_inv graph start goal) Q).
      + intros s s'. apply dfs_body_inv.
      + intros s e'. apply dfs_body_raises.
      + apply search_inv_init. }
  exists k, p. split; [done|]. split; [done|]. split; [done|].
  by eapply weighted_path_is_path, walk_weighted_path.
Qed.

Lemma bfs_dfs_outcome_witness :
  ∃ k p, KeyError "X" = KeyError k ∧ Poland.graph !! k = None ∧ k ≠ "Plock"%string ∧
         is_path Poland.graph "X" k p.
Proof.
  apply (proj2 (proj2 (bfs_dfs_outcome Poland.graph "X" "Plock"))).
  left. reflexivity.
Defined.

Lemma for_each_relax_raises heuristic closed g path adj s e :
  for_each adj (relax heuristic closed g path) s = Err e →
  ∃ v w, (v, w) ∈ adj ∧ (v ∉ closed) ∧ e = KeyError v ∧ heuristic !! v = None.
Proof.
  revert s. induction adj as [|[v w] adj IH]; intros s; simpl; [done|].
  destruct (relax heuristic closed g path s (v, w)) as [s1|e1] eqn:Hone; simpl.
  - intros (v' & w' & Hin & Hrest)%IH. exists v', w'. split; [by right|done].
  - intros [= <-]. exists v, w. split; [by left|].
    destruct s as [gc open]. unfold relax, dict_get in Hone.
    destruct (decide (v ∈ closed)); [done|]. split; [done|].
    destruct (heuristic !! v) eqn:Hh;
      (destruct (gc !! v); [case_bool_decide|]); by simplify_eq/=.
Qed.

Lemma astar_body_raises graph heuristic start goal st e :
  astar_inv graph heuristic start goal st →
  astar_body graph heuristic goal st = Raise e →
  ∃ k p c, e = KeyError k ∧ (graph !! k = None ∨ heuristic !! k = None) ∧
           walk graph start p k c.
Proof.
  intros (Hopen & _). unfold astar_body.
  destruct (heappop (as_open st)) as [[[[[f g] u] p] rest]|] eqn:Hpop; [|done].
  apply heappop_spec in Hpop as [Hperm _].
  destruct (Hopen (f, g, u, p)) as (Hw & Hh & _); [rewrite Hperm; by left|].
  unfold e_path, e_node, e_g, e_f in Hw, Hh. simpl in Hw, Hh.
  destruct (decide (u ∈ as_closed st)); [done|]. rewrite Hh.
  destruct (decide (u = goal)); [done|].
  destruct (graph !! u) as [adj|] eqn:Hadj.
  - destruct (for_each adj _ _) as [[gc' open']|e'] eqn:Hrel; [done|].
    intros [= <-].
    apply for_each_relax_raises in Hrel as (v & w & Hin & _ & -> & Hv).
    exists v, (p ++ [v]), (g + w). split; [done|]. split; [by right|].
    econstructor; [done|]. by exists adj.
  - intros [= <-]. exists u, p, g. split; [done|]. split; [by left|done].
Qed.

(** X6: [astar] ends on every graph and table, and the only exception it
    raises is [KeyError] for the end of a path from start that has no
    adjacency list or no heuristic entry. *)
Theorem astar_outcome graph heuristic start goal :
  astar graph heuristic start goal ≠ OutOfFuel ∧
  (∀ e, astar graph heuristic start goal = Raised e →
        ∃ k p, e = KeyError k ∧ (graph !! k = None ∨ heuristic !! k = None) ∧
               is_path graph start k p).
Proof.
  split; [apply astar_terminates|]. intros e Hrun.
  pose (Q := λ e : exception,
            ∃ k p c, e = KeyError k ∧ (graph !! k = None ∨ heuristic !! k = None) ∧
                     walk graph start p k c).
  assert (Q e) as (k & p & c & -> & Hk & Hw).
  { revert Hrun. unfold astar. destruct (heuristic !! start) as [h0|] eqn:Hh.
    - apply (while_loop_raises (astar_body graph heuristic goal)
               (astar_inv graph heuristic start goal) Q).
      + intros s s'. apply astar_body_inv.
      + intros s e'. apply astar_body_raises.
      + by apply astar_inv_init.
    - intros [= <-]. exists start, [start], 0. split; [done|]. split; [by right|constructor]. }
  exists k, p. split; [done|]. split; [done|].
  by eapply weighted_path_is_path, walk_weighted_path.
Qed.

Lemma astar_outcome_witness :
  ∃ k p, KeyError "B" = KeyError k ∧
         (Gap.graph !! k = None ∨ Gap.heuristic !! k = None) ∧
         is_path Gap.graph "A" k p.
Proof.
  apply (proj2 (astar_outcome Gap.graph Gap.heuristic "A" "B")). reflexivity.
Defined.

(** ** Returned paths repeat no node *)

Lemma open_simple_mono closed closed' u p :
  closed ⊆ closed' → open_simple closed u p → open_simple closed' u p.
Proof.
  intros Hsub [Hnd Hin]. split; [done|]. intros x Hx.
  destruct (Hin x Hx); auto.
Qed.

Lemma open_simple_extend closed u p v :
  open_simple closed u p → v ∉ {[u]} ∪ closed →
  open_simple ({[u]} ∪ closed) v (p ++ [v]).
Proof.
  intros [Hnd Hin] Hv.
  assert (∀ x, x ∈ p → x ∈ {[u]} ∪ closed) as Hp.
  { intros x Hx. apply elem_of_union. destruct (Hin x Hx) as [->|?]; [left|by right].
    by apply elem_of_singleton. }
  split.
  - apply NoDup_app. split; [done|]. split; [|apply NoDup_singleton].
    intros x Hx ->%list_elem_of_singleton. by apply Hv, Hp.
  - intros x [Hx| ->%list_elem_of_singleton]%elem_of_app; [right; by apply Hp|by left].
Qed.

Lemma paths_simple_skip open closed steps e rest :
  paths_simple (SearchState open closed steps) → open ≡ₚ e :: rest →
  paths_simple (SearchState rest closed steps).
Proof.
  intros Hs Hperm u p Hin. apply Hs. simpl in *. rewrite Hperm. by right.
Qed.

Lemma paths_simple_expand open closed steps steps' u p rest nbs :
  paths_simple (SearchState open closed steps) → open ≡ₚ (u, p) :: rest →
  paths_simple (SearchState (foldl (push_neighbor ({[u]} ∪ closed) p) rest nbs)
                  ({[u]} ∪ closed) steps').
Proof.
  intros Hs Hperm v q. simpl in *.
  rewrite foldl_push_neighbor, elem_of_app, list_elem_of_fmap.
  intros [Hin|([v' w] & [= -> ->] & [Hv _]%list_elem_of_filter)].
  - eapply open_simple_mono; [|apply Hs; simpl; rewrite Hperm; by right].
    apply union_subseteq_r.
  - simpl in *. apply open_simple_extend; [|done].
    apply Hs. simpl. rewrite Hperm. by left.
Qed.

Lemma paths_simple_init start : paths_simple (SearchState [(start, [start])] ∅ []).
Proof.
  intros u p [= -> ->]%list_elem_of_singleton. split; [apply NoDup_singleton|].
  intros x ->%list_elem_of_singleton. by left.
Qed.

Lemma bfs_body_simple graph goal st st' :
  paths_simple st → bfs_body graph goal st = Continue st' → paths_simple st'.
Proof.
  destruct st as [open closed steps]. unfold bfs_body. simpl.
  destruct open as [|[u p] rest]; [done|]. intros Hs.
  destruct (decide (u ∈ closed)).
  { intros [= <-]. by eapply paths_simple_skip. }
  destruct (decide (u = goal)); [done|].
  destruct (graph !! u) as [adj|]; [|done].
  intros [= <-]. by eapply paths_simple_expand.
Qed.

Lemma dfs_body_simple graph goal st st' :
  paths_simple st → dfs_body graph goal st = Continue st' → paths_simple st'.
Proof.
  destruct st as [open closed steps]. unfold dfs_body. simpl.
  destruct (list_pop open) as [[rest [u p]]|] eqn:Hpop; [|done].
  apply list_pop_spec in Hpop as ->. intros Hs.
  assert (rest ++ [(u, p)] ≡ₚ (u, p) :: rest) as Hperm.
  { by rewrite Permutation_app_comm. }
  destruct (decide (u ∈ closed)).
  { intros [= <-]. by eapply paths_simple_skip. }
  destruct (decide (u = goal)); [done|].
  destruct (graph !! u) as [adj|]; [|done].
  intros [= <-]. by eapply paths_simple_expand.
Qed.

Lemma bfs_body_simple_post graph goal st p steps :
  paths_simple st → bfs_body graph goal st = Return (Some p, steps) → NoDup p.
Proof.
  destruct st as [open closed steps0]. unfold bfs_body. simpl.
  destruct open as [|[u q] rest]; [done|]. intros Hs.
  destruct (decide (u ∈ closed)); [done|].
  destruct (decide (u = goal)); [|by destruct (graph !! u)].
  intros [= <- _]. apply (Hs u q). by left.
Qed.

Lemma dfs_body_simple_post graph goal st p steps :
  paths_simple st → dfs_body graph goal st = Return (Some p, steps) → NoDup p.
Proof.
  destruct st as [open closed steps0]. unfold dfs_body. simpl.
  destruct (list_pop open) as [[rest [u q]]|] eqn:Hpop; [|done].
  apply list_pop_spec in Hpop as ->. intros Hs.
  destruct (decide (u ∈ closed)); [done|].
  destruct (decide (u = goal)); [|by destruct (graph !! u)].
  intros [= <- _]. apply (Hs u q). simpl. apply elem_of_app. right. by left.
Qed.

(** X7: Whatever the graph, a path returned by [bfs] or by [dfs] is a path of
    the graph from start to goal that passes through no node twice. *)
Theorem bfs_dfs_path_simple graph start goal p steps :
  bfs graph start goal = Done (Some p, steps) ∨
  dfs graph start goal = Done (Some p, steps) →
  is_path graph start goal p ∧ NoDup p.
Proof.
  intros Hrun. split.
  - assert (search_post graph start goal (Some p, steps)) as [_ [c Hw]].
    { destruct Hrun as [Hrun|Hrun]; [by apply bfs_post | by apply dfs_post]. }
    by eapply weighted_path_is_path, walk_weighted_path.
  - pose (Q := λ res : option (list string) * list step,
              match res.1 with Some q => NoDup q | None => True end).
    assert (Q (Some p, steps)) as HQ; [|done].
    destruct Hrun as [Hrun|Hrun]; revert Hrun.
    + apply (while_loop_returns (bfs_body graph goal) paths_simple
               (bfs_body_simple graph goal) Q).
      * intros s [[q|] steps'] Hs Hb; [|done]. by eapply bfs_body_simple_post.
      * apply paths_simple_init.
    + apply (while_loop_returns (dfs_body graph goal) paths_simple
               (dfs_body_simple graph goal) Q).
      * intros s [[q|] steps'] Hs Hb; [|done]. by eapply dfs_body_simple_post.
      * apply paths_simple_init.
Qed.

Lemma bfs_dfs_path_simple_witness :
  is_path Poland.graph "Glogow" "Plock"
    ["Glogow"; "Leszno"; "Kalisz"; "Lodz"; "Warsaw"; "Plock"]%string ∧
  NoDup ["Glogow"; "Leszno"; "Kalisz"; "Lodz"; "Warsaw"; "Plock"]%string.
Proof.
  apply (bfs_dfs_path_simple Poland.graph "Glogow" "Plock" _ Poland.bfs_run.2).
  left. vm_compute. reflexivity.
Defined.

Lemma astar_body_simple graph heuristic goal st st' :
  astar_paths_simple st → astar_body graph heuristic goal st = Continue st' →
  astar_paths_simple st'.
Proof.
  intros Hs (f & g & u & p & rest & Hpop & Hcase)%astar_body_continue.
  apply heappop_spec in Hpop as [Hperm _].
  destruct Hcase as [[Hu ->]|(Hu & Hne & h & adj & gc' & open' & Hh & Hadj & Hrel & ->)].
  - intros e He. apply Hs. rewrite Hperm. by right.
  - apply for_each_relax in Hrel as (new & Ho & _ & Hnew & _). simpl in Ho. subst open'.
    intros e [He|He]%elem_of_app; simpl.
    + eapply open_simple_mono; [apply union_subseteq_r|].
      apply Hs. rewrite Hperm. by right.
    + destruct (Hnew e He) as (v & w & hv & _ & Hv & _ & -> & _).
      unfold e_node, e_path. simpl. apply open_simple_extend; [|done].
      apply (Hs (f, g, u, p)). rewrite Hperm. by left.
Qed.

(** X8: Whatever the graph and the table, a path returned by [astar] passes
    through no node twice. *)
Theorem astar_path_simple graph heuristic start goal p c steps :
  astar graph heuristic start goal = Done (Some p, c, steps) → NoDup p.
Proof.
  pose (Q := λ res : option (list string) * Z * list astar_step,
            match res.1.1 with Some q => NoDup q | None => True end).
  intros Hrun. assert (Q (Some p, c, steps)) as HQ; [|done].
  revert Hrun. unfold astar. destruct (heuristic !! start) as [h0|]; [|done].
  apply (while_loop_returns (astar_body graph heuristic goal) astar_paths_simple
           (astar_body_simple graph heuristic goal) Q).
  - intros s [[[q|] c'] steps'] Hs Hb; [|done]. unfold Q. simpl.
    unfold astar_body in Hb.
    destruct (heappop (as_open s)) as [[[[[f g] u] p'] rest]|] eqn:Hpop; [|done].
    apply heappop_spec in Hpop as [Hperm _].
    destruct (decide (u ∈ as_closed s)); [done|].
    destruct (heuristic !! u); [|done].
    destruct (decide (u = goal)).
    + injection Hb as <- _ _. apply (Hs (f, g, u, p')). rewrite Hperm. by left.
    + destruct (graph !! u); [|done]. by destruct (for_each _ _ _) as [[? ?]|].
  - intros e ->%list_elem_of_singleton. split; [apply NoDup_singleton|].
    intros x ->%list_elem_of_singleton. by left.
Qed.

Lemma astar_path_simple_witness :
  NoDup ["Glogow"; "Leszno"; "Poznan"; "Bydgoszcz"; "Wloclawek"; "Plock"]%string.
Proof.
  apply (astar_path_simple Poland.graph Poland.heuristic "Glogow" "Plock" _ 440
           Poland.astar_run.2).
  vm_compute. reflexivity.
Defined.

(** ** The recorded trace *)

Lemma trace_ok_snoc graph start steps s :
  trace_ok graph start steps →
  step_closed s = {[step_current s]} ∪ list_to_set (step_current <$> steps) →
  is_path graph start (step_current s) (step_path s) →
  (steps = [] → step_current s = start ∧ step_path s = [start] ∧ step_open s = []) →
  trace_ok graph start (steps ++ [s]).
Proof.
  intros Hok Hcl Hp Hfirst i s' Hi.
  destruct (decide (i < length steps)%nat) as [Hlt|Hge].
  - rewrite lookup_app_l in Hi by done. rewrite take_app_le by lia. by apply Hok.
  - rewrite lookup_app_r in Hi by lia.
    apply list_lookup_singleton_Some in Hi as [Hi ->].
    assert (i = length steps) as -> by lia.
    rewrite take_ge by (rewrite length_app; simpl; lia).
    split; [|split; [done|]].
    + rewrite Hcl, fmap_app, list_to_set_app_L. simpl.
      rewrite union_empty_r_L. apply union_comm_L.
    + intros Hz. apply Hfirst. by destruct steps.
Qed.

Lemma trace_inv_init graph start : trace_inv graph start (SearchState [(start, [start])] ∅ []).
Proof. split; [|done]. intros i s Hi. simpl in Hi. by destruct i. Qed.

Lemma trace_inv_expand graph start goal open closed steps u p rest open' :
  search_inv graph start goal (SearchState open closed steps) →
  trace_inv graph start (SearchState open closed steps) →
  open ≡ₚ (u, p) :: rest →
  trace_inv graph start
    (SearchState open' ({[u]} ∪ closed) (steps ++ [Step u p (rest.*1) ({[u]} ∪ closed)])).
Proof.
  intros (Hopen & _) (Hok & Hcl & Hfirst) Hperm. simpl in *.
  assert (∃ c, walk graph start p u c) as [c Hw].
  { apply Hopen. rewrite Hperm. by left. }
  split; [|split].
  - apply trace_ok_snoc; simpl; [done|by rewrite Hcl| |].
    + by eapply weighted_path_is_path, walk_weighted_path.
    + intros Hnil. rewrite (Hfirst Hnil) in Hperm.
      apply Permutation_singleton_l in Hperm. by simplify_eq/=.
  - simpl. rewrite Hcl, fmap_app, list_to_set_app_L. simpl.
    rewrite union_empty_r_L. apply union_comm_L.
  - simpl. intros Hnil. by destruct steps.
Qed.

Lemma trace_inv_skip graph start open closed steps u rest :
  trace_inv graph start (SearchState open closed steps) → u ∈ closed →
  trace_inv graph start (SearchState rest closed steps).
Proof.
  intros (Hok & Hcl & Hfirst) Hu. simpl in *. split; [done|]. split; [done|].
  simpl. intros Hnil. subst steps. simpl in Hcl. rewrite Hcl in Hu.
  by apply not_elem_of_empty in Hu.
Qed.

Lemma bfs_body_trace graph start goal st st' :
  search_inv graph start goal st ∧ trace_inv graph start st →
  bfs_body graph goal st = Continue st' →
  search_inv graph start goal st' ∧ trace_inv graph start st'.
Proof.
  intros [Hinv Htr] Hb. split; [by eapply bfs_body_inv|].
  destruct st as [open closed steps]. unfold bfs_body in Hb. simpl in Hb.
  destruct open as [|[u p] rest]; [done|].
  destruct (decide (u ∈ closed)).
  { injection Hb as <-. by eapply trace_inv_skip. }
  destruct (decide (u = goal)); [done|].
  destruct (graph !! u) as [adj|]; [|done].
  injection Hb as <-. by eapply trace_inv_expand.
Qed.


Lemma search_inv_goal_fresh graph start goal st :
  search_inv graph start goal st → goal ∉ step_current <$> st_steps st.
Proof.
  intros (_ & _ & _ & Hsteps & _) (s & Hg & Hs)%list_elem_of_fmap.
  by destruct (Hsteps s Hs) as [Hne _].
Qed.

Lemma bfs_body_trace_post graph start goal st r steps :
  search_inv graph start goal st ∧ trace_inv graph start st →
  bfs_body graph goal st = Return (r, steps) →
  trace_ok graph start steps ∧ trace_ends goal r steps.
Proof.
  intros [Hinv Htr] Hb. pose proof (search_inv_goal_fresh _ _ _ _ Hinv) as Hfresh.
  destruct st as [open closed steps0]. unfold bfs_body in Hb. simpl in *.
  destruct open as [|[u p] rest].
  { injection Hb as <- <-. split; [apply Htr|done]. }
  destruct (decide (u ∈ closed)); [done|].
  destruct (decide (u = goal)) as [->|]; [|by destruct (graph !! u)].
  injection Hb as <- <-. split.
  - by eapply (trace_inv_expand _ _ _ _ _ _ goal p rest []).
  - by eexists _, _.
Qed.




Lemma astar_trace_ok_snoc graph heuristic start steps s :
  astar_trace_ok graph heuristic start steps →
  astep_closed s = {[astep_current s]} ∪ list_to_set (astep_current <$> steps) →
  weighted_path graph start (astep_current s) (astep_path s) (astep_g_cost s) →
  heuristic !! astep_current s = Some (astep_h_cost s) →
  astep_f_cost s = astep_g_cost s + astep_h_cost s →
  (steps = [] → astep_current s = start ∧ astep_path s = [start] ∧ astep_g_cost s = 0) →
  astar_trace_ok graph heuristic start (steps ++ [s]).
Proof.
  intros Hok Hcl Hp Hh Hf Hfirst i s' Hi.
  destruct (decide (i < length steps)%nat) as [Hlt|Hge].
  - rewrite lookup_app_l in Hi by done. rewrite take_app_le by lia. by apply Hok.
  - rewrite lookup_app_r in Hi by lia.
    apply list_lookup_singleton_Some in Hi as [Hi ->].
    assert (i = length steps) as -> by lia.
    rewrite take_ge by (rewrite length_app; simpl; lia).
    split; [|split; [done|split; [done|split; [done|]]]].
    + rewrite Hcl, fmap_app, list_to_set_app_L. simpl.
      rewrite union_empty_r_L. apply union_comm_L.
    + intros Hz. apply Hfirst. by destruct steps.
Qed.

Lemma astar_trace_inv_close graph heuristic start goal st f g u p h rest gc' open' :
  astar_inv graph heuristic start goal st →
  astar_trace_inv graph heuristic start st →
  as_open st ≡ₚ (f, g, u, p) :: rest → heuristic !! u = Some h →
  astar_trace_inv graph heuristic start
    (AStarState open' ({[u]} ∪ as_closed st) gc'
       (as_steps st ++ [AStep u p f g h ({[u]} ∪ as_closed st)])).
Proof.
  intros (Hopen & _) (Hok & Hcl & Hfirst) Hperm Hh.
  destruct (Hopen (f, g, u, p)) as (Hw & Hhu & _); [rewrite Hperm; by left|].
  unfold e_path, e_node, e_g, e_f in Hw, Hhu. simpl in Hw, Hhu.
  split; [|split]; simpl.
  - apply astar_trace_ok_snoc; simpl; [done|by rewrite Hcl| |done| |].
    + by apply walk_weighted_path.
    + assert (h = f - g) by congruence. lia.
    + intros Hnil. destruct (Hfirst Hnil) as [h0 Hopen0]. rewrite Hopen0 in Hperm.
      apply Permutation_singleton_l in Hperm. by simplify_eq/=.
  - rewrite Hcl, fmap_app, list_to_set_app_L. simpl.
    rewrite union_empty_r_L. apply union_comm_L.
  - intros Hnil. by destruct (as_steps st).
Qed.

Lemma astar_body_trace graph heuristic start goal st st' :
  astar_inv graph heuristic start goal st ∧ astar_trace_inv graph heuristic start st →
  astar_body graph heuristic goal st = Continue st' →
  astar_inv graph heuristic start goal st' ∧ astar_trace_inv graph heuristic start st'.
Proof.
  intros [Hinv Htr] Hb. split; [by eapply astar_body_inv|].
  apply astar_body_continue in Hb as (f & g & u & p & rest & Hpop & Hcase).
  apply heappop_spec in Hpop as [Hperm _].
  destruct Hcase as [[Hu ->]|(Hu & Hne & h & adj & gc' & open' & Hh & Hadj & Hrel & ->)].
  - destruct Htr as (Hok & Hcl & Hfirst). split; [done|]. split; [done|]. simpl.
    intros Hnil. rewrite Hcl, Hnil in Hu. by apply not_elem_of_empty in Hu.
  - by eapply astar_trace_inv_close.
Qed.

Lemma astar_inv_goal_fresh graph heuristic start goal st :
  astar_inv graph heuristic start goal st → goal ∉ astep_current <$> as_steps st.
Proof. intros (_ & _ & Hcl & Hgoal & _) Hin. by apply Hgoal, Hcl. Qed.

Lemma astar_body_trace_post graph heuristic start goal st r c steps :
  astar_inv graph heuristic start goal st ∧ astar_trace_inv graph heuristic start st →
  astar_body graph heuristic goal st = Return (r, c, steps) →
  astar_trace_ok graph heuristic start steps ∧ astar_trace_ends goal r c steps.
Proof.
  intros [Hinv Htr] Hb. pose proof (astar_inv_goal_fresh _ _ _ _ _ Hinv) as Hfresh.
  unfold astar_body in Hb.
  destruct (heappop (as_open st)) as [[[[[f g] u] p] rest]|] eqn:Hpop.
  - apply heappop_spec in Hpop as [Hperm _].
    destruct (decide (u ∈ as_closed st)); [done|].
    destruct (heuristic !! u) as [h|] eqn:Hh; [|done].
    destruct (decide (u = goal)) as [->|].
    + injection Hb as <- <- <-. split.
      * by eapply (astar_trace_inv_close _ _ _ _ _ f g goal p h rest ∅ []).
      * by eexists _, _.
    + destruct (graph !! u); [|done]. by destruct (for_each _ _ _) as [[? ?]|].
  - injection Hb as <- <- <-. split; [apply Htr|done].
Qed.



(** ** The order in which [bfs] expands *)

Lemma StronglySorted_snoc {A : Type} (R : A → A → Prop) l x :
  StronglySorted R l → (∀ y, y ∈ l → R y x) → StronglySorted R (l ++ [x]).
Proof.
  intros Hl Hx. apply StronglySorted_app. split; [|split; [done|]].
  - intros a b Ha ->%list_elem_of_singleton. by apply Hx.
  - repeat constructor.
Qed.

Lemma bfs_body_order graph start goal st st' :
  (search_inv graph start goal st ∧ bfs_levels graph start st) ∧ bfs_order st →
  bfs_body graph goal st = Continue st' →
  (search_inv graph start goal st' ∧ bfs_levels graph start st') ∧ bfs_order st'.
Proof.
  intros [Hil [Hsorted Hle]] Hb. split; [by eapply bfs_body_levels|].
  destruct Hil as [_ (Hq & _ & _)].
  destruct st as [open closed steps]. unfold bfs_body in Hb. simpl in *.
  destruct open as [|[u p] rest]; [done|].
  apply StronglySorted_cons in Hq as [Hmin _]. rewrite Forall_forall in Hmin.
  destruct (decide (u ∈ closed)).
  { injection Hb as <-. split; [done|]. simpl. intros s x Hs Hx. apply Hle; [done|by right]. }
  destruct (decide (u = goal)); [done|].
  destruct (graph !! u) as [adj|]; [|done].
  injection Hb as <-. split; simpl.
  - apply StronglySorted_snoc; [done|]. intros s Hs. apply (Hle s (u, p)); [done|by left].
  - intros s x Hs. rewrite foldl_push_neighbor, elem_of_app, list_elem_of_fmap.
    assert (length (step_path s) ≤ length p)%nat as Hsp.
    { apply elem_of_app in Hs as [Hs| ->%list_elem_of_singleton]; [|done].
      apply (Hle s (u, p)); [done|by left]. }
    intros [Hx|([v w] & -> & _)].
    + specialize (Hmin x Hx). unfold path_len_le in Hmin. simpl in Hmin. lia.
    + simpl. rewrite length_app. simpl. lia.
Qed.

Lemma bfs_body_order_post graph start goal st r steps :
  (search_inv graph start goal st ∧ bfs_levels graph start st) ∧ bfs_order st →
  bfs_body graph goal st = Return (r, steps) →
  bfs_trace_levels graph start steps.
Proof.
  intros [[Hinv Hlev] [Hsorted Hle]] Hb.
  assert (∀ s q, s ∈ st_steps st → is_path graph start (step_current s) q →
                 (hops (step_path s) ≤ hops q)%nat) as Hold.
  { intros s q Hs [c Hq]%is_path_weighted. apply weighted_path_walk in Hq.
    destruct Hlev as (_ & _ & Hshort). specialize (Hshort s q c Hs Hq). unfold hops. lia. }
  destruct st as [open closed steps0]. unfold bfs_body in Hb. simpl in *.
  destruct open as [|[u p] rest].
  { injection Hb as <- <-. by split. }
  destruct (decide (u ∈ closed)); [done|].
  destruct (decide (u = goal)) as [->|]; [|by destruct (graph !! u)].
  injection Hb as <- <-. split.
  - apply StronglySorted_snoc; [done|]. intros s Hs. apply (Hle s (goal, p)); [done|by left].
  - intros s q [Hs| ->%list_elem_of_singleton]%elem_of_app Hq; [by apply Hold|].
    simpl in *. apply is_path_weighted in Hq as [c Hq]. apply weighted_path_walk in Hq.
    pose proof (bfs_head_shortest graph start goal closed steps0 goal p rest q c
                  Hinv Hlev ltac:(done) Hq). unfold hops. lia.
Qed.

(** The path of every entry of a trace of [bfs] is a path of the graph
    from start to the node of the entry. *)
Lemma bfs_run_paths graph start goal r steps :
  bfs graph start goal = Done (r, steps) →
  ∀ s, s ∈ steps → is_path graph start (step_current s) (step_path s).
Proof.
  pose (Q := λ res : option (list string) * list step,
            trace_ok graph start res.2 ∧ trace_ends goal res.1 res.2).
  intros Hrun s Hs. assert (Q (r, steps)) as [Hok _].
  { revert Hrun.
    apply (while_loop_returns (bfs_body graph goal)
             (λ st, search_inv graph start goal st ∧ trace_inv graph start st)
             (bfs_body_trace graph start goal) Q).
    - intros st [r' steps']. apply bfs_body_trace_post.
    - split; [apply search_inv_init | apply trace_inv_init]. }
  apply list_elem_of_lookup in Hs as [i Hi]. by destruct (Hok i s Hi) as (_ & Hp & _).
Qed.

(** X11: Whatever the graph, [bfs] expands the nodes in order of their distance
    from start counted in edges: in the trace it returns, the path of
    every entry is a path of the graph from start to the node of that
    entry, it has the fewest edges among the paths of the graph from
    start to that node, and the lengths of these paths never decrease
    along the trace. *)
Theorem bfs_expands_by_level graph start goal r steps :
  bfs graph start goal = Done (r, steps) →
  bfs_trace_levels graph start steps ∧
  ∀ s, s ∈ steps → is_path graph start (step_current s) (step_path s).
Proof.
  pose (Q := λ res : option (list string) * list step,
            bfs_trace_levels graph start res.2).
  intros Hrun. split; [|by eapply bfs_run_paths].
  assert (Q (r, steps)) as HQ; [|done]. revert Hrun.
  apply (while_loop_returns (bfs_body graph goal)
           (λ st, (search_inv graph start goal st ∧ bfs_levels graph start st)
                  ∧ bfs_order st)
           (bfs_body_order graph start goal) Q).
  - intros s [r' steps']. apply bfs_body_order_post.
  - split; [split; [apply search_inv_init | apply bfs_levels_init]|].
    split; simpl; [constructor|]. intros s x Hs. by apply elem_of_nil in Hs.
Qed.

Lemma bfs_expands_by_level_witness :
  bfs_trace_levels Poland.graph "Glogow" Poland.bfs_run.2 ∧
  ∀ s, s ∈ Poland.bfs_run.2 →
       is_path Poland.graph "Glogow" (step_current s) (step_path s).
Proof.
  apply (bfs_expands_by_level Poland.graph "Glogow" "Plock" Poland.bfs_run.1).
  vm_compute. reflexivity.
Defined.

(** ** The order in which [astar] expands under a consistent table *)

Section AStarOrder.
Variable graph : gmap string (list (string * Z)).
Variable heuristic : gmap string Z.
Variables start goal : string.
Hypothesis graph_ok : graph_closed graph.
Hypothesis heuristic_ok : heuristic_total graph heuristic.
Hypothesis heuristic_start : is_Some (heuristic !! start).
Hypothesis heuristic_consistent : consistent graph heuristic.

Lemma astar_body_order st st' :
  (astar_inv graph heuristic start goal st ∧ astar_opt graph start st)
  ∧ astar_order graph start st →
  astar_body graph heuristic goal st = Continue st' →
  (astar_inv graph heuristic start goal st' ∧ astar_opt graph start st')
  ∧ astar_order graph start st'.
Proof.
  intros [[Hinv Hopt] (Hsorted & Hle & Hbest)] Hb.
  split; [by eapply (astar_body_opt graph heuristic start goal)|].
  apply astar_body_continue in Hb as (f & g & u & p & rest & Hpop & Hcase).
  pose proof (astar_pop_optimal graph heuristic start goal graph_ok heuristic_ok
                heuristic_start heuristic_consistent st f g u p rest Hinv Hopt Hpop)
    as Hpopbest.
  apply heappop_spec in Hpop as [Hperm Hmin].
  assert (∀ x, x ∈ as_open st ↔ x = (f, g, u, p) ∨ x ∈ rest) as Hmem.
  { intros x. rewrite Hperm. apply elem_of_cons. }
  destruct Hcase as [[Hu ->]|(Hu & Hne & h & adj & gc' & open' & Hh & Hadj & Hrel & ->)].
  - split; [done|]. split; [|done]. simpl. intros s x Hs Hx. apply Hle; [done|].
    apply Hmem. by right.
  - apply for_each_relax in Hrel as (new & Ho & _ & Hnew & _). simpl in Ho. subst open'.
    destruct (proj1 Hinv (f, g, u, p)) as (_ & Hhu & _); [apply Hmem; by left|].
    unfold e_node, e_f, e_g in Hhu. simpl in Hhu.
    assert (∀ s, s ∈ as_steps st → astep_f_cost s ≤ f) as Hsf.
    { intros s Hs. apply (Hle s (f, g, u, p) Hs). apply Hmem. by left. }
    split; [|split]; simpl.
    + apply StronglySorted_snoc; [done|]. intros s Hs. by apply Hsf.
    + intros s x Hs [Hx|Hx]%elem_of_app.
      * assert (f ≤ e_f x) as Hfx by (apply Hmin, Hmem; by right).
        apply elem_of_app in Hs as [Hs| ->%list_elem_of_singleton]; [|done].
        specialize (Hsf s Hs). lia.
      * destruct (Hnew x Hx) as (v & w & hv & Hin & _ & Hhv & -> & _).
        unfold e_f. simpl.
        assert (f - g ≤ w + hv) as Hcons.
        { eapply (consistent_edge graph heuristic heuristic_consistent u v);
            [by exists adj|done..]. }
        apply elem_of_app in Hs as [Hs| ->%list_elem_of_singleton]; simpl; [|lia].
        specialize (Hsf s Hs). lia.
    + intros s q c [Hs| ->%list_elem_of_singleton]%elem_of_app Hw; [by eapply Hbest|].
      simpl in *. by eapply Hpopbest.
Qed.

Lemma astar_body_order_post st r c steps :
  (astar_inv graph heuristic start goal st ∧ astar_opt graph start st)
  ∧ astar_order graph start st →
  astar_body graph heuristic goal st = Return (r, c, steps) →
  astar_trace_settled graph start steps.
Proof.
  intros [[Hinv Hopt] (Hsorted & Hle & Hbest)] Hb.
  assert (∀ s q c', s ∈ as_steps st →
            weighted_path graph start (astep_current s) q c' → astep_g_cost s ≤ c')
    as Hold.
  { intros s q c' Hs Hq%weighted_path_walk. by eapply Hbest. }
  unfold astar_body in Hb.
  destruct (heappop (as_open st)) as [[[[[f g] u] p] rest]|] eqn:Hpop.
  - pose proof (astar_pop_optimal graph heuristic start goal graph_ok heuristic_ok
                  heuristic_start heuristic_consistent st f g u p rest Hinv Hopt Hpop)
      as Hpopbest.
    apply heappop_spec in Hpop as [Hperm _].
    destruct (decide (u ∈ as_closed st)); [done|].
    destruct (heuristic !! u) as [h|]; [|done].
    destruct (decide (u = goal)) as [->|].
    + injection Hb as <- <- <-. split.
      * apply StronglySorted_snoc; [done|]. intros s Hs.
        apply (Hle s (f, g, goal, p) Hs). rewrite Hperm. by left.
      * intros s q c' [Hs| ->%list_elem_of_singleton]%elem_of_app Hq; [by eapply Hold|].
        simpl in *. apply weighted_path_walk in Hq. by eapply Hpopbest.
    + destruct (graph !! u); [|done]. by destruct (for_each _ _ _) as [[? ?]|].
  - injection Hb as <- <- <-. by split.
Qed.
End AStarOrder.

(** Every entry of a trace of [astar] carries a path of the graph from
    start to its node, and the cost of that path. *)
Lemma astar_run_paths graph heuristic start goal r c steps :
  astar graph heuristic start goal = Done (r, c, steps) →
  ∀ s, s ∈ steps →
       weighted_path graph start (astep_current s) (astep_path s) (astep_g_cost s).
Proof.
  pose (Q := λ res : option (list string) * Z * list astar_step,
            astar_trace_ok graph heuristic start res.2 ∧
            astar_trace_ends goal res.1.1 res.1.2 res.2).
  intros Hrun s Hs. assert (Q (r, c, steps)) as [Hok _].
  { revert Hrun. unfold astar.
    destruct (heuristic !! start) as [h0|] eqn:Hh0; [|done].
    apply (while_loop_returns (astar_body graph heuristic goal)
             (λ st, astar_inv graph heuristic start goal st ∧
                    astar_trace_inv graph heuristic start st)
             (astar_body_trace graph heuristic start goal) Q).
    - intros st [[r' c'] steps']. apply astar_body_trace_post.
    - split; [by apply astar_inv_init|]. split; [|split]; simpl.
      + intros i s' Hi. by destruct i.
      + done.
      + intros _. by exists h0. }
  apply list_elem_of_lookup in Hs as [i Hi]. by destruct (Hok i s Hi) as (_ & Hp & _).
Qed.

(** X12: With a table that covers the graph and is consistent, on a graph that
    lists only its own nodes as neighbours, [astar] expands every node at
    the cost of a cheapest path to it, and in an order in which [f_cost]
    never decreases: the path of every entry of the trace is a path of
    the graph from start to the node of the entry, [g_cost] is the cost
    of that path, and no path of the graph from start to that node costs
    less. *)
Theorem astar_expands_settled graph heuristic start goal r c steps :
  graph_closed graph → heuristic_total graph heuristic → consistent graph heuristic →
  astar graph heuristic start goal = Done (r, c, steps) →
  astar_trace_settled graph start steps ∧
  ∀ s, s ∈ steps →
       weighted_path graph start (astep_current s) (astep_path s) (astep_g_cost s).
Proof.
  intros Hgc Htot Hcons.
  pose (Q := λ res : option (list string) * Z * list astar_step,
            astar_trace_settled graph start res.2).
  intros Hrun. split; [|by eapply astar_run_paths].
  assert (Q (r, c, steps)) as HQ; [|done]. revert Hrun.
  unfold astar. destruct (heuristic !! start) as [h0|] eqn:Hh0; [|done].
  assert (is_Some (heuristic !! start)) as Hstart by (by eexists).
  apply (while_loop_returns (astar_body graph heuristic goal)
           (λ st, (astar_inv graph heuristic start goal st ∧ astar_opt graph start st)
                  ∧ astar_order graph start st)
           (astar_body_order graph heuristic start goal Hgc Htot Hstart Hcons) Q).
  - intros s [[r' c'] steps']. by apply astar_body_order_post.
  - split; [split; [by apply astar_inv_init | apply astar_opt_init]|].
    split; [constructor|]. split; simpl.
    + intros s x Hs. by apply elem_of_nil in Hs.
    + intros s q c' Hs. by apply elem_of_nil in Hs.
Qed.

Lemma astar_expands_settled_witness :
  astar_trace_settled Poland.graph "Glogow" Poland.astar_run.2 ∧
  ∀ s, s ∈ Poland.astar_run.2 →
       weighted_path Poland.graph "Glogow"
         (astep_current s) (astep_path s) (astep_g_cost s).
Proof.
  apply (astar_expands_settled Poland.graph Poland.heuristic "Glogow" "Plock"
           Poland.astar_run.1.1 Poland.astar_run.1.2).
  - by_evaluation.
  - by_evaluation.
  - by_evaluation.
  - vm_compute. reflexivity.
Defined.

(** ** [astar] finds a path whatever the table says *)

Lemma astar_body_seen graph heuristic start goal st st' :
  astar_inv graph heuristic start goal st ∧ astar_seen graph st →
  astar_body graph heuristic goal st = Continue st' →
  astar_inv graph heuristic start goal st' ∧ astar_seen graph st'.
Proof.
  intros [Hinv [Hclosed Hedges]] Hb. split; [by eapply astar_body_inv|].
  apply astar_body_continue in Hb as (f & g & u & p & rest & Hpop & Hcase).
  apply heappop_spec in Hpop as [Hperm _].
  destruct Hcase as [[Hu ->]|(Hu & Hne & h & adj & gc' & open' & Hh & Hadj & Hrel & ->)];
    [done|].
  apply for_each_relax in Hrel as (new & _ & _ & _ & Hmono & _ & Hrel). simpl in *.
  assert (∀ x, is_Some (as_g_costs st !! x) → is_Some (gc' !! x)) as Hkeep.
  { intros x [gx Hx]. destruct (Hmono x gx Hx) as (gx' & Hx' & _). by eexists. }
  assert (∀ x, x ∈ {[u]} ∪ as_closed st → is_Some (gc' !! x)) as Hcl'.
  { intros x [->%elem_of_singleton|Hx]%elem_of_union; apply Hkeep; [|by apply Hclosed].
    destruct (proj1 Hinv (f, g, u, p)) as (_ & _ & g0 & Hg0 & _); [rewrite Hperm; by left|].
    by eexists. }
  split; simpl; [done|].
  intros x v w [->%elem_of_singleton|Hx]%elem_of_union Hedge.
  - destruct (decide (v ∈ {[u]} ∪ as_closed st)) as [Hv|Hv]; [by apply Hcl'|].
    destruct Hedge as (adj' & Hadj' & Hin). assert (adj' = adj) as -> by congruence.
    destruct (Hrel v w Hin Hv) as (gv & Hgv & _). by eexists.
  - apply Hkeep. by eapply Hedges.
Qed.

Lemma astar_seen_reach graph heuristic start goal st q v c :
  astar_inv graph heuristic start goal st → astar_seen graph st →
  as_open st = [] → walk graph start q v c → v ∈ as_closed st.
Proof.
  intros (_ & _ & _ & _ & Hbest & Hstart) [_ Hedges] Hempty.
  assert (∀ x, is_Some (as_g_costs st !! x) → x ∈ as_closed st) as Hin.
  { intros x [gx Hx]. destruct (decide (x ∈ as_closed st)) as [|Hout]; [done|].
    destruct (Hbest x gx Hout Hx) as (e & He & _). rewrite Hempty in He.
    by apply elem_of_nil in He. }
  induction 1 as [|q u v w c Hw IH He].
  - apply Hin. destruct Hstart as (g0 & Hg0 & _). by eexists.
  - apply Hin. by eapply Hedges.
Qed.

(** On a closed graph with a table that covers it, [astar] returns, and
    what it returns tells whether a path exists. *)
Lemma astar_decides graph heuristic start goal :
  graph_closed graph → heuristic_total graph heuristic →
  is_Some (heuristic !! start) → start = goal ∨ is_Some (graph !! start) →
  ∃ res, astar graph heuristic start goal = Done res ∧
         astar_post graph start goal res ∧
         (res.1.1 = None → ∀ q c, ¬ walk graph start q goal c).
Proof.
  intros Hgc Htot [h0 Hh0] Hstart.
  unfold astar. rewrite Hh0.
  apply (while_loop_total (astar_body graph heuristic goal)
           (λ st, astar_inv graph heuristic start goal st ∧ astar_seen graph st)
           (astar_body_seen graph heuristic start goal) (astar_measure graph)).
  - apply astar_body_measure.
  - intros s e [Hinv _]. by apply astar_body_no_raise with start.
  - intros s [[r c] steps] [Hinv Hseen] Hb. split; [by eapply astar_body_post|].
    intros Hnone q c' Hw. simpl in Hnone. subst r. unfold astar_body in Hb.
    destruct (heappop (as_open s)) as [[[[[f g] u] p] rest]|] eqn:Hpop.
    + destruct (decide (u ∈ as_closed s)); [done|].
      destruct (heuristic !! u); [|done].
      destruct (decide (u = goal)); [done|].
      destruct (graph !! u); [|done]. by destruct (for_each _ _ _) as [[? ?]|].
    + apply heappop_None in Hpop.
      pose proof (astar_seen_reach _ _ _ _ _ _ _ _ Hinv Hseen Hpop Hw) as Hg.
      by apply Hinv in Hg.
  - apply astar_measure_init.
  - split; [by apply astar_inv_init|]. split; simpl; intros u;
      [|intros v w]; by intros ?%not_elem_of_empty.
Qed.

(** X13: On a graph that lists only its own nodes as neighbours, with any
    table that covers the graph and the start, admissible or not,
    [astar] returns a path whenever a path leads from start to goal. *)
Theorem astar_finds_path graph heuristic start goal :
  graph_closed graph → heuristic_total graph heuristic →
  is_Some (heuristic !! start) → (∃ q, is_path graph start goal q) →
  ∃ p c steps, astar graph heuristic start goal = Done (Some p, c, steps).
Proof.
  intros Hgc Htot Hh0 [q0 Hq0].
  destruct (astar_decides graph heuristic start goal Hgc Htot Hh0)
    as ([[[p|] c] steps] & Hrun & _ & Hnone).
  - by eapply is_path_start_key.
  - by exists p, c, steps.
  - destruct (is_path_weighted _ _ _ _ Hq0) as [c0 Hc0].
    destruct (Hnone eq_refl q0 c0). by apply weighted_path_walk.
Qed.

Lemma astar_finds_path_witness :
  ∃ p c steps,
    astar Detour.graph Detour.heuristic "S" "G" = Done (Some p, c, steps).
Proof.
  apply astar_finds_path.
  - by_evaluation.
  - by_evaluation.
  - by_evaluation.
  - exists ["S"; "C"; "G"]%string.
    repeat split; try reflexivity;
      (eexists; eexists; split; [vm_compute; reflexivity|]; vm_compute;
       repeat (try (by left); right)).
Defined.

(** ** The tile-shattering solver on arbitrary integers *)

Lemma score_clamped_fuel_stable arr fuel l r :
  (r - l ≤ fuel)%nat → score_clamped_fuel fuel arr l r = score_clamped arr l r.
Proof.
  unfold score_clamped. revert l r.
  induction fuel as [fuel IH] using lt_wf_ind. intros l r Hle.
  destruct fuel as [|fuel].
  { by replace (r - l)%nat with O by lia. }
  destruct (r - l)%nat as [|d] eqn:Hd.
  { simpl. unfold range. by replace (r - (l + 1))%nat with O by lia. }
  simpl. f_equal. apply list_fmap_ext. intros i k Hk.
  apply lookup_seq in Hk as [-> Hi].
  rewrite !(IH fuel), !(IH d); lia || done.
Qed.

Lemma score_clamped_unfold arr l r :
  score_clamped arr l r =
    foldl Z.max 0 ((λ k, score_clamped arr l k + score_clamped arr k r
                         + nth l arr 0 * nth k arr 0 * nth r arr 0)
                     <$> range (l + 1) r).
Proof.
  unfold score_clamped at 1. destruct (r - l)%nat as [|d] eqn:Hd.
  { simpl. unfold range. by replace (r - (l + 1))%nat with O by lia. }
  simpl. f_equal. apply list_fmap_ext. intros i k Hk.
  apply lookup_seq in Hk as [-> Hi].
  rewrite !score_clamped_fuel_stable; lia || done.
Qed.

Lemma foldl_max_ge (l : list Z) a : a ≤ foldl Z.max a l.
Proof.
  revert a. induction l as [|x l IH]; intros a; simpl; [lia|].
  specialize (IH (Z.max a x)). lia.
Qed.

Lemma score_clamped_nonneg arr l r : 0 ≤ score_clamped arr l r.
Proof. rewrite score_clamped_unfold. apply foldl_max_ge. Qed.

Section ShatterClamped.
Variable arr : list Z.
Variable n : nat.
Hypothesis arr_length : n = length arr.

Lemma shatter_interval_filled_clamped dp len j :
  (2 ≤ len)%nat → (j + len < n)%nat → filled_clamped arr n len j dp →
  ∃ dp', shatter_interval arr len dp j = Ok dp'
         ∧ filled_clamped arr n len (Datatypes.S j) dp'.
Proof.
  intros Hlen Hr [Ht Hcells].
  destruct (shatter_interval_ok arr n arr_length dp len j Ht Hr)
    as (dp' & Hrun & Ht' & Hcell & Hother).
  exists dp'. split; [done|]. split; [done|]. intros l r Hl Hr'.
  destruct (decide ((l, r) = (j, (j + len)%nat))) as [[= -> ->]|Hne].
  - rewrite Hcell. rewrite decide_True by lia.
    rewrite Hcells by lia. rewrite decide_False by lia.
    rewrite score_clamped_unfold. f_equal. apply list_fmap_ext.
    intros i k Hk. apply lookup_seq in Hk as [-> Hi]. unfold gain.
    rewrite !Hcells by lia. rewrite !decide_True by lia. done.
  - rewrite Hother by done. rewrite Hcells by done.
    assert (l ≠ j ∨ r ≠ (j + len)%nat) as Hc.
    { destruct (decide (l = j)) as [->|]; [right|by left]. congruence. }
    repeat case_decide; done || lia.
Qed.

Lemma shatter_length_filled_clamped dp len :
  (2 ≤ len < n)%nat → filled_clamped arr n len 0 dp →
  ∃ dp', shatter_length arr n dp len = Ok dp'
         ∧ filled_clamped arr n (Datatypes.S len) 0 dp'.
Proof.
  intros Hlen Hf. unfold shatter_length.
  destruct (for_each_range (λ j t, filled_clamped arr n len j t)
              (shatter_interval arr len) 0 (n - len) dp) as (dp' & Hrun & HP).
  - lia.
  - done.
  - intros j t Hj Ht. apply shatter_interval_filled_clamped; [lia|lia|done].
  - exists dp'. split; [done|]. destruct HP as [Ht Hcells]. split; [done|].
    intros l r Hl Hr. rewrite Hcells by done. repeat case_decide; done || lia.
Qed.

Lemma shatter_loops_filled_clamped :
  (2 ≤ n)%nat →
  ∃ dp', for_each (range 2 n) (shatter_length arr n) (replicate n (replicate n 0)) = Ok dp'
         ∧ filled_clamped arr n n 0 dp'.
Proof.
  intros Hn.
  apply (for_each_range (λ len t, filled_clamped arr n len 0 t)); [done| |].
  - split.
    + split; [by rewrite length_replicate|].
      apply Forall_replicate. by rewrite length_replicate.
    + intros l r Hl Hr. unfold cell.
      rewrite (nth_lookup_Some _ _ _ (replicate n 0)) by (by apply lookup_replicate_2).
      rewrite (nth_lookup_Some _ _ _ 0) by (by apply lookup_replicate_2).
      case_decide as Hc; [|done]. unfold score_clamped.
      destruct (r - l)%nat as [|[|d]] eqn:Hd; [done| |lia].
      simpl. unfold range. by replace (r - (l + 1))%nat with O by lia.
  - intros len t Hlen Ht. by apply shatter_length_filled_clamped.
Qed.
End ShatterClamped.

Lemma strategic_tile_shatter_clamped tiles :
  strategic_tile_shatter tiles
  = Ok (score_clamped ([1] ++ tiles ++ [1]) 0 (length tiles + 1)).
Proof.
  unfold strategic_tile_shatter.
  set (arr := [1] ++ tiles ++ [1]).
  assert (length arr = (length tiles + 2)%nat) as Hn.
  { subst arr. rewrite !length_app. simpl. lia. }
  clearbody arr.
  destruct (shatter_loops_filled_clamped arr (length arr) eq_refl ltac:(lia))
    as (dp' & Hrun & Ht & Hcells).
  rewrite Hrun. simpl. rewrite (dp_get_ok (length arr)) by (done || lia).
  rewrite Hcells by lia. rewrite decide_True by lia.
  do 2 f_equal. lia.
Qed.

(** X14: Whatever integers the sequence holds, empty or not, negative or not,
    the solver returns the value of the recurrence that takes every
    maximum over the split points together with 0:
    [score_clamped left right] is the maximum of 0 and, over the interior
    split points [k], of
    [score_clamped left k + score_clamped k right + arr[left]*arr[k]*arr[right]]. *)
Theorem strategic_tile_shatter_any_integers :
  (∀ tiles : list Z,
     strategic_tile_shatter tiles
     = Ok (score_clamped ([1] ++ tiles ++ [1]) 0 (length tiles + 1)))
  ∧ (∀ arr l r,
       score_clamped arr l r =
         foldl Z.max 0 ((λ k, score_clamped arr l k + score_clamped arr k r
                              + nth l arr 0 * nth k arr 0 * nth r arr 0)
                          <$> range (l + 1) r)).
Proof. split; [apply strategic_tile_shatter_clamped | apply score_clamped_unfold]. Qed.

(** X15: No index of the table or of the padded array is ever out of range, and
    the returned score is never negative. *)
Theorem strategic_tile_shatter_safe tiles :
  ∃ v, strategic_tile_shatter tiles = Ok v ∧ 0 ≤ v.
Proof.
  eexists. split; [apply strategic_tile_shatter_clamped | apply score_clamped_nonneg].
Qed.

(** X16: One tile scores its own value, or 0 when that is negative; two
    non-negative tiles score their product plus the larger of them. *)
Theorem strategic_tile_shatter_small :
  (∀ x, strategic_tile_shatter [x] = Ok (Z.max 0 x)) ∧
  (∀ x y, 0 ≤ x → 0 ≤ y → strategic_tile_shatter [x; y] = Ok (x * y + Z.max x y)).
Proof.
  split.
  - intros x. unfold strategic_tile_shatter. simpl. unfold dp_get, list_get. simpl.
    f_equal. lia.
  - intros x y Hx Hy. unfold strategic_tile_shatter. simpl. unfold dp_get, list_get. simpl.
    f_equal. assert (0 ≤ x * y) by nia. lia.
Qed.

Lemma strategic_tile_shatter_small_witness :
  strategic_tile_shatter [1; 5] = Ok (1 * 5 + Z.max 1 5).
Proof. apply (proj2 strategic_tile_shatter_small); lia. Defined.

(** ** The three strategies agree on reachability *)

(** X17: On a graph that lists only its own nodes as neighbours and contains
    start, with a table that covers the graph, [bfs], [dfs] and [astar]
    all return, and each returns a path exactly when a path leads from
    start to goal. *)
Theorem strategies_agree graph heuristic start goal :
  graph_closed graph → heuristic_total graph heuristic → is_Some (graph !! start) →
  ∃ rb sb rd sd ra c sa,
    bfs graph start goal = Done (rb, sb) ∧
    dfs graph start goal = Done (rd, sd) ∧
    astar graph heuristic start goal = Done (ra, c, sa) ∧
    (is_Some rb ↔ ∃ q, is_path graph start goal q) ∧
    (is_Some rd ↔ ∃ q, is_path graph start goal q) ∧
    (is_Some ra ↔ ∃ q, is_path graph start goal q).
Proof.
  intros Hgc Htot Hstart.
  assert (∀ q c, walk graph start q goal c → ∃ q, is_path graph start goal q) as Hwp.
  { intros q c Hw. exists q. by eapply weighted_path_is_path, walk_weighted_path. }
  assert (∀ q, is_path graph start goal q → ∃ c, walk graph start q goal c) as Hpw.
  { intros q [c Hq]%is_path_weighted. exists c. by apply weighted_path_walk. }
  destruct (bfs_total graph start goal Hgc) as ([rb sb] & Hb & _ & Hpb); [by right|].
  destruct (dfs_total graph start goal Hgc) as ([rd sd] & Hd & _ & Hpd); [by right|].
  destruct (astar_decides graph heuristic start goal Hgc Htot)
    as ([[ra c] sa] & Ha & [_ Hpa] & Hna);
    [destruct Hstart as [adj Hadj]; by apply (Htot start adj)|by right|].
  exists rb, sb, rd, sd, ra, c, sa. simpl in *.
  split; [done|]. split; [done|]. split; [done|]. split; [|split].
  - destruct rb as [p|]; split.
    + intros _. destruct Hpb as [c' Hw]. by eapply Hwp.
    + by eexists.
    + by intros [? ?].
    + intros [q [c' Hw]%Hpw]. by destruct (Hpb q c').
  - destruct rd as [p|]; split.
    + intros _. destruct Hpd as [c' Hw]. by eapply Hwp.
    + by eexists.
    + by intros [? ?].
    + intros [q [c' Hw]%Hpw]. by destruct (Hpd q c').
  - destruct ra as [p|]; split.
    + intros _. by eapply Hwp.
    + by eexists.
    + by intros [? ?].
    + intros [q [c' Hw]%Hpw]. by destruct (Hna eq_refl q c').
Qed.

Lemma strategies_agree_witness :
  ∃ rb sb rd sd ra c sa,
    bfs Poland.graph "Glogow" "Plock" = Done (rb, sb) ∧
    dfs Poland.graph "Glogow" "Plock" = Done (rd, sd) ∧
    astar Poland.graph Poland.heuristic "Glogow" "Plock" = Done (ra, c, sa) ∧
    (is_Some rb ↔ ∃ q, is_path Poland.graph "Glogow" "Plock" q) ∧
    (is_Some rd ↔ ∃ q, is_path Poland.graph "Glogow" "Plock" q) ∧
    (is_Some ra ↔ ∃ q, is_path Poland.graph "Glogow" "Plock" q).
Proof. apply strategies_agree; by_evaluation. Defined.

(** ** Reversing the tiles *)

Lemma foldl_max_Permutation (l1 l2 : list Z) :
  l1 ≡ₚ l2 → ∀ a, foldl Z.max a l1 = foldl Z.max a l2.
Proof.
  induction 1 as [|x l1 l2 _ IH|x y l|l1 l2 l3 _ IH1 _ IH2]; intros a; simpl.
  - done.
  - apply IH.
  - f_equal. lia.
  - by rewrite IH1.
Qed.

Lemma fmap_mirror_seq (n len a : nat) :
  (a + len ≤ n)%nat →
  (λ k, n - 1 - k)%nat <$> seq a len = reverse (seq (n - a - len) len).
Proof.
  revert a. induction len as [|len IH]; intros a Hle; [done|].
  rewrite (seq_S len (n - a - Datatypes.S len)), reverse_snoc. simpl. f_equal; [lia|].
  rewrite IH by lia. do 2 f_equal. lia.
Qed.

Lemma nth_reverse (arr : list Z) i :
  (i < length arr)%nat → nth i (reverse arr) 0 = nth (length arr - 1 - i) arr 0.
Proof.
  intros Hi. rewrite !nth_lookup, reverse_lookup by done.
  by replace (length arr - Datatypes.S i)%nat with (length arr - 1 - i)%nat by lia.
Qed.

Lemma score_clamped_reverse arr l r :
  (l ≤ r < length arr)%nat →
  score_clamped (reverse arr) l r
  = score_clamped arr (length arr - 1 - r) (length arr - 1 - l).
Proof.
  remember (r - l)%nat as d eqn:Hd. revert l r Hd.
  induction d as [d IH] using lt_wf_ind. intros l r Hd Hlr.
  rewrite (score_clamped_unfold (reverse arr)), (score_clamped_unfold arr).
  set (n := length arr) in *.
  unfold range.
  replace (n - 1 - l - (n - 1 - r + 1))%nat with (r - (l + 1))%nat by lia.
  destruct (decide (r - (l + 1) = 0)%nat) as [Hz|Hz].
  { by rewrite Hz. }
  rewrite <- (foldl_max_Permutation _ _
             (reverse_Permutation
                ((λ k, score_clamped arr (n - 1 - r) k + score_clamped arr k (n - 1 - l)
                       + nth (n - 1 - r)%nat arr 0 * nth k arr 0 * nth (n - 1 - l)%nat arr 0)
                   <$> seq (n - 1 - r + 1) (r - (l + 1))))).
  f_equal. rewrite <- fmap_reverse.
  replace (n - 1 - r + 1)%nat with (n - (l + 1) - (r - (l + 1)))%nat by lia.
  rewrite <- fmap_mirror_seq by lia. rewrite <- list_fmap_compose.
  apply list_fmap_ext. intros i k Hk. apply lookup_seq in Hk as [-> Hi]. simpl.
  rewrite (IH (l + 1 + i - l)%nat) by lia.
  rewrite (IH (r - (l + 1 + i))%nat) by lia.
  rewrite !nth_reverse by (fold n; lia). fold n. lia.
Qed.

(** X18: The score does not depend on the direction in which the tiles are
    listed: the solver returns the same value on a sequence and on its
    reversal. *)
Theorem strategic_tile_shatter_reverse tiles :
  strategic_tile_shatter (reverse tiles) = strategic_tile_shatter tiles.
Proof.
  rewrite !strategic_tile_shatter_clamped. f_equal.
  assert ([1] ++ reverse tiles ++ [1] = reverse ([1] ++ tiles ++ [1])) as ->.
  { simpl. by rewrite reverse_cons, reverse_app. }
  rewrite length_reverse, score_clamped_reverse.
  - f_equal; rewrite !length_app; simpl; lia.
  - rewrite !length_app. simpl. lia.
Qed.

(** ** [bfs] and [dfs] do not read the weights *)

Lemma while_loop_same {S R : Type} (body1 body2 : S → step_result S R) :
  (∀ s, body1 s = body2 s) →
  ∀ fuel1 fuel2 s,
    while_loop fuel1 body1 s ≠ OutOfFuel → while_loop fuel2 body2 s ≠ OutOfFuel →
    while_loop fuel1 body1 s = while_loop fuel2 body2 s.
Proof.
  intros Hbody. induction fuel1 as [|fuel1 IH]; intros fuel2 s; simpl; [done|].
  destruct fuel2 as [|fuel2]; simpl; [done|].
  rewrite <- Hbody. destruct (body1 s); [apply IH|done..].
Qed.

Lemma insert_asc_names x y l k :
  x.1 = y.1 → l.*1 = k.*1 → (insert_asc x l).*1 = (insert_asc y k).*1.
Proof.
  intros Hxy. revert k. induction l as [|a l IH]; intros [|b k] Hlk; try done.
  - simpl. by rewrite Hxy.
  - simpl in Hlk. injection Hlk as Hab Hlk. simpl. rewrite <- Hab, <- Hxy.
    destruct (str_lt a.1 x.1); simpl; [|congruence].
    f_equal; [done|by apply IH].
Qed.

Lemma insert_desc_names x y l k :
  x.1 = y.1 → l.*1 = k.*1 → (insert_desc x l).*1 = (insert_desc y k).*1.
Proof.
  intros Hxy. revert k. induction l as [|a l IH]; intros [|b k] Hlk; try done.
  - simpl. by rewrite Hxy.
  - simpl in Hlk. injection Hlk as Hab Hlk. simpl. rewrite <- Hab, <- Hxy.
    destruct (str_lt x.1 a.1); simpl; [|congruence].
    f_equal; [done|by apply IH].
Qed.

Lemma sorted_by_name_names l k :
  l.*1 = k.*1 → (sorted_by_name l).*1 = (sorted_by_name k).*1.
Proof.
  revert k. induction l as [|x l IH]; intros [|y k] Hlk; try done.
  simpl in Hlk. injection Hlk as Hxy Hlk. simpl. apply insert_asc_names; [done|by apply IH].
Qed.

Lemma sorted_by_name_reverse_names l k :
  l.*1 = k.*1 → (sorted_by_name_reverse l).*1 = (sorted_by_name_reverse k).*1.
Proof.
  revert k. induction l as [|x l IH]; intros [|y k] Hlk; try done.
  simpl in Hlk. injection Hlk as Hxy Hlk. simpl. apply insert_desc_names; [done|by apply IH].
Qed.

Lemma foldl_push_names closed path open nbs nbs' :
  nbs.*1 = nbs'.*1 →
  foldl (push_neighbor closed path) open nbs = foldl (push_neighbor closed path) open nbs'.
Proof.
  revert open nbs'. induction nbs as [|nb nbs IH]; intros open [|nb' nbs'] Hn; try done.
  simpl in Hn. injection Hn as H1 Hn. simpl. unfold push_neighbor at 2 4.
  rewrite H1. by apply IH.
Qed.

Lemma neighbour_names_lookup g1 g2 u :
  neighbour_names g1 = neighbour_names g2 →
  match g1 !! u, g2 !! u with
  | Some a1, Some a2 => a1.*1 = a2.*1
  | None, None => True
  | _, _ => False
  end.
Proof.
  intros Heq. assert (neighbour_names g1 !! u = neighbour_names g2 !! u) as Hu
    by (by rewrite Heq).
  unfold neighbour_names in Hu. rewrite !lookup_fmap in Hu.
  destruct (g1 !! u), (g2 !! u); simpl in Hu; done || congruence.
Qed.

Lemma bfs_body_names g1 g2 goal st :
  neighbour_names g1 = neighbour_names g2 → bfs_body g1 goal st = bfs_body g2 goal st.
Proof.
  intros Heq. unfold bfs_body. destruct (st_open st) as [|[u p] rest]; [done|].
  destruct (decide (u ∈ st_closed st)); [done|].
  destruct (decide (u = goal)); [done|].
  pose proof (neighbour_names_lookup g1 g2 u Heq) as Hu.
  destruct (g1 !! u) as [a1|], (g2 !! u) as [a2|]; try done.
  do 2 f_equal. by apply foldl_push_names, sorted_by_name_names.
Qed.

Lemma dfs_body_names g1 g2 goal st :
  neighbour_names g1 = neighbour_names g2 → dfs_body g1 goal st = dfs_body g2 goal st.
Proof.
  intros Heq. unfold dfs_body. destruct (list_pop (st_open st)) as [[rest [u p]]|]; [|done].
  destruct (decide (u ∈ st_closed st)); [done|].
  destruct (decide (u = goal)); [done|].
  pose proof (neighbour_names_lookup g1 g2 u Heq) as Hu.
  destruct (g1 !! u) as [a1|], (g2 !! u) as [a2|]; try done.
  do 2 f_equal. by apply foldl_push_names, sorted_by_name_reverse_names.
Qed.

(** X19: [bfs] and [dfs] never read a weight: on two graphs that list the same
    neighbour names in the same order under the same keys they give the
    same result, the same trace, or the same exception. *)
Theorem bfs_dfs_ignore_weights g1 g2 start goal :
  neighbour_names g1 = neighbour_names g2 →
  bfs g1 start goal = bfs g2 start goal ∧ dfs g1 start goal = dfs g2 start goal.
Proof.
  intros Heq. split.
  - apply while_loop_same; [|apply bfs_terminates..].
    intros s. by apply bfs_body_names.
  - apply while_loop_same; [|apply dfs_terminates..].
    intros s. by apply dfs_body_names.
Qed.

Lemma bfs_dfs_ignore_weights_witness :
  bfs Poland.graph "Glogow" "Plock" = bfs (unit_weights Poland.graph) "Glogow" "Plock" ∧
  dfs Poland.graph "Glogow" "Plock" = dfs (unit_weights Poland.graph) "Glogow" "Plock".
Proof. apply bfs_dfs_ignore_weights. by_evaluation. Defined.

(** ** The order in which [dfs] expands *)

Lemma ascii_compare_trans a b c :
  Ascii.compare a b = Lt → Ascii.compare b c = Lt → Ascii.compare a c = Lt.
Proof.
  unfold Ascii.compare. rewrite !N.compare_lt_iff. lia.
Qed.

Lemma string_compare_trans a b c :
  String.compare a b = Lt → String.compare b c = Lt → String.compare a c = Lt.
Proof.
  revert b c. induction a as [|x a IH]; intros [|y b] [|z c]; simpl; try done.
  destruct (Ascii.compare x y) eqn:Hxy; [| |done].
  - apply Ascii.compare_eq_iff in Hxy as ->.
    destruct (Ascii.compare y z); [apply IH|done|done].
  - intros _. destruct (Ascii.compare y z) eqn:Hyz; [| |done].
    + apply Ascii.compare_eq_iff in Hyz as ->. by rewrite Hxy.
    + intros _. by rewrite (ascii_compare_trans _ _ _ Hxy Hyz).
Qed.

Lemma str_lt_irrefl a : str_lt a a = false.
Proof.
  unfold str_lt, String.ltb. destruct (String.compare a a) eqn:Hc; try done.
  pose proof (String.compare_antisym a a) as Ha. rewrite Hc in Ha. done.
Qed.

Lemma str_lt_asym a b : str_lt a b = true → str_lt b a = false.
Proof.
  unfold str_lt, String.ltb. rewrite (String.compare_antisym b a).
  by destruct (String.compare a b).
Qed.

(** [a] is not before [b] and [b] is not before [c]: [a] is not before [c]. *)
Lemma str_lt_neg_trans a b c :
  str_lt a b = false → str_lt b c = false → str_lt a c = false.
Proof.
  unfold str_lt, String.ltb. intros Hab Hbc.
  destruct (String.compare a c) eqn:Hac; try done.
  destruct (String.compare a b) eqn:Hab'; [|done|].
  - apply String.compare_eq_iff in Hab' as ->. by rewrite Hac in Hbc.
  - assert (String.compare b a = Lt) as Hba.
    { rewrite String.compare_antisym, Hab'. done. }
    by rewrite (string_compare_trans _ _ _ Hba Hac) in Hbc.
Qed.

Lemma insert_desc_sorted x l :
  StronglySorted name_ge l → StronglySorted name_ge (insert_desc x l).
Proof.
  induction l as [|y l IH]; intros Hl; simpl; [repeat constructor|].
  apply StronglySorted_cons in Hl as [Hy Hl].
  destruct (str_lt x.1 y.1) eqn:Hxy.
  - apply StronglySorted_cons. split; [|by apply IH].
    rewrite insert_desc_perm. constructor; [|done]. by apply str_lt_asym.
  - apply StronglySorted_cons. split; [|by apply StronglySorted_cons].
    constructor; [done|]. eapply Forall_impl; [exact Hy|].
    intros z Hz. by eapply str_lt_neg_trans.
Qed.

Lemma sorted_by_name_reverse_sorted l :
  StronglySorted name_ge (sorted_by_name_reverse l).
Proof.
  induction l as [|x l IH]; simpl; [constructor|]. by apply insert_desc_sorted.
Qed.

Lemma StronglySorted_filter {A : Type} (R : A → A → Prop) (P : A → Prop)
    `{∀ x, Decision (P x)} l :
  StronglySorted R l → StronglySorted R (filter P l).
Proof.
  induction 1 as [|x l Hl IH Hx]; [constructor|].
  rewrite filter_cons. destruct (decide (P x)); [|done].
  constructor; [done|]. apply Forall_forall. intros y [_ Hy]%list_elem_of_filter.
  rewrite Forall_forall in Hx. by apply Hx.
Qed.

(** What [dfs] leaves on top of the stack after pushing the neighbours of
    a node. *)
Lemma dfs_push_top closed path open adj v w :
  (v, w) ∈ adj → v ∉ closed →
  ∃ rest u,
    foldl (push_neighbor closed path) open (sorted_by_name_reverse adj)
    = rest ++ [(u, path ++ [u])] ∧
    (u ∉ closed) ∧ (∃ w', (u, w') ∈ adj) ∧
    ∀ v' w', (v', w') ∈ adj → v' ∉ closed → str_lt v' u = false.
Proof.
  intros Hin Hv. rewrite foldl_push_neighbor.
  pose proof (StronglySorted_filter name_ge (λ nb : string * Z, nb.1 ∉ closed) _
                (sorted_by_name_reverse_sorted adj)) as Hsorted.
  assert (∀ nb, nb ∈ filter (λ nb : string * Z, nb.1 ∉ closed) (sorted_by_name_reverse adj)
                ↔ nb ∈ adj ∧ nb.1 ∉ closed) as Hmem.
  { intros nb. rewrite list_elem_of_filter, sorted_by_name_reverse_perm. tauto. }
  destruct (filter _ (sorted_by_name_reverse adj)) as [|x l] eqn:Hf using rev_ind.
  { assert ((v, w) ∈ @nil (string * Z)) as Hnil%elem_of_nil by (by apply Hmem). done. }
  clear IHl. destruct x as [u wu].
  exists (open ++ ((λ nb : string * Z, (nb.1, path ++ [nb.1])) <$> l)), u.
  rewrite fmap_app, app_assoc. simpl.
  destruct (proj1 (Hmem (u, wu))) as [Hu Huc]; [apply elem_of_app; right; by left|].
  split; [done|]. split; [done|]. split; [by exists wu|].
  intros v' w' Hin' Hv'.
  assert ((v', w') ∈ l ++ [(u, wu)]) as [Hl|Heq%list_elem_of_singleton]%elem_of_app
    by (by apply Hmem).
  2: { injection Heq as -> _. apply str_lt_irrefl. }
  apply StronglySorted_app in Hsorted as (Hcross & _).
  apply (Hcross (v', w') (u, wu)); [done|by left].
Qed.

Lemma dfs_trace_next_snoc graph open closed steps rest u p t :
  dfs_trace_next graph steps → dfs_top graph (SearchState open closed steps) →
  open = rest ++ [(u, p)] → step_current t = u → step_path t = p →
  dfs_trace_next graph (steps ++ [t]).
Proof.
  intros Hnext Htop Hopen Hu Hp i s t' adj v w Hi Hi' Hadj Hin Hv.
  destruct (decide (Datatypes.S i < length steps)%nat) as [Hlt|Hge].
  - rewrite lookup_app_l in Hi by lia. rewrite lookup_app_l in Hi' by lia.
    by eapply Hnext.
  - pose proof (lookup_lt_Some _ _ _ Hi') as Hlen.
    rewrite length_app in Hlen. simpl in Hlen.
    assert (Datatypes.S i = length steps) as Hi_eq by lia.
    rewrite lookup_app_r in Hi' by lia.
    apply list_lookup_singleton_Some in Hi' as [_ <-].
    rewrite lookup_app_l in Hi by lia.
    assert (last steps = Some s) as Hlast.
    { rewrite last_lookup, <- Hi_eq. done. }
    destruct (Htop s Hlast) as [Hcl Hc]. simpl in Hcl, Hc.
    rewrite Hcl in Hv.
    destruct (Hc adj v w Hadj Hin Hv) as (rest' & u' & Hopen' & Hu' & Hex & Hle).
    rewrite Hopen in Hopen'. apply app_inj_tail in Hopen' as [_ [= Hu_eq Hp_eq]].
    subst. done.
Qed.

Lemma dfs_body_order graph goal st st' :
  dfs_trace_next graph (st_steps st) ∧ dfs_top graph st →
  dfs_body graph goal st = Continue st' →
  dfs_trace_next graph (st_steps st') ∧ dfs_top graph st'.
Proof.
  intros [Hnext Htop] Hb.
  destruct st as [open closed steps]. unfold dfs_body in Hb. simpl in *.
  destruct (list_pop open) as [[rest [u p]]|] eqn:Hpop; [|done].
  apply list_pop_spec in Hpop.
  destruct (decide (u ∈ closed)) as [Hin|Hout].
  { injection Hb as <-. simpl. split; [done|].
    intros s Hlast. destruct (Htop s Hlast) as [Hcl Hc]. simpl in *.
    split; [done|]. intros adj v w Hadj Hv Hvc.
    destruct (Hc adj v w Hadj Hv Hvc) as (rest' & u' & Hopen' & Hu' & _).
    rewrite Hpop in Hopen'. apply app_inj_tail in Hopen' as [_ [= <- _]]. done. }
  destruct (decide (u = goal)); [done|].
  destruct (graph !! u) as [adj|] eqn:Hadj; [|done].
  injection Hb as <-. cbn [st_steps]. split.
  - by eapply dfs_trace_next_snoc.
  - intros s Hlast. cbn [st_steps st_closed st_open] in *.
    rewrite last_snoc in Hlast. injection Hlast as <-. simpl.
    split; [done|]. intros adj' v w Hadj' Hv Hvc.
    rewrite Hadj in Hadj'. injection Hadj' as <-.
    destruct (dfs_push_top _ p rest adj v w Hv Hvc)
      as (rest' & u' & Heq & Hu' & Hex & Hle).
    exists rest', u'. split; [done|]. split; [done|]. split; [done|].
    by eapply Hle.
Qed.

Lemma dfs_body_order_post graph goal st r steps :
  dfs_trace_next graph (st_steps st) ∧ dfs_top graph st →
  dfs_body graph goal st = Return (r, steps) →
  dfs_trace_next graph steps.
Proof.
  intros [Hnext Htop] Hb.
  destruct st as [open closed steps0]. unfold dfs_body in Hb. simpl in *.
  destruct (list_pop open) as [[rest [u p]]|] eqn:Hpop.
  - apply list_pop_spec in Hpop.
    destruct (decide (u ∈ closed)); [done|].
    destruct (decide (u = goal)) as [->|]; [|by destruct (graph !! u)].
    injection Hb as <- <-. by eapply dfs_trace_next_snoc.
  - by injection Hb as <- <-.
Qed.

(** X20: [dfs] goes to the first unexpanded neighbour in the order of the
    names.  In the trace it returns, whenever the node of an entry has a
    neighbour outside the closed set recorded in that entry, the next
    entry is for such a neighbour, none of them has a name that comes
    before its name, and its path is the path of the entry followed by
    that neighbour. *)
Theorem dfs_expands_first_neighbour graph start goal r steps :
  dfs graph start goal = Done (r, steps) → dfs_trace_next graph steps.
Proof.
  pose (Q := λ res : option (list string) * list step, dfs_trace_next graph res.2).
  intros Hrun. assert (Q (r, steps)) as HQ; [|done]. revert Hrun.
  apply (while_loop_returns (dfs_body graph goal)
           (λ st, dfs_trace_next graph (st_steps st) ∧ dfs_top graph st)
           (dfs_body_order graph goal) Q).
  - intros s [r' steps']. apply dfs_body_order_post.
  - split.
    + intros i s t adj v w Hi. done.
    + intros s Hlast. done.
Qed.

Lemma dfs_expands_first_neighbour_witness :
  dfs_trace_next Poland.graph Poland.dfs_run.2.
Proof.
  apply (dfs_expands_first_neighbour Poland.graph "Glogow" "Plock" Poland.dfs_run.1).
  vm_compute. reflexivity.
Defined.
